(** * PDF translator: the entity-preserving chunked translation pipeline

    A shallow embedding of [src/pdf_translator.py] (module [Core] below) and
    of [src/webapp/pdf_translator.py] (module [Webapp]), with the properties
    of the specification stated and settled over it.

    Conventions of the embedding.
    - A Python [str] is the list of its code points ([list N]); [len] is
      [length], a slice [s[a:b]] is [str_slice s a b].
    - [re.finditer] belongs to the interpreter's library.  The protectors
      take its result (for every pattern, the spans in scan order) as an
      argument; module [Re] holds a backtracking matcher for the pattern
      fragment the sources use, with which the spans of concrete texts are
      computed.  The sentence boundary and the recovery pattern are written
      as scans, and the scans are proved to be the matcher's [split] and
      [search] on those patterns.
    - The network service, the PDF reader and writer and the file system are
      fields of an environment record; calls to them are threaded through an
      explicit state and recorded in a trace.  Logging is not modelled. *)

From Stdlib Require Import List NArith Arith Bool Lia String Ascii.
From Stdlib Require Import Decimal DecimalNat.
From stdpp Require Import gmap.
Import ListNotations.

Local Open Scope N_scope.
Local Open Scope nat_scope.
Local Open Scope list_scope.

(** ** Python strings *)

Abbreviation str := (list N).

(** Code points of an ASCII literal. *)
Definition u (s : string) : str :=
  map N_of_ascii (list_ascii_of_string s).

Definition SPACE : N := 32%N.
Definition NEWLINE : N := 10%N.

Fixpoint str_eqb (a b : str) : bool :=
  match a, b with
  | [], [] => true
  | x :: a', y :: b' => (x =? y)%N && str_eqb a' b'
  | _, _ => false
  end.

(** [str.isspace] on one code point, which is also the class [\s] of [re]
    on [str] patterns: the white-space table of the interpreter. *)
Definition isspace (c : N) : bool :=
  ((9 <=? c) && (c <=? 13))%N || ((28 <=? c) && (c <=? 32))%N
  || (c =? 133)%N || (c =? 160)%N || (c =? 5760)%N
  || ((8192 <=? c) && (c <=? 8202))%N
  || (c =? 8232)%N || (c =? 8233)%N || (c =? 8239)%N || (c =? 8287)%N
  || (c =? 12288)%N.

Fixpoint lstrip (s : str) : str :=
  match s with
  | [] => []
  | c :: s' => if isspace c then lstrip s' else s
  end.

Fixpoint rstrip (s : str) : str :=
  match s with
  | [] => []
  | c :: s' =>
      match rstrip s' with
      | [] => if isspace c then [] else [c]
      | r => c :: r
      end
  end.

(** [s.strip()] *)
Definition strip (s : str) : str := rstrip (lstrip s).

(** [s[a:b]] for non-negative [a], [b] (out-of-range bounds are clamped). *)
Definition str_slice (s : str) (a b : nat) : str := firstn (b - a) (skipn a s).

Fixpoint startswith (p s : str) : bool :=
  match p, s with
  | [], _ => true
  | _ :: _, [] => false
  | x :: p', y :: s' => (x =? y)%N && startswith p' s'
  end.

(** [p in s] *)
Fixpoint str_in (p s : str) : bool :=
  startswith p s ||
  match s with
  | [] => false
  | _ :: s' => str_in p s'
  end.

(** The scan of [str.replace] for a non-empty [old]: [skip] counts the code
    points of a match still to be passed over. *)
Fixpoint replace_from (old new : str) (skip : nat) (s : str) : str :=
  match s with
  | [] => []
  | c :: s' =>
      match skip with
      | S k => replace_from old new k s'
      | O =>
          if startswith old s
          then new ++ replace_from old new (length old - 1) s'
          else c :: replace_from old new 0 s'
      end
  end.

(** [s.replace(old, new)]: every non-overlapping occurrence, left to right;
    an empty [old] matches before every code point and at the end. *)
Definition str_replace (old new s : str) : str :=
  match old with
  | [] => new ++ flat_map (fun c => c :: new) s
  | _ :: _ => replace_from old new 0 s
  end.

(** [sep.join(l)] *)
Fixpoint str_join (sep : str) (l : list str) : str :=
  match l with
  | [] => []
  | [x] => x
  | x :: l' => x ++ sep ++ str_join sep l'
  end.

Fixpoint uint_chars (d : Decimal.uint) : str :=
  match d with
  | Nil => []
  | D0 d' => 48%N :: uint_chars d'
  | D1 d' => 49%N :: uint_chars d'
  | D2 d' => 50%N :: uint_chars d'
  | D3 d' => 51%N :: uint_chars d'
  | D4 d' => 52%N :: uint_chars d'
  | D5 d' => 53%N :: uint_chars d'
  | D6 d' => 54%N :: uint_chars d'
  | D7 d' => 55%N :: uint_chars d'
  | D8 d' => 56%N :: uint_chars d'
  | D9 d' => 57%N :: uint_chars d'
  end.

(** [str(n)], also the rendering of [{n}] in an f-string. *)
Definition str_of_nat (n : nat) : str := uint_chars (Nat.to_uint n).

Definition ascii_digit (c : N) : Prop := (48 <= c <= 57)%N.

(** ** The fragment of [re] the sources use

    A backtracking matcher in continuation-passing style: alternatives are
    tried in the order the interpreter tries them (greedy repetition takes
    one more iteration first, lazy repetition one fewer).  Classes are given
    on the ASCII range, where they agree with the interpreter's tables; the
    matcher serves to compute the spans of the concrete texts used below,
    while the properties quantify over any result of [re.finditer]. *)
Module Re.

Inductive re : Type :=
| Chr (c : N)                 (* a literal code point *)
| Cls (p : N -> bool)         (* a class *)
| Cat (a b : re)
| Alt (a b : re)
| Rep (min : nat) (a : re)    (* a{min,}, greedy: a* is Rep 0, a+ is Rep 1 *)
| Lazy1 (a : re)              (* a+? *)
| Bnd                         (* \b *)
| Behind (p : N -> bool).     (* (?<=[...]) on one code point *)

Definition between (lo hi c : N) : bool := ((lo <=? c) && (c <=? hi))%N.
Definition is_upper (c : N) : bool := between 65 90 c.
Definition is_lower (c : N) : bool := between 97 122 c.
Definition is_letter (c : N) : bool := is_upper c || is_lower c.
Definition is_digit (c : N) : bool := between 48 57 c.
Definition is_word (c : N) : bool := is_letter c || is_digit c || (c =? 95)%N.
Definition one_of (s : string) (c : N) : bool := existsb (N.eqb c) (u s).

Definition at_boundary (prev : option N) (s : str) : bool :=
  xorb (match prev with Some c => is_word c | None => false end)
       (match s with c :: _ => is_word c | [] => false end).

(** [mt r prev s k]: match [r] at the head of [s], [prev] being the code
    point before it, and hand the position reached to [k]. *)
Fixpoint mt (r : re) (prev : option N) (s : str)
    (k : option N -> str -> option str) {struct r} : option str :=
  match r with
  | Chr c =>
      match s with
      | x :: s' => if (x =? c)%N then k (Some x) s' else None
      | [] => None
      end
  | Cls p =>
      match s with
      | x :: s' => if p x then k (Some x) s' else None
      | [] => None
      end
  | Cat a b => mt a prev s (fun prev' s' => mt b prev' s' k)
  | Alt a b =>
      match mt a prev s k with
      | Some x => Some x
      | None => mt b prev s k
      end
  | Rep min a =>
      (fix loop (fuel min : nat) (prev : option N) (s : str) {struct fuel}
         : option str :=
         match fuel with
         | O => None
         | S f =>
             match mt a prev s (fun prev' s' =>
                     if length s' <? length s
                     then loop f (pred min) prev' s' else None) with
             | Some x => Some x
             | None => if min =? 0 then k prev s else None
             end
         end) (S (length s)) min prev s
  | Lazy1 a =>
      (fix loop (fuel : nat) (prev : option N) (s : str) {struct fuel}
         : option str :=
         match fuel with
         | O => None
         | S f =>
             mt a prev s (fun prev' s' =>
               match k prev' s' with
               | Some x => Some x
               | None => if length s' <? length s
                         then loop f prev' s' else None
               end)
         end) (S (length s)) prev s
  | Bnd => if at_boundary prev s then k prev s else None
  | Behind p =>
      match prev with
      | Some c => if p c then k prev s else None
      | None => None
      end
  end.

(** The continuation that ends a match: the text left after it. *)
Definition stop (prev : option N) (rest : str) : option str := Some rest.

(** The match of [r] starting exactly here, as the text left after it. *)
Definition match_here (r : re) (prev : option N) (s : str) : option str :=
  mt r prev s stop.

(** [re.finditer(r, text)] as the list of [(start, end)], for patterns that
    consume at least one code point (all patterns of the sources do). *)
Fixpoint scan (r : re) (prev : option N) (pos skip : nat) (s : str)
  : list (nat * nat) :=
  match s with
  | [] => []
  | c :: s' =>
      match skip with
      | S k => scan r (Some c) (S pos) k s'
      | O =>
          match match_here r prev s with
          | Some rest =>
              let n := length s - length rest in
              (pos, pos + n) :: scan r (Some c) (S pos) (n - 1) s'
          | None => scan r (Some c) (S pos) 0 s'
          end
      end
  end.

Definition finditer (r : re) (text : str) : list (nat * nat) :=
  scan r None 0 0 text.

(** [re.split(r, text)] from the spans of [re.finditer]. *)
Fixpoint split_at (spans : list (nat * nat)) (pos : nat) (s : str)
  : list str :=
  match spans with
  | [] => [s]
  | (a, b) :: rest => firstn (a - pos) s :: split_at rest b (skipn (b - pos) s)
  end.

Definition split (r : re) (text : str) : list str :=
  split_at (finditer r text) 0 text.

(** [re.search(r, text).group()], the text of the leftmost match. *)
Definition search (r : re) (text : str) : option str :=
  match finditer r text with
  | [] => None
  | (a, b) :: _ => Some (firstn (b - a) (skipn a text))
  end.

Fixpoint cat (l : list re) : re :=
  match l with
  | [] => Rep 0 (Cls (fun _ => false))
  | [r] => r
  | r :: l' => Cat r (cat l')
  end.

Fixpoint alt (l : list re) : re :=
  match l with
  | [] => Cls (fun _ => false)
  | [r] => r
  | r :: l' => Alt r (alt l')
  end.

(** A literal word, and the same under [re.IGNORECASE]. *)
Definition lit (s : string) : re := cat (map Chr (u s)).

Definition fold_case (c : N) : N :=
  if is_upper c then (c + 32)%N else c.

Definition lit_i (s : string) : re :=
  cat (map (fun c => Cls (fun x => (fold_case x =? fold_case c)%N)) (u s)).

End Re.

(** ** The outside world

    The translation service, the PDF reader, the PDF writer and the file
    system are reached through an environment; every call takes and returns
    the state of the world and is recorded in a trace. *)

Inductive exn : Type :=
| FileNotFoundError (msg : str)
| ValueError (msg : str)
| TypeError
| AttributeError
| LibraryError (tag : nat).      (* any exception raised inside a library *)

Inductive result (A : Type) : Type :=
| Return (a : A)
| Raise (e : exn).
Arguments Return {A} a.
Arguments Raise {A} e.

(** What [translator.translate] hands back: no object, or an object whose
    [text] attribute is [None] or a string. *)
Inductive translated : Type :=
| NoObject
| Translated (text : option str).

Inductive event : Type :=
| EvRead (path : str)
| EvDetect (sample : str)
| EvTranslate (chunk src dest : str)
| EvSleep (milliseconds : nat)
| EvBuild (path title : str) (paragraphs : list str).

Record Env (W : Type) : Type := {
  (* pathlib *)
  path_exists : W -> str -> bool;
  path_glob : W -> str -> str -> list str;
  path_stem : str -> str;
  path_name : str -> str;
  path_join : str -> str -> str;
  (* PyPDF2: the text of every page of the file, in page order *)
  read_pages : W -> str -> result (list str) * W;
  (* googletrans *)
  api_detect : W -> str -> result str * W;
  api_translate : W -> str -> str -> str -> result translated * W;
  (* reportlab: SimpleDocTemplate(path).build(title and paragraphs) *)
  doc_build : W -> str -> str -> list str -> result unit * W;
  (* re.finditer for each of self.name_patterns, in order *)
  name_spans : str -> list (list (nat * nat))
}.
Arguments path_exists {W}.
Arguments path_glob {W}.
Arguments path_stem {W}.
Arguments path_name {W}.
Arguments path_join {W}.
Arguments read_pages {W}.
Arguments api_detect {W}.
Arguments api_translate {W}.
Arguments doc_build {W}.
Arguments name_spans {W}.

(** Computations over the world with exceptions. *)
Definition M (W A : Type) : Type :=
  W * list event -> result A * (W * list event).

Definition ret {W A} (a : A) : M W A := fun st => (Return a, st).

Definition raise {W A} (e : exn) : M W A := fun st => (Raise e, st).

Definition bind {W A B} (m : M W A) (k : A -> M W B) : M W B :=
  fun st =>
    match m st with
    | (Return a, st') => k a st'
    | (Raise e, st') => (Raise e, st')
    end.

(** [try: m  except Exception as e: handler e] *)
Definition try_except {W A} (m : M W A) (handler : exn -> M W A) : M W A :=
  fun st =>
    match m st with
    | (Return a, st') => (Return a, st')
    | (Raise e, st') => handler e st'
    end.

Declare Scope eff_scope.
Delimit Scope eff_scope with eff.
Notation "x <- m ;; k" := (bind m (fun x => k))
  (at level 100, m at next level, right associativity) : eff_scope.
Notation "m ;;; k" := (bind m (fun _ => k))
  (at level 100, right associativity) : eff_scope.

(** An external call: run it on the world and append its event. *)
Definition external {W A} (f : W -> result A * W) (ev : event) : M W A :=
  fun st =>
    let (w, trace) := st in
    let (r, w') := f w in
    (r, (w', trace ++ [ev])).

(** [time.sleep] *)
Definition sleep {W} (milliseconds : nat) : M W unit :=
  fun st => let (w, trace) := st in (Return tt, (w, trace ++ [EvSleep milliseconds])).

(** [s.split(sep)] for a non-empty [sep]. *)
Definition cons_hd (c : N) (l : list str) : list str :=
  match l with
  | [] => [[c]]
  | p :: ps => (c :: p) :: ps
  end.

Fixpoint split_from (sep : str) (skip : nat) (s : str) : list str :=
  match s with
  | [] => [[]]
  | c :: s' =>
      match skip with
      | S k => split_from sep k s'
      | O =>
          if startswith sep s
          then [] :: split_from sep (length sep - 1) s'
          else cons_hd c (split_from sep 0 s')
      end
  end.

Definition str_split (sep s : str) : list str := split_from sep 0 s.

(** [SUPPORTED_LANGUAGES], in the order of the literal. *)
Definition SUPPORTED_LANGUAGES : list (str * str) :=
  map (fun p : string * string => (u (fst p), u (snd p)))
    [ ("finnish", "fi"); ("french", "fr"); ("spanish", "es");
      ("german", "de"); ("italian", "it"); ("portuguese", "pt");
      ("russian", "ru"); ("chinese", "zh"); ("japanese", "ja");
      ("korean", "ko"); ("dutch", "nl"); ("swedish", "sv");
      ("norwegian", "no"); ("danish", "da"); ("polish", "pl") ]%string.

(** ** The interpreter's character database

    [\d] of [re] is the Unicode category Nd, a table of the interpreter;
    it is taken as a parameter together with the two facts used about it. *)
Class UnicodeDB := {
  isdecimal : N -> bool;
  isdecimal_ascii : forall c : N, Re.is_digit c = true -> isdecimal c = true;
  isdecimal_zwnj : isdecimal 8204%N = false
}.

(** The table restricted to the ASCII digits, for concrete evaluation. *)
Definition ascii_db : UnicodeDB :=
  {| isdecimal := Re.is_digit;
     isdecimal_ascii := fun _ H => H;
     isdecimal_zwnj := eq_refl |}.
#[export] Existing Instance ascii_db.

(** ** Dictionaries that are iterated: insertion-ordered association lists *)

Abbreviation dict := (list (str * str)).

(** [d[k] = v]: a present key keeps its place, a new key goes last. *)
Fixpoint dict_set (d : dict) (k v : str) : dict :=
  match d with
  | [] => [(k, v)]
  | (k', v') :: d' =>
      if str_eqb k k' then (k', v) :: d' else (k', v') :: dict_set d' k v
  end.

(** ** src/webapp/pdf_translator.py: the entity protector *)
Module Webapp.

Definition ZWSP : N := 8203%N.   (* <U+200B> *)
Definition ZWNJ : N := 8204%N.   (* <U+200C> *)
Definition ZWJ : N := 8205%N.    (* <U+200D> *)

(** [self.preserve_patterns], compiled with [re.IGNORECASE]. *)
Definition preserve_patterns : list Re.re :=
  let L := Re.Cls Re.is_letter in
  let AN := fun c => Re.is_letter c || Re.is_digit c in
  [ (* \b[A-Z][a-z]{2,} [A-Z][a-z]{2,}\b *)
    Re.cat [Re.Bnd; L; Re.Rep 2 L; Re.Chr 32; L; Re.Rep 2 L; Re.Bnd];
    (* \b[A-Za-z0-9._%+-]+@[A-Za-z0-9.-]+\.[A-Z|a-z]{2,}\b *)
    Re.cat [Re.Bnd; Re.Rep 1 (Re.Cls (fun c => AN c || Re.one_of "._%+-" c));
            Re.Chr 64; Re.Rep 1 (Re.Cls (fun c => AN c || Re.one_of ".-" c));
            Re.Chr 46;
            Re.Rep 2 (Re.Cls (fun c => Re.is_letter c || (c =? 124)%N));
            Re.Bnd];
    (* \b[A-Z][a-z]+(?:\s[A-Z][a-z]+)*\s(?:Inc|Ltd|LLC|Corp|Company|University|College)\b *)
    Re.cat [Re.Bnd; L; Re.Rep 1 L;
            Re.Rep 0 (Re.cat [Re.Cls isspace; L; Re.Rep 1 L]);
            Re.Cls isspace;
            Re.alt (map Re.lit_i ["Inc"; "Ltd"; "LLC"; "Corp"; "Company";
                                  "University"; "College"]%string);
            Re.Bnd] ].

(** An element of [all_matches]: the dictionary with keys 'text', 'start'
    and 'end'. *)
Record found : Type := { m_text : str; m_start : nat; m_end : nat }.

(** [match.start() < existing['end'] and match.end() > existing['start']] *)
Definition overlaps (st en : nat) (existing : found) : bool :=
  (st <? m_end existing) && (m_start existing <? en).

(** The body of the loop over the matches of one pattern. *)
Definition keep_match (text : str) (all_matches : list found)
    (m : nat * nat) : list found :=
  let (st, en) := m in
  if existsb (overlaps st en) all_matches then all_matches
  else all_matches ++
       [{| m_text := str_slice text st en; m_start := st; m_end := en |}].

(** The collection loop; [finds] holds, per pattern, [re.finditer]'s spans. *)
Definition collect_matches (text : str) (finds : list (list (nat * nat)))
  : list found :=
  fold_left (fun all ms => fold_left (keep_match text) ms all) finds [].

(** [all_matches.sort(key=lambda x: x['start'], reverse=True)]: a stable
    sort, equal keys keeping their order. *)
Fixpoint insert_desc (m : found) (l : list found) : list found :=
  match l with
  | [] => [m]
  | y :: l' =>
      if m_start m <? m_start y then y :: insert_desc m l' else m :: l
  end.

Definition sort_desc (l : list found) : list found :=
  fold_right insert_desc [] l.

(** [f"<U+200B>{placeholder_counter}<U+200C>{original_text}<U+200D>"] *)
Definition placeholder (counter : nat) (original_text : str) : str :=
  ZWSP :: str_of_nat counter ++ ZWNJ :: original_text ++ [ZWJ].

(** The body of the replacement loop, on
    [(protected_text, preservation_map, placeholder_counter)]. *)
Definition protect_step (st : str * dict * nat) (m : found)
  : str * dict * nat :=
  let '(protected_text, preservation_map, placeholder_counter) := st in
  let ph := placeholder placeholder_counter (m_text m) in
  (firstn (m_start m) protected_text ++ ph ++ skipn (m_end m) protected_text,
   dict_set preservation_map ph (m_text m),
   S placeholder_counter).

(** The spans that get protected, in the order they are replaced. *)
Definition protected_spans (text : str) (finds : list (list (nat * nat)))
  : list found :=
  sort_desc (collect_matches text finds).

Definition preserve_proper_nouns_on (finds : list (list (nat * nat)))
    (text : str) : str * dict :=
  let '(protected_text, preservation_map, _) :=
    fold_left protect_step (protected_spans text finds) (text, [], 0) in
  (protected_text, preservation_map).

(** [preserve_proper_nouns] with the spans computed by the matcher. *)
Definition preserve_proper_nouns (text : str) : str * dict :=
  preserve_proper_nouns_on
    (map (fun p => Re.finditer p text) preserve_patterns) text.

(** The first loop of [restore_proper_nouns], on
    [(restored_text, restored_count)]. *)
Definition restore_exact (st : str * nat) (e : str * str) : str * nat :=
  let (restored_text, restored_count) := st in
  let (ph, original_text) := e in
  if str_in ph restored_text
  then (str_replace ph original_text restored_text, S restored_count)
  else st.

Section Restoring.
Context {db : UnicodeDB}.

(** The pattern of the recovery pass, [r'<U+200B>(\d+)<U+200C>(.+?)<U+200D>'],
    for the matcher; [search_placeholder] below is the same search written
    as a scan that also yields the two groups. *)
Definition not_newline (c : N) : bool := negb (c =? NEWLINE)%N.

Definition placeholder_pattern : Re.re :=
  Re.cat [Re.Chr ZWSP; Re.Rep 1 (Re.Cls isdecimal); Re.Chr ZWNJ;
          Re.Lazy1 (Re.Cls not_newline); Re.Chr ZWJ].

Fixpoint span_while (p : N -> bool) (s : str) : str * str :=
  match s with
  | [] => ([], [])
  | c :: s' =>
      if p c then let (a, b) := span_while p s' in (c :: a, b) else ([], s)
  end.

(** [(.+?)<U+200D>] after the first code point of the group: the shortest
    continuation without a line feed that reaches a U+200D. *)
Fixpoint lazy_until_zwj (s : str) : option str :=
  match s with
  | [] => None
  | c :: s' =>
      if (c =? ZWJ)%N then Some []
      else if (c =? NEWLINE)%N then None
      else option_map (cons c) (lazy_until_zwj s')
  end.

Definition text_group (s : str) : option str :=
  match s with
  | [] => None
  | c :: s' =>
      if (c =? NEWLINE)%N then None
      else option_map (cons c) (lazy_until_zwj s')
  end.

(** [<U+200B>(\d+)<U+200C>(.+?)<U+200D>] matched at the head of [s]; the digits
    are followed by a code point that is no digit, so the greedy run is the
    only split that can succeed. *)
Definition match_placeholder (s : str) : option (str * str) :=
  match s with
  | c :: r =>
      if (c =? ZWSP)%N then
        match span_while isdecimal r with
        | ((_ :: _) as number, c1 :: r2) =>
            if (c1 =? ZWNJ)%N
            then option_map (fun t => (number, t)) (text_group r2)
            else None
        | _ => None
        end
      else None
  | [] => None
  end.

(** [re.search(r'<U+200B>(\d+)<U+200C>(.+?)<U+200D>', s)] as
    [(match.group(1), match.group(2))]: the leftmost match. *)
Fixpoint search_placeholder (s : str) : option (str * str) :=
  match match_placeholder s with
  | Some r => Some r
  | None =>
      match s with
      | [] => None
      | _ :: s' => search_placeholder s'
      end
  end.

Definition patterns_to_try (number expected_text : str) : list str :=
  [ number ++ expected_text;
    number ++ SPACE :: expected_text;
    expected_text ].

(** The loop over [patterns_to_try], left at the first replacement. *)
Fixpoint try_patterns (patterns : list str) (original_text restored_text : str)
  : option str :=
  match patterns with
  | [] => None
  | pattern :: rest =>
      if str_in pattern restored_text && negb (str_eqb pattern original_text)
      then Some (str_replace pattern original_text restored_text)
      else try_patterns rest original_text restored_text
  end.

(** The second loop of [restore_proper_nouns]. *)
Definition restore_partial (st : str * nat) (e : str * str) : str * nat :=
  let (restored_text, restored_count) := st in
  let (ph, original_text) := e in
  match search_placeholder ph with
  | Some (number, expected_text) =>
      match try_patterns (patterns_to_try number expected_text)
                         original_text restored_text with
      | Some t => (t, S restored_count)
      | None => st
      end
  | None => st
  end.

Definition restore_run (translated_text : str) (preservation_map : dict)
  : str * nat :=
  fold_left restore_partial preservation_map
    (fold_left restore_exact preservation_map (translated_text, 0)).

Definition restore_proper_nouns (translated_text : str)
    (preservation_map : dict) : str :=
  fst (restore_run translated_text preservation_map).

End Restoring.

(** [translate_text_chunks] of the web application: fixed-size slices. *)
Section Pipeline.
Context {W : Type} (env : Env W).
Variable chunk_size : nat.           (* self.chunk_size, 3000 by default *)
Local Open Scope eff_scope.

(** [[text[i:i + n] for i in range(0, len(text), n)]]; [fuel] bounds the
    number of slices and [length text] is always enough. *)
Fixpoint slices (fuel : nat) (n : nat) (text : str) : list str :=
  match fuel with
  | O => []
  | S f =>
      match text with
      | [] => []
      | _ :: _ => firstn n text :: slices f n (skipn n text)
      end
  end.

Definition chunks_of (text : str) : list str :=
  slices (length text) chunk_size text.

(** The body of the loop over the chunks.  [translated.text] on a missing
    object raises inside the [try]; a [None] text is appended as it is. *)
Definition translate_chunk (src dest : str) (i : nat) (chunk : str)
  : M W (option str) :=
  try_except
    ((if 0 <? i then sleep 200 else ret tt) ;;;
     translated <- external (fun w => api_translate env w chunk src dest)
                            (EvTranslate chunk src dest) ;;
     match translated with
     | NoObject => raise AttributeError
     | Translated text => ret text
     end)
    (fun _ => ret (Some chunk)).

Fixpoint translate_loop (src dest : str) (i : nat) (chunks : list str)
  : M W (list (option str)) :=
  match chunks with
  | [] => ret []
  | chunk :: rest =>
      t <- translate_chunk src dest i chunk ;;
      ts <- translate_loop src dest (S i) rest ;;
      ret (t :: ts)
  end.

(** [' '.join(translated_chunks)], which raises on an element [None]. *)
Fixpoint all_text (l : list (option str)) : option (list str) :=
  match l with
  | [] => Some []
  | Some t :: l' => option_map (cons t) (all_text l')
  | None :: _ => None
  end.

Definition join_chunks (l : list (option str)) : M W str :=
  match all_text l with
  | Some ts => ret (str_join [SPACE] ts)
  | None => raise TypeError
  end.

Definition translate_text_chunks (text src dest : str) : M W str :=
  match strip text with
  | [] => ret text
  | _ :: _ =>
      if chunk_size =? 0
      then raise (ValueError (u "range() arg 3 must not be zero"))
      else
        translated_chunks <- translate_loop src dest 0 (chunks_of text) ;;
        join_chunks translated_chunks
  end.

End Pipeline.

End Webapp.

(** ** src/pdf_translator.py *)
Module Core.

(** [self.name_patterns] (no flags). *)
Definition name_patterns : list Re.re :=
  let U := Re.Cls Re.is_upper in
  let Ls := Re.Rep 1 (Re.Cls Re.is_lower) in
  let sp := Re.Chr 32 in
  let dot := Re.Chr 46 in
  let titled := fun t : string =>
    Re.cat [Re.Bnd; Re.lit t; dot; sp; U; Ls; sp; U; Ls; Re.Bnd] in
  [ Re.cat [Re.Bnd; U; Ls; sp; U; Ls; Re.Bnd];                 (* First Last *)
    Re.cat [Re.Bnd; U; Ls; sp; U; dot; sp; U; Ls; Re.Bnd];     (* First M. Last *)
    Re.cat [Re.Bnd; U; dot; sp; U; Ls; Re.Bnd];                (* M. Last *)
    titled "Dr"%string; titled "Mr"%string; titled "Mrs"%string;
    titled "Ms"%string ].

(** An element of [all_matches]: [(match.start(), match.end(), match.group())]. *)
Abbreviation found := (nat * nat * str)%type.

(** The two nested loops that fill [all_matches]: nothing is filtered. *)
Definition collect_matches (text : str) (finds : list (list (nat * nat)))
  : list found :=
  flat_map (map (fun m : nat * nat =>
                   (fst m, snd m, str_slice text (fst m) (snd m)))) finds.

(** [all_matches.sort(key=lambda x: x[0], reverse=True)], stable. *)
Fixpoint insert_desc (m : found) (l : list found) : list found :=
  match l with
  | [] => [m]
  | y :: l' =>
      if fst (fst m) <? fst (fst y) then y :: insert_desc m l' else m :: l
  end.

Definition sort_desc (l : list found) : list found :=
  fold_right insert_desc [] l.

(** [f"__NAME_{entity_counter}__"] *)
Definition placeholder (entity_counter : nat) : str :=
  u "__NAME_" ++ str_of_nat entity_counter ++ u "__".

Definition protect_step (st : str * dict * nat) (m : found)
  : str * dict * nat :=
  let '(modified_text, entities, entity_counter) := st in
  let '(start, end_, name) := m in
  let ph := placeholder entity_counter in
  (firstn start modified_text ++ ph ++ skipn end_ modified_text,
   dict_set entities ph name,
   S entity_counter).

Definition preserve_names_and_entities_on (finds : list (list (nat * nat)))
    (text : str) : str * dict :=
  let '(modified_text, entities, _) :=
    fold_left protect_step (sort_desc (collect_matches text finds))
              (text, [], 0) in
  (modified_text, entities).

Definition restore_names_and_entities (translated_text : str)
    (entities : dict) : str :=
  fold_left (fun restored_text e => str_replace (fst e) (snd e) restored_text)
            entities translated_text.

(** *** The chunker *)

Definition is_terminator (c : N) : bool :=
  (c =? 46)%N || (c =? 33)%N || (c =? 63)%N.      (* . ! ? *)

Definition starts_space (s : str) : bool :=
  match s with
  | c :: _ => isspace c
  | [] => false
  end.

(** The pattern [r'(?<=[.!?])\s+'] for the matcher. *)
Definition sentence_boundary : Re.re :=
  Re.Cat (Re.Behind is_terminator) (Re.Rep 1 (Re.Cls isspace)).

(** [re.split(r'(?<=[.!?])\s+', s)], written as a scan.  A separator is a
    maximal run of white space that directly follows a terminator;
    [in_sep] says that the scan is inside one. *)
Fixpoint pieces (in_sep : bool) (s : str) : list str :=
  match s with
  | [] => [[]]
  | c :: s' =>
      if in_sep && isspace c then pieces true s'
      else if is_terminator c && starts_space s' then [c] :: pieces true s'
      else cons_hd c (pieces false s')
  end.

Definition split_sentences (text : str) : list str := pieces false text.

Definition nonempty (s : str) : bool :=
  match s with [] => false | _ :: _ => true end.

(** The body of the loop over [sentences], on [(chunks, current_chunk)]. *)
Definition chunk_step (chunk_size : nat) (st : list str * str)
    (sentence : str) : list str * str :=
  let (chunks, current_chunk) := st in
  if chunk_size <? length (current_chunk ++ sentence) then
    ((if nonempty current_chunk then chunks ++ [strip current_chunk]
      else chunks),
     sentence)
  else
    (chunks,
     current_chunk ++ (if nonempty current_chunk then [SPACE] else [])
                   ++ sentence).

Definition make_chunks (chunk_size : nat) (sentences : list str) : list str :=
  let (chunks, current_chunk) :=
    fold_left (chunk_step chunk_size) sentences ([], []) in
  if nonempty current_chunk then chunks ++ [strip current_chunk] else chunks.

(** Step 2 of [translate_text_chunks]. *)
Definition chunk (chunk_size : nat) (protected_text : str) : list str :=
  make_chunks chunk_size (split_sentences protected_text).

(** *** The pipeline *)

(** What [detect_language] returns (the confidence, a float, is left out). *)
Record detection : Type := { language : str; language_name : str }.

Section Pipeline.
Context {W : Type} (env : Env W).
Variable output_dir : str.           (* self.output_dir *)
Variable chunk_size : nat.           (* self.chunk_size, 3000 by default *)
Local Open Scope eff_scope.

Definition preserve_names_and_entities (text : str) : str * dict :=
  preserve_names_and_entities_on (name_spans env text) text.

(** [extract_text_from_pdf]: the reader's failure is logged and raised again. *)
Definition extract_text_from_pdf (pdf_path : str) : M W str :=
  pages <- external (fun w => read_pages env w pdf_path) (EvRead pdf_path) ;;
  ret (strip (flat_map (fun page => page ++ [NEWLINE; NEWLINE]) pages)).

Definition detect_language (text : str) : M W detection :=
  try_except
    (let sample := if 1000 <? length text then firstn 1000 text else text in
     lang <- external (fun w => api_detect env w sample) (EvDetect sample) ;;
     let names := map fst (filter (fun kv => str_eqb (snd kv) lang)
                                  SUPPORTED_LANGUAGES) in
     ret {| language := lang;
            language_name := match names with n :: _ => n | [] => lang end |})
    (fun _ => ret {| language := u "unknown"; language_name := u "unknown" |}).

(** [translated and translated.text] *)
Definition payload (t : translated) : option str :=
  match t with
  | Translated (Some ((_ :: _) as text)) => Some text
  | _ => None
  end.

(** One pass of [for attempt in range(2)]: [Some] is the [break]. *)
Definition attempt_once (chunk src dest : str) (attempt : nat)
  : M W (option str) :=
  try_except
    (translated <- external (fun w => api_translate env w chunk src dest)
                            (EvTranslate chunk src dest) ;;
     ret (payload translated))
    (fun _ => (if attempt =? 0 then sleep 500 else ret tt) ;;; ret None).

Fixpoint attempts (chunk src dest : str) (range : list nat)
  : M W (option str) :=
  match range with
  | [] => ret None
  | attempt :: rest =>
      r <- attempt_once chunk src dest attempt ;;
      match r with
      | Some text => ret (Some text)
      | None => attempts chunk src dest rest
      end
  end.

(** The body of the loop over [enumerate(chunks)]: what gets appended to
    [translated_chunks]. *)
Definition translate_chunk (src dest : str) (i : nat) (chunk : str)
  : M W str :=
  try_except
    ((if 0 <? i then sleep 200 else ret tt) ;;;
     best_translation <- attempts chunk src dest (seq 0 2) ;;
     ret (match best_translation with
          | Some text => text
          | None => chunk
          end))
    (fun _ => ret chunk).

Fixpoint translate_loop (src dest : str) (i : nat) (chunks : list str)
  : M W (list str) :=
  match chunks with
  | [] => ret []
  | chunk :: rest =>
      t <- translate_chunk src dest i chunk ;;
      ts <- translate_loop src dest (S i) rest ;;
      ret (t :: ts)
  end.

Definition translate_text_chunks (text src dest : str) : M W str :=
  match strip text with
  | [] => ret text
  | _ :: _ =>
      let (protected_text, entities) := preserve_names_and_entities text in
      let chunks := chunk chunk_size protected_text in
      translated_chunks <- translate_loop src dest 0 chunks ;;
      let combined_translation := str_join [SPACE] translated_chunks in
      ret (restore_names_and_entities combined_translation entities)
  end.

(** [create_pdf_from_text]: the writer's failure is logged and raised again. *)
Definition create_pdf_from_text (text output_path title : str) : M W unit :=
  let paragraphs :=
    map (fun para => str_replace [NEWLINE] [SPACE] (strip para))
        (filter (fun para => nonempty (strip para))
                (str_split [NEWLINE; NEWLINE] text)) in
  external (fun w => doc_build env w output_path title paragraphs)
           (EvBuild output_path title paragraphs).

Definition path_exists_m (p : str) : M W bool :=
  fun st => (Return (path_exists env (fst st) p), st).

Definition translate_single_pdf (input_path : str)
    (output_filename : option str) (source_lang : str) : M W str :=
  present <- path_exists_m input_path ;;
  if negb present
  then raise (FileNotFoundError (u "Input file not found: " ++ input_path))
  else
    text <- extract_text_from_pdf input_path ;;
    match strip text with
    | [] => raise (ValueError (u "No text found in PDF"))
    | _ :: _ =>
        source_lang <-
          (if str_eqb source_lang (u "auto")
           then detection <- detect_language text ;; ret (language detection)
           else ret source_lang) ;;
        translated_text <- translate_text_chunks text source_lang (u "en") ;;
        let output_filename :=
          match output_filename with
          | Some ((_ :: _) as name) => name
          | _ => path_stem env input_path ++ u "_translated_en.pdf"
          end in
        let output_path := path_join env output_dir output_filename in
        let title := u "Translated: " ++ path_name env input_path in
        create_pdf_from_text translated_text output_path title ;;;
        ret output_path
    end.

(** The loop of [batch_translate_pdfs], on [(translated_files, failed_files)]. *)
Fixpoint batch_loop (source_lang : str) (pdf_files : list str)
    (acc : list str * list str) : M W (list str * list str) :=
  match pdf_files with
  | [] => ret acc
  | pdf_file :: rest =>
      acc' <- try_except
                (output_path <- translate_single_pdf pdf_file None source_lang ;;
                 ret (fst acc ++ [output_path], snd acc))
                (fun _ => ret (fst acc, snd acc ++ [pdf_file])) ;;
      batch_loop source_lang rest acc'
  end.

Definition batch_translate_pdfs (input_directory pattern source_lang : str)
  : M W (list str) :=
  present <- path_exists_m input_directory ;;
  if negb present
  then raise (FileNotFoundError
                (u "Input directory not found: " ++ input_directory))
  else
    pdf_files <- (fun st => (Return (path_glob env (fst st) input_directory
                                               pattern), st)) ;;
    match pdf_files with
    | [] => ret []
    | _ :: _ =>
        r <- batch_loop source_lang pdf_files ([], []) ;;
        ret (fst r)
    end.

End Pipeline.

End Core.

(** ** Vocabulary for the properties of the protector *)
Module ProtectSpec.
Import Webapp.

(** A span as [re.finditer] reports it for a non-empty match of [text]. *)
Definition span_ok (text : str) (sp : nat * nat) : Prop :=
  fst sp < snd sp /\ snd sp <= length text.

Definition finds_ok (text : str) (finds : list (list (nat * nat))) : Prop :=
  Forall (Forall (span_ok text)) finds.

Definition found_ok (text : str) (m : found) : Prop :=
  m_start m < m_end m /\ m_end m <= length text /\
  m_text m = str_slice text (m_start m) (m_end m).

(** No position of the text lies in both spans. *)
Definition disjoint (a b : found) : Prop :=
  m_end a <= m_start b \/ m_end b <= m_start a.

Fixpoint pairwise_disjoint (l : list found) : Prop :=
  match l with
  | [] => True
  | x :: l' => Forall (disjoint x) l' /\ pairwise_disjoint l'
  end.

(** What the collection loop keeps to. *)
Definition kept_inv (text : str) (all : list found) : Prop :=
  Forall (found_ok text) all /\ pairwise_disjoint all.

(** Some kept span shares a position with the candidate [sp]. *)
Definition covered (all : list found) (sp : nat * nat) : Prop :=
  exists k, In k all /\ overlaps (fst sp) (snd sp) k = true.

(** Spans from right to left, each ending where the previous one starts or
    before, the first ending at [bound] or before. *)
Fixpoint chain (text : str) (bound : nat) (l : list found) : Prop :=
  match l with
  | [] => True
  | m :: l' =>
      found_ok text m /\ m_end m <= bound /\ chain text (m_start m) l'
  end.

(** The text up to [bound] with the spans of [l] replaced by the
    placeholders numbered from [c]. *)
Fixpoint left_part (text : str) (c : nat) (l : list found) (bound : nat)
  : str :=
  match l with
  | [] => firstn bound text
  | m :: l' =>
      left_part text (S c) l' (m_start m)
        ++ placeholder c (m_text m) ++ str_slice text (m_end m) bound
  end.

(** The preservation map of the spans of [l], numbered from [c]. *)
Fixpoint entries (c : nat) (l : list found) : dict :=
  match l with
  | [] => []
  | m :: l' => (placeholder c (m_text m), m_text m) :: entries (S c) l'
  end.

(** Every key of [d] is a placeholder with a counter below [c]. *)
Definition keys_below (c : nat) (d : dict) : Prop :=
  Forall (fun e => exists c' t', c' < c /\ fst e = placeholder c' t') d.

(** The text holds no span's text right after its counter, be it directly
    or after one space. *)
Fixpoint counters_clear (text : str) (c : nat) (l : list found) : Prop :=
  match l with
  | [] => True
  | m :: l' =>
      str_in (str_of_nat c ++ m_text m) text = false /\
      str_in (str_of_nat c ++ SPACE :: m_text m) text = false /\
      counters_clear text (S c) l'
  end.

(** The text of a match of the recovery pattern with the groups [nt]. *)
Definition rebuild (nt : str * str) : str :=
  ZWSP :: fst nt ++ ZWNJ :: snd nt ++ [ZWJ].

(** A non-empty text without a line feed: what [(.+?)] can match whole. *)
Definition one_line (t : str) : bool :=
  match t with
  | [] => false
  | _ :: _ => forallb (fun x => negb (x =? NEWLINE)%N) t
  end.

(** The first of the two counter-prefixed candidates found in [cur]. *)
Definition first_candidate (c : nat) (t cur : str) : option str :=
  if str_in (str_of_nat c ++ t) cur then Some (str_of_nat c ++ t)
  else if str_in (str_of_nat c ++ SPACE :: t) cur
       then Some (str_of_nat c ++ SPACE :: t)
       else None.

End ProtectSpec.

(** ** Vocabulary for the properties of the chunker *)
Module ChunkSpec.

Definition starts_word (s : str) : bool :=
  match s with
  | c :: _ => negb (isspace c)
  | [] => false
  end.

(** [s.split()]: the maximal runs of code points that are not white space. *)
Fixpoint words (s : str) : list str :=
  match s with
  | [] => []
  | c :: s' =>
      if isspace c then words s'
      else if starts_word s' then
             match words s' with
             | w :: ws => (c :: w) :: ws
             | [] => [[c]]
             end
           else [c] :: words s'
  end.

(** White-space normalisation.  The specification names it and the sources
    hold no function for it; it is taken to be [' '.join(s.split())]: every
    run of white space becomes one space, none is left at the ends. *)
Definition normalize_ws (s : str) : str := str_join [SPACE] (words s).

(** A chunk that is one sentence of the text, up to the white space
    [strip] removes. *)
Definition single_sentence (sentences : list str) (chunk : str) : Prop :=
  exists s, In s sentences /\ chunk = strip s.

(** What the chunking loop keeps to, for a chunk and for the buffer. *)
Definition chunk_ok (n : nat) (sentences : list str) (c : str) : Prop :=
  length c <= n + 1 \/ single_sentence sentences c.

Definition current_ok (n : nat) (sentences : list str) (c : str) : Prop :=
  length c <= n + 1 \/ In c sentences.

End ChunkSpec.

(** ** Vocabulary for the properties of the pipeline *)
Module PipelineSpec.

(** The chunks submitted to the translation service, in order. *)
Fixpoint translate_calls (trace : list event) : list str :=
  match trace with
  | [] => []
  | EvTranslate chunk _ _ :: rest => chunk :: translate_calls rest
  | _ :: rest => translate_calls rest
  end.

(** What one call of the service yields for the loop: a non-empty text, or
    nothing (it raised, or returned no text, or an empty one). *)
Definition reply_payload (r : result translated) : option str :=
  match r with
  | Return t => Core.payload t
  | Raise _ => None
  end.

(** The service fails for [chunk], whatever state it is in. *)
Definition always_fails {W} (env : Env W) (src dest chunk : str) : Prop :=
  forall w, reply_payload (fst (api_translate env w chunk src dest)) = None.

(** One or two calls, all for [chunk]. *)
Definition one_or_two (chunk : str) (calls : list str) : Prop :=
  calls = [chunk] \/ calls = [chunk; chunk].

(** What the loop puts at the place of [chunk]: a non-empty text the service
    returned for it, or the chunk itself. *)
Definition slot_ok {W} (env : Env W) (src dest chunk r : str) : Prop :=
  (r = chunk \/
   (r <> [] /\
    exists w, fst (api_translate env w chunk src dest)
              = Return (Translated (Some r)))) /\
  (always_fails env src dest chunk -> r = chunk).

(** Following the specification's wording: the list of per-file results or
    errors, each file run through the single-document pipeline in order. *)
Fixpoint per_file {W} (env : Env W) (output_dir : str) (chunk_size : nat)
    (source_lang : str) (pdf_files : list str) (st : W * list event)
  : list (str * result str) * (W * list event) :=
  match pdf_files with
  | [] => ([], st)
  | pdf_file :: rest =>
      let (r, st') :=
        Core.translate_single_pdf env output_dir chunk_size pdf_file None
                                  source_lang st in
      let (rs, st'') := per_file env output_dir chunk_size source_lang rest st' in
      ((pdf_file, r) :: rs, st'')
  end.

Fixpoint successes (l : list (str * result str)) : list str :=
  match l with
  | [] => []
  | (_, Return output_path) :: l' => output_path :: successes l'
  | (_, Raise _) :: l' => successes l'
  end.

Fixpoint failures (l : list (str * result str)) : list str :=
  match l with
  | [] => []
  | (_, Return _) :: l' => failures l'
  | (pdf_file, Raise _) :: l' => pdf_file :: failures l'
  end.

End PipelineSpec.

(** ** Concrete inputs *)
Module Samples.

Definition webapp_finds (text : str) : list (list (nat * nat)) :=
  map (fun p => Re.finditer p text) Webapp.preserve_patterns.

Definition core_finds (text : str) : list (list (nat * nat)) :=
  map (fun p => Re.finditer p text) Core.name_patterns.

Definition mail : str :=
  u "Mail bob.k@ex.org or Acme Rocket Corp, John Smith".

Definition downing : str := u "10 Downing Street".

(** A translation that hands the text back with the three zero-width
    separators removed and everything else in place. *)
Definition strip_separators (s : str) : str :=
  filter (fun c => negb ((c =? Webapp.ZWSP) || (c =? Webapp.ZWNJ)
                         || (c =? Webapp.ZWJ))%N) s.

(** Eleven names: the first and the last are the same, the others differ. *)
Definition eleven : str :=
  u "Tom Fox, Ann Lee, Ann Lee, Ann Lee, Ann Lee, Ann Lee, Ann Lee, Ann Lee, Ann Lee, Ann Lee, Tom Fox".

(** An organisation name broken over two lines. *)
Definition acme : str := u "Acme" ++ [NEWLINE] ++ u "Inc".

(** A titled name followed by more text. *)
Definition smithson : str := u "Dr. Johnathan Smithson lives".

(** Two sentences with the break between two pages in between. *)
Definition two_pages : str := u "A." ++ [NEWLINE; NEWLINE] ++ u "B.".

(** Two sentences of 1500 code points each, one space in between. *)
Definition long_pair : str :=
  repeat 97%N 1499 ++ u ". " ++ repeat 98%N 1499 ++ u ".".

(** A desk with three files in one directory.  [pages] is what the reader
    finds in a file, [reply] what the service answers for a chunk. *)
Definition desk (pages : str -> result (list str))
    (reply : str -> result translated) : Env unit :=
  {| path_exists := fun _ _ => true;
     path_glob := fun _ _ _ => [u "in/a.pdf"; u "in/b.pdf"; u "in/c.pdf"];
     path_stem := fun p => firstn (length p - 7) (skipn 3 p);
     path_name := fun p => skipn 3 p;
     path_join := fun d f => d ++ u "/" ++ f;
     read_pages := fun _ p => (pages p, tt);
     api_detect := fun _ _ => (Return (u "fr"), tt);
     api_translate := fun _ chunk _ _ => (reply chunk, tt);
     doc_build := fun _ _ _ _ => (Return tt, tt);
     name_spans := core_finds |}.

Definition one_page (p : str) : result (list str) :=
  Return [u "Bonjour. Merci."].

(** The second file cannot be read. *)
Definition second_unreadable (p : str) : result (list str) :=
  if str_eqb p (u "in/b.pdf") then Raise (LibraryError 1)
  else Return [u "Bonjour. Merci."].

Definition blank_pages (p : str) : result (list str) :=
  Return [u "  "; []].

Definition english (chunk : str) : result translated :=
  Return (Translated (Some (u "Hello. Thanks."))).

Definition service_down (chunk : str) : result translated :=
  Raise (LibraryError 2).

Definition start : unit * list event := (tt, []).

End Samples.

(** ** The language table: objects and references

    [SUPPORTED_LANGUAGES] is one dictionary object held by the class; a
    front end may keep and change any dictionary it was handed.  Objects
    live in a store, indexed by address; both modules define the accessor
    alike. *)
Module Languages.

(** The items of the table. *)
Definition table : gmap str str := list_to_map SUPPORTED_LANGUAGES.

(** The address the class attribute holds. *)
Definition table_ref : nat := 0.

Definition initial : gmap nat (gmap str str) := {[ table_ref := table ]}.

(** [d.copy()]: a new object with the items of the object at [l]. *)
Definition dict_copy (l : nat) (h : gmap nat (gmap str str))
  : option (nat * gmap nat (gmap str str)) :=
  match h !! l with
  | Some d => let l' := fresh (dom h) in Some (l', <[l' := d]> h)
  | None => None
  end.

(** [return self.SUPPORTED_LANGUAGES.copy()] *)
Definition get_supported_languages (h : gmap nat (gmap str str))
  : option (nat * gmap nat (gmap str str)) :=
  dict_copy table_ref h.

(** What a holder of a dictionary can do to it. *)
Inductive mutation : Type :=
| SetItem (k v : str)                  (* d[k] = v *)
| DelItem (k : str)                    (* d.pop(k, None) *)
| Update (items : list (str * str))    (* d.update(items) *)
| Clear.                               (* d.clear() *)

Definition mutate (mu : mutation) (d : gmap str str) : gmap str str :=
  match mu with
  | SetItem k v => <[k := v]> d
  | DelItem k => delete k d
  | Update items => foldl (fun acc kv => <[fst kv := snd kv]> acc) d items
  | Clear => ∅
  end.

Definition apply_mutation (l : nat) (mu : mutation)
    (h : gmap nat (gmap str str)) : gmap nat (gmap str str) :=
  match h !! l with
  | Some d => <[l := mutate mu d]> h
  | None => h
  end.

(** A front end: it calls the accessor, and it mutates the dictionary that
    the [i]-th call returned. *)
Inductive action : Type :=
| Call
| Mutate (i : nat) (mu : mutation).

Record client : Type := {
  store : gmap nat (gmap str str);
  held : list nat;                 (* the references returned so far *)
  seen : list (gmap str str)       (* what each call returned, as returned *)
}.

Definition step (c : client) (a : action) : client :=
  match a with
  | Call =>
      match get_supported_languages (store c) with
      | Some (l, h') =>
          {| store := h'; held := held c ++ [l];
             seen := seen c ++ [default ∅ (h' !! l)] |}
      | None => c
      end
  | Mutate i mu =>
      match held c !! i with
      | Some l => {| store := apply_mutation l mu (store c);
                     held := held c; seen := seen c |}
      | None => c
      end
  end.

Definition run (prog : list action) (c : client) : client :=
  foldl step c prog.

Fixpoint count_calls (prog : list action) : nat :=
  match prog with
  | [] => 0
  | Call :: rest => S (count_calls rest)
  | Mutate _ _ :: rest => count_calls rest
  end.

(** What every step of a front end keeps to. *)
Definition table_intact (c : client) : Prop :=
  store c !! table_ref = Some table /\
  Forall (fun l => l <> table_ref) (held c) /\
  Forall (fun d => d = table) (seen c).

End Languages.

(** ** Vocabulary for the traces of the pipeline *)
Module TraceSpec.

(** The samples handed to the language detection, in order. *)
Fixpoint detect_calls (trace : list event) : list str :=
  match trace with
  | [] => []
  | EvDetect sample :: rest => sample :: detect_calls rest
  | _ :: rest => detect_calls rest
  end.

(** The files opened by the reader, in order. *)
Fixpoint reads (trace : list event) : list str :=
  match trace with
  | [] => []
  | EvRead path :: rest => path :: reads rest
  | _ :: rest => reads rest
  end.

(** The documents handed to the writer, in order. *)
Fixpoint builds (trace : list event) : list (str * str * list str) :=
  match trace with
  | [] => []
  | EvBuild path title paragraphs :: rest =>
      (path, title, paragraphs) :: builds rest
  | _ :: rest => builds rest
  end.

(** The pauses, in milliseconds, in order. *)
Fixpoint sleeps (trace : list event) : list nat :=
  match trace with
  | [] => []
  | EvSleep ms :: rest => ms :: sleeps rest
  | _ :: rest => sleeps rest
  end.

(** What the loop of [translate_text_chunks] in src/pdf_translator.py does
    for one chunk: one request, or two, or two with the pause of half a
    second in between. *)
Definition attempt_events (src dest chunk : str) (evs : list event) : Prop :=
  evs = [EvTranslate chunk src dest] \/
  evs = [EvTranslate chunk src dest; EvTranslate chunk src dest] \/
  evs = [EvTranslate chunk src dest; EvSleep 500; EvTranslate chunk src dest].

(** The pacing pause before every chunk but the first. *)
Definition pace (i : nat) : list event :=
  if 0 <? i then [EvSleep 200] else [].

(** The events of the loop over [chunks], the first of them having the
    index [i]. *)
Fixpoint loop_events (src dest : str) (i : nat) (chunks : list str)
    (evs : list event) : Prop :=
  match chunks with
  | [] => evs = []
  | chunk :: rest =>
      exists a b,
        evs = (pace i ++ a) ++ b /\
        attempt_events src dest chunk a /\
        loop_events src dest (S i) rest b
  end.

(** A text with something other than white space in it, and none at its
    ends: what [strip] leaves of such a text. *)
Definition trimmed (s : str) : Prop := s <> [] /\ strip s = s.

(** An event of a translation from [src] to [dest]: a request for a text
    that is not empty and has no white space at its ends, or a pause. *)
Definition request_ok (src dest : str) (e : event) : Prop :=
  match e with
  | EvTranslate chunk src' dest' => trimmed chunk /\ src' = src /\ dest' = dest
  | EvSleep ms => ms = 200 \/ ms = 500
  | _ => False
  end.

(** A text that is empty or has something other than white space in it. *)
Definition solid (s : str) : Prop :=
  s = [] \/ exists c, In c s /\ isspace c = false.

Definition blank (s : str) : Prop := Forall (fun c => isspace c = true) s.

(** The paragraphs [create_pdf_from_text] hands to the writer after the
    title. *)
Definition paragraphs (text : str) : list str :=
  map (fun para => str_replace [NEWLINE] [SPACE] (strip para))
      (filter (fun para => Core.nonempty (strip para))
              (str_split [NEWLINE; NEWLINE] text)).

(** The output path of [translate_single_pdf]. *)
Definition output_path_of {W : Type} (env : Env W) (output_dir input_path : str)
    (output_filename : option str) : str :=
  path_join env output_dir
    match output_filename with
    | Some ((_ :: _) as name) => name
    | _ => path_stem env input_path ++ u "_translated_en.pdf"
    end.

(** The source language [translate_single_pdf] translates from: the one
    given, or for 'auto' the code the detection answers for [sample],
    'unknown' when the detection fails. *)
Definition source_of {W : Type} (env : Env W) (w : W) (source_lang sample : str)
  : str :=
  if str_eqb source_lang (u "auto") then
    match fst (api_detect env w sample) with
    | Return lang => lang
    | Raise _ => u "unknown"
    end
  else source_lang.

(** What the loop of the web application's [translate_text_chunks] appends
    for [chunk], from the answer of the service: the [text] of the object
    handed back, be it [None]; the chunk itself when the call raised or
    handed back no object. *)
Definition web_reply (chunk : str) (r : result translated) : option str :=
  match r with
  | Return (Translated text) => text
  | Return NoObject => Some chunk
  | Raise _ => Some chunk
  end.

End TraceSpec.

(** ** Vocabulary for the name protector of src/pdf_translator.py *)
Module NameSpec.

Definition UNDERSCORE : N := 95%N.

(** A match as [all_matches] holds it, for a non-empty span of [text]. *)
Definition found_ok (text : str) (m : Core.found) : Prop :=
  fst (fst m) < snd (fst m) /\ snd (fst m) <= length text /\
  snd m = str_slice text (fst (fst m)) (snd (fst m)).

(** No position lies in both spans. *)
Definition apart (a b : nat * nat) : Prop :=
  snd a <= fst b \/ snd b <= fst a.

Fixpoint pairwise_apart (l : list (nat * nat)) : Prop :=
  match l with
  | [] => True
  | x :: l' => Forall (apart x) l' /\ pairwise_apart l'
  end.

(** Matches from right to left, each ending where the previous one starts
    or before, the first ending at [bound] or before. *)
Fixpoint chain (text : str) (bound : nat) (l : list Core.found) : Prop :=
  match l with
  | [] => True
  | m :: l' =>
      found_ok text m /\ snd (fst m) <= bound /\
      chain text (fst (fst m)) l'
  end.

(** The text up to [bound] with the matches of [l] replaced by the
    placeholders numbered from [c]. *)
Fixpoint left_part (text : str) (c : nat) (l : list Core.found) (bound : nat)
  : str :=
  match l with
  | [] => firstn bound text
  | m :: l' =>
      left_part text (S c) l' (fst (fst m))
        ++ Core.placeholder c ++ str_slice text (snd (fst m)) bound
  end.

(** The entities of the matches of [l], numbered from [c]. *)
Fixpoint entries (c : nat) (l : list Core.found) : dict :=
  match l with
  | [] => []
  | m :: l' => (Core.placeholder c, snd m) :: entries (S c) l'
  end.

(** Every key of [d] is a placeholder with a counter below [c]. *)
Definition keys_below (c : nat) (d : dict) : Prop :=
  Forall (fun e => exists c', c' < c /\ fst e = Core.placeholder c') d.

End NameSpec.

(** ** src/webapp/pdf_translator.py: the single document

    [extract_text_from_pdf], [detect_language] and [create_pdf_from_text]
    of the web application are, line by line, those of
    [src/pdf_translator.py]; [translate_single_pdf] differs in the
    [translate_text_chunks] it calls. *)
Module WebappDocument.

Section Pipeline.
Context {W : Type} (env : Env W).
Variable output_dir : str.           (* self.output_dir *)
Variable chunk_size : nat.           (* self.chunk_size, 3000 by default *)
Local Open Scope eff_scope.

Definition translate_single_pdf (input_path : str)
    (output_filename : option str) (source_lang : str) : M W str :=
  present <- Core.path_exists_m env input_path ;;
  if negb present
  then raise (FileNotFoundError (u "Input file not found: " ++ input_path))
  else
    text <- Core.extract_text_from_pdf env input_path ;;
    match strip text with
    | [] => raise (ValueError (u "No text found in PDF"))
    | _ :: _ =>
        source_lang <-
          (if str_eqb source_lang (u "auto")
           then detection <- Core.detect_language env text ;;
                ret (Core.language detection)
           else ret source_lang) ;;
        final_text <- Webapp.translate_text_chunks env chunk_size text
                        source_lang (u "en") ;;
        let output_filename :=
          match output_filename with
          | Some ((_ :: _) as name) => name
          | _ => path_stem env input_path ++ u "_translated_en.pdf"
          end in
        let output_path := path_join env output_dir output_filename in
        let title := u "Translated: " ++ path_name env input_path in
        Core.create_pdf_from_text env final_text output_path title ;;;
        ret output_path
    end.

End Pipeline.

End WebappDocument.

(** ** src/cli.py: the source language handed to the pipeline

    [str.lower] is the interpreter's case mapping; it is a parameter, and
    the properties hold for whatever it is.  [languages] is the dictionary
    [get_supported_languages] returns, with the items of the table. *)
Module Cli.

(** [x in languages.values()] *)
Definition in_values (x : str) (languages : dict) : bool :=
  existsb (fun kv => str_eqb x (snd kv)) languages.

(** [x in languages] *)
Definition in_keys (x : str) (languages : dict) : bool :=
  existsb (fun kv => str_eqb x (fst kv)) languages.

(** [languages.get(k)] *)
Fixpoint get (languages : dict) (k : str) : option str :=
  match languages with
  | [] => None
  | (k', v) :: rest => if str_eqb k k' then Some v else get rest k
  end.

Section Language.
Variable lower : str -> str.

(** [single_pdf_mode] and [batch_mode], from the answer to "Choose option
    (1-2)" and the answer to "Enter language code or name" to
    [source_lang] and whether the warning is printed.  [languages[k]]
    raises [KeyError] on a missing key: [None]. *)
Definition menu_source_lang (choice_line language_line : str)
  : option (str * bool) :=
  let lang_choice := strip choice_line in
  if str_eqb lang_choice (u "2") then
    let lang_input := lower (strip language_line) in
    let languages := SUPPORTED_LANGUAGES in
    if in_values lang_input languages then Some (lang_input, false)
    else if in_keys lang_input languages then
      match get languages lang_input with
      | Some code => Some (code, false)
      | None => None
      end
    else Some (u "auto", true)
  else Some (u "auto", false).

(** The block "Validate language" of [main] (the same for [-f] and for
    [--batch]), from [args.language] to [source_lang] and whether the
    warning is printed. *)
Definition main_source_lang (language : str) : str * bool :=
  if negb (str_eqb language (u "auto")) then
    let languages := SUPPORTED_LANGUAGES in
    if negb (in_values language languages) && negb (in_keys language languages)
    then
      let lang_code := get languages (lower language) in
      let source_lang :=
        match lang_code with
        | Some ((_ :: _) as code) => code
        | _ => u "auto"
        end in
      (source_lang, str_eqb source_lang (u "auto"))
    else (language, false)
  else (language, false).

End Language.

End Cli.

(** ** src/webapp/app.py and src/api/app_simple.py: the upload filter *)
Module Web.

Definition DOT : N := 46%N.

Definition ALLOWED_EXTENSIONS : list str := [u "pdf"].

(** [s.rsplit(sep, 1)] for a separator of one code point: the text is cut
    at the last separator, or handed back whole. *)
Fixpoint rsplit1 (sep : N) (s : str) : list str :=
  match s with
  | [] => [[]]
  | c :: s' =>
      match rsplit1 sep s' with
      | [a; b] => [c :: a; b]
      | _ => if (c =? sep)%N then [[]; s'] else [c :: s']
      end
  end.

Section Upload.
Variable lower : str -> str.         (* str.lower *)

(** [allowed_file]; an index out of range raises [IndexError]: [None]. *)
Definition allowed_file (filename : str) : option bool :=
  if str_in [DOT] filename then
    match nth_error (rsplit1 DOT filename) 1 with
    | Some ext => Some (existsb (str_eqb (lower ext)) ALLOWED_EXTENSIONS)
    | None => None
    end
  else Some false.

End Upload.

End Web.

(** ** src/webapp/app.py and src/api/app_simple.py: the background task

    One call of [translate_pdf_background], run on its own.  The module
    level dictionary [active_translations] and the payloads handed to
    [socketio.emit] are part of the state; [socketio.emit],
    [os.path.basename], [str(e)] and the translator's
    [translate_single_pdf] are parameters. *)
Module Tasks.

(** What [except Exception as e] catches here. *)
Inductive raised : Type :=
| KeyError (key : str)       (* a missing key of [active_translations] *)
| Failure (e : exn).         (* raised by the translator or by socketio *)

Record app (W : Type) : Type := {
  world : W * list event;
  active_translations : gmap str dict;
  emitted : list dict        (* the payloads of 'translation_status' *)
}.
Arguments world {W}.
Arguments active_translations {W}.
Arguments emitted {W}.

Section Calls.
Context {W : Type}.
Variable emit : W -> dict -> result unit * W.     (* socketio.emit *)

Definition with_world (st : W * list event) (a : app W) : app W :=
  {| world := st;
     active_translations := active_translations a;
     emitted := emitted a |}.

(** [active_translations[task_id] = record] *)
Definition set_task (task_id : str) (record : dict) (a : app W) : app W :=
  {| world := world a;
     active_translations := <[task_id := record]> (active_translations a);
     emitted := emitted a |}.

(** [socketio.emit('translation_status', payload)] *)
Definition send (payload : dict) (a : app W) : result unit * app W :=
  let (r, w') := emit (fst (world a)) payload in
  (r, {| world := (w', snd (world a));
         active_translations := active_translations a;
         emitted := emitted a ++ [payload] |}).

End Calls.

(** [get_status] of both applications: the body and the status code. *)
Definition get_status {W : Type} (task_id : str) (a : app W) : dict * nat :=
  match active_translations a !! task_id with
  | Some record => (record, 200)
  | None => ([(u "error", u "Task not found")], 404)
  end.

End Tasks.

(** *** src/webapp/app.py *)
Module App.
Import Tasks.

Section Background.
Context {W : Type}.
Variable translate_single_pdf : str -> option str -> str -> M W str.
Variable emit : W -> dict -> result unit * W.
Variable basename : str -> str.                   (* os.path.basename *)
Variable describe : raised -> str.                (* str(e) *)

(** The [except] branch. *)
Definition on_error (task_id : str) (e : raised) (a : app W)
  : result unit * app W :=
  send emit
    [(u "task_id", task_id); (u "status", u "failed");
     (u "message", u "Translation failed: " ++ describe e)]
    (set_task task_id
       [(u "status", u "failed"); (u "error", describe e)] a).

Definition translate_pdf_background
    (file_path source_lang task_id filename : str) (a : app W)
  : result unit * app W :=
  match send emit
          [(u "task_id", task_id); (u "status", u "processing");
           (u "message", u "Processing " ++ filename ++ u "...")] a with
  | (Raise e, a1) => on_error task_id (Failure e) a1
  | (Return _, a1) =>
      match translate_single_pdf file_path None source_lang (world a1) with
      | (Raise e, st) => on_error task_id (Failure e) (with_world st a1)
      | (Return translated_path, st) =>
          match send emit
                  [(u "task_id", task_id); (u "status", u "completed");
                   (u "message",
                    u "Translation of " ++ filename ++ u " completed!");
                   (u "download_url",
                    u "/download/" ++ basename translated_path)]
                  (set_task task_id
                     [(u "status", u "completed");
                      (u "translated_file", basename translated_path);
                      (u "original_file", filename)]
                     (with_world st a1)) with
          | (Raise e, a2) => on_error task_id (Failure e) a2
          | (Return _, a2) => (Return tt, a2)
          end
      end
  end.

End Background.

End App.

(** *** src/api/app_simple.py *)
Module AppSimple.
Import Tasks.

Section Background.
Context {W : Type}.
Variable translate_single_pdf : str -> option str -> str -> M W str.
Variable emit : W -> dict -> result unit * W.
Variable basename : str -> str.                   (* os.path.basename *)
Variable describe : raised -> str.                (* str(e) *)

(** The [except] branch. *)
Definition on_error (task_id filename : str) (e : raised) (a : app W)
  : result unit * app W :=
  send emit
    [(u "task_id", task_id); (u "status", u "failed");
     (u "message", describe e)]
    (set_task task_id
       [(u "status", u "failed"); (u "error", describe e);
        (u "original_file", filename)] a).

Definition translate_pdf_background
    (file_path source_lang task_id filename : str) (a : app W)
  : result unit * app W :=
  match active_translations a !! task_id with
  | None => on_error task_id filename (KeyError task_id) a
  | Some record =>
      match send emit
              [(u "task_id", task_id); (u "status", u "processing");
               (u "message", u "Processing " ++ filename ++ u "...")]
              (set_task task_id
                 (dict_set record (u "status") (u "processing")) a) with
      | (Raise e, a1) => on_error task_id filename (Failure e) a1
      | (Return _, a1) =>
          match translate_single_pdf file_path None source_lang (world a1)
          with
          | (Raise e, st) =>
              on_error task_id filename (Failure e) (with_world st a1)
          | (Return translated_path, st) =>
              match send emit
                      [(u "task_id", task_id); (u "status", u "completed");
                       (u "download_url",
                        u "/download/" ++ basename translated_path)]
                      (set_task task_id
                         [(u "status", u "completed");
                          (u "translated_file", basename translated_path);
                          (u "original_file", filename);
                          (u "download_url",
                           u "/download/" ++ basename translated_path)]
                         (with_world st a1)) with
              | (Raise e, a2) => on_error task_id filename (Failure e) a2
              | (Return _, a2) => (Return tt, a2)
              end
          end
      end
  end.

End Background.

End AppSimple.

(** ** Vocabulary for the runs of the two translation loops

    What a loop does is told from the answers of the service to the calls
    the loop makes, each answer taken in the state of the world in which
    that call is made. *)
Module RunSpec.

Section Run.
Context {W : Type} (env : Env W).
Variables src dest : str.



(** The answers of the service to one call per chunk, the first made in
    the state [w] and each next one in the state the call before it left;
    and the state after the last. *)
Fixpoint replies (chunks : list str) (w : W)
  : list (result translated) * W :=
  match chunks with
  | [] => ([], w)
  | chunk :: rest =>
      let (r, w1) := api_translate env w chunk src dest in
      let (rs, w2) := replies rest w1 in
      (r :: rs, w2)
  end.

(** One request per chunk, a pause of 200 ms before each but the first. *)
Definition paced_requests (chunks : list str) : list event :=
  match chunks with
  | [] => []
  | chunk :: rest =>
      EvTranslate chunk src dest
        :: flat_map (fun c => [EvSleep 200; EvTranslate c src dest]) rest
  end.

End Run.


End RunSpec.

(** ** More concrete inputs *)
Module Cases.

(** Two names, no two spans sharing a position. *)
Definition two_names : str := u "we met John Smith and Mary Jones.".

(** Two sentences with two spaces between them, a name in each. *)
Definition two_sentences : str :=
  u "We met John Smith.  He knows Mary Jones.".

(** The service hands back an object whose text is [None]. *)
Definition no_text (chunk : str) : result translated :=
  Return (Translated None).

(** The service hands the chunk back as it is. *)
Definition echo (chunk : str) : result translated :=
  Return (Translated (Some chunk)).

(** [str.lower] on the ASCII range. *)
Definition ascii_lower (s : str) : str := map Re.fold_case s.

(** A service that has its own state, the number of requests it has seen:
    it raises for the first [failing] of them and answers [answer] to the
    later ones. *)
Definition flaky (failing : nat) (answer : str) : Env nat :=
  {| path_exists := fun _ _ => true;
     path_glob := fun _ _ _ => [];
     path_stem := fun p => p;
     path_name := fun p => p;
     path_join := fun d f => d ++ u "/" ++ f;
     read_pages := fun n _ => (Return [], n);
     api_detect := fun n _ => (Return (u "fr"), n);
     api_translate := fun n _ _ _ =>
       (if n <? failing then Raise (LibraryError 2)
        else Return (Translated (Some answer)), S n);
     doc_build := fun n _ _ _ => (Return tt, n);
     name_spans := fun _ => [] |}.

End Cases.

(** * Properties *)

(** ** Strings *)

Example str_of_nat_120 : str_of_nat 120 = u "120".
Proof. reflexivity. Qed.

Example strip_ex : strip (u "  a b ") = u "a b".
Proof. reflexivity. Qed.

Example replace_ex : str_replace (u "aa") (u "b") (u "aaaxaa") = u "baxb".
Proof. reflexivity. Qed.

Example replace_empty_ex : str_replace [] (u "-") (u "abc") = u "-a-b-c-".
Proof. reflexivity. Qed.

Example split_ex :
  str_split (u "--") (u "a--b----c-") = [u "a"; u "b"; []; u "c-"].
Proof. reflexivity. Qed.

Lemma str_eqb_eq (a b : str) : str_eqb a b = true <-> a = b.
Proof.
  revert b. induction a as [|x a IH]; intros [|y b]; simpl;
    try (split; [discriminate | discriminate]); try tauto.
  rewrite andb_true_iff, N.eqb_eq, IH. split.
  - intros [-> ->]. reflexivity.
  - intros H. injection H as -> ->. auto.
Qed.

Lemma str_eqb_refl (a : str) : str_eqb a a = true.
Proof. apply str_eqb_eq. reflexivity. Qed.

Lemma startswith_app (p s : str) : startswith p (p ++ s) = true.
Proof.
  induction p as [|x p IH]; simpl; [reflexivity|].
  rewrite N.eqb_refl. exact IH.
Qed.

Lemma startswith_spec (p s : str) :
  startswith p s = true <-> exists r, s = p ++ r.
Proof.
  revert s. induction p as [|x p IH]; intros s; simpl.
  - split; [intros _; exists s; reflexivity | reflexivity].
  - destruct s as [|y s].
    + split; [discriminate | intros [r Hr]; discriminate].
    + rewrite andb_true_iff, N.eqb_eq, IH. split.
      * intros [-> [r ->]]. exists r. reflexivity.
      * intros [r Hr]. injection Hr as -> ->. split; eauto.
Qed.

Lemma startswith_head (x y : N) (p s : str) :
  x <> y -> startswith (x :: p) (y :: s) = false.
Proof.
  intros Hne. simpl. destruct (N.eqb_spec x y); [contradiction | reflexivity].
Qed.

Lemma str_in_head (p s : str) : startswith p s = true -> str_in p s = true.
Proof. destruct s; simpl; intros ->; reflexivity. Qed.

Lemma str_in_app (p a b : str) : str_in p (a ++ p ++ b) = true.
Proof.
  induction a as [|x a IH].
  - apply str_in_head. apply (startswith_app p b).
  - simpl. simpl in IH. rewrite IH. apply orb_true_r.
Qed.

Lemma str_in_spec (p s : str) :
  str_in p s = true <-> exists a b, s = a ++ p ++ b.
Proof.
  split.
  - induction s as [|x s IH]; simpl.
    + rewrite orb_false_r. intros H. apply startswith_spec in H as [r Hr].
      exists [], r. exact Hr.
    + intros H. apply orb_true_iff in H as [H|H].
      * apply startswith_spec in H as [r Hr]. exists [], r. exact Hr.
      * destruct (IH H) as (a & b & ->). exists (x :: a), b. reflexivity.
  - intros (a & b & ->). apply str_in_app.
Qed.

(** *** [str.replace] *)

Lemma replace_from_skip (old new a s : str) :
  replace_from old new (length a) (a ++ s) = replace_from old new 0 s.
Proof. induction a as [|x a IH]; simpl; [reflexivity | exact IH]. Qed.

Lemma replace_from_match (old new s : str) :
  old <> [] ->
  replace_from old new 0 (old ++ s) = new ++ replace_from old new 0 s.
Proof.
  intros Hne. destruct old as [|x old]; [contradiction|].
  change ((x :: old) ++ s) with (x :: (old ++ s)).
  cbn [replace_from].
  change (x :: old ++ s) with ((x :: old) ++ s).
  rewrite startswith_app.
  replace (length (x :: old) - 1) with (length old) by (simpl; lia).
  rewrite replace_from_skip. reflexivity.
Qed.

(** A stretch of text without the first code point of [old] is copied. *)
Lemma replace_from_pass (z : N) (old new a s : str) :
  Forall (fun x => x <> z) a ->
  replace_from (z :: old) new 0 (a ++ s) = a ++ replace_from (z :: old) new 0 s.
Proof.
  induction 1 as [|x a Hx _ IH]; [reflexivity|].
  change ((x :: a) ++ s) with (x :: (a ++ s)).
  cbn [replace_from]. rewrite startswith_head by auto.
  rewrite IH. reflexivity.
Qed.

Lemma replace_from_absent (old new s : str) :
  str_in old s = false -> replace_from old new 0 s = s.
Proof.
  induction s as [|x s IH]; [reflexivity|].
  cbn [str_in replace_from]. intros H.
  apply orb_false_iff in H as [H1 H2]. rewrite H1, IH by assumption.
  reflexivity.
Qed.

Lemma str_replace_absent (old new s : str) :
  str_in old s = false -> str_replace old new s = s.
Proof.
  destruct old as [|x old].
  - destruct s; discriminate.
  - apply replace_from_absent.
Qed.

(** *** Decimal numerals *)

Lemma uint_chars_digits (d : Decimal.uint) : Forall ascii_digit (uint_chars d).
Proof.
  induction d; simpl; constructor; try assumption; unfold ascii_digit; lia.
Qed.

Lemma uint_chars_inj (d d' : Decimal.uint) :
  uint_chars d = uint_chars d' -> d = d'.
Proof.
  revert d'. induction d; intros d'; destruct d'; simpl; intros H;
    try discriminate; try reflexivity;
    injection H as H; f_equal; auto.
Qed.

Lemma str_of_nat_inj (n m : nat) : str_of_nat n = str_of_nat m -> n = m.
Proof.
  intros H. apply Unsigned.to_uint_inj, uint_chars_inj, H.
Qed.

Lemma str_of_nat_digits (n : nat) : Forall ascii_digit (str_of_nat n).
Proof. apply uint_chars_digits. Qed.

Lemma str_of_nat_nonempty (n : nat) : str_of_nat n <> [].
Proof.
  unfold str_of_nat. intros H.
  assert (Hn : Nat.to_uint n <> Nil).
  { rewrite <- (Unsigned.of_to n) at 1. rewrite Unsigned.to_of.
    apply DecimalFacts.unorm_nonnil. }
  destruct (Nat.to_uint n); try discriminate. contradiction.
Qed.

(** ** The matcher: one step of a repetition over a class *)
Section Matcher.
Variable p : N -> bool.
Variable k : option N -> str -> option str.

Lemma mt_cat (a b : Re.re) (prev : option N) (s : str) :
  Re.mt (Re.Cat a b) prev s k
  = Re.mt a prev s (fun prev' s' => Re.mt b prev' s' k).
Proof. reflexivity. Qed.

Lemma mt_chr (c : N) (prev : option N) (s : str) :
  Re.mt (Re.Chr c) prev s k
  = match s with
    | x :: s' => if (x =? c)%N then k (Some x) s' else None
    | [] => None
    end.
Proof. reflexivity. Qed.

Lemma rep_nil (min : nat) (prev : option N) :
  Re.mt (Re.Rep min (Re.Cls p)) prev [] k
  = if min =? 0 then k prev [] else None.
Proof. reflexivity. Qed.

Lemma rep_cons (min : nat) (prev : option N) (c : N) (s : str) :
  Re.mt (Re.Rep min (Re.Cls p)) prev (c :: s) k
  = match (if p c
           then if length s <? length (c :: s)
                then Re.mt (Re.Rep (pred min) (Re.Cls p)) (Some c) s k
                else None
           else None) with
    | Some x => Some x
    | None => if min =? 0 then k prev (c :: s) else None
    end.
Proof. reflexivity. Qed.

Lemma lazy_nil (prev : option N) :
  Re.mt (Re.Lazy1 (Re.Cls p)) prev [] k = None.
Proof. reflexivity. Qed.

Lemma lazy_cons (prev : option N) (c : N) (s : str) :
  Re.mt (Re.Lazy1 (Re.Cls p)) prev (c :: s) k
  = if p c
    then match k (Some c) s with
         | Some x => Some x
         | None => if length s <? length (c :: s)
                   then Re.mt (Re.Lazy1 (Re.Cls p)) (Some c) s k
                   else None
         end
    else None.
Proof. reflexivity. Qed.

Lemma shorter_tail (c : N) (s : str) : (length s <? length (c :: s)) = true.
Proof. apply Nat.ltb_lt. simpl. lia. Qed.

End Matcher.

(** ** The web application's protector: detection *)
Section Detection.
Import Webapp ProtectSpec.
Variable text : str.

Lemma overlaps_false (st en : nat) (ex : found) :
  overlaps st en ex = false ->
  st < en -> m_start ex < m_end ex ->
  disjoint {| m_text := str_slice text st en; m_start := st; m_end := en |} ex.
Proof.
  unfold overlaps, disjoint. simpl. intros H Hs Hx.
  apply andb_false_iff in H as [H|H]; apply Nat.ltb_ge in H; lia.
Qed.

Lemma disjoint_sym (a b : found) : disjoint a b -> disjoint b a.
Proof. unfold disjoint. tauto. Qed.

Lemma pairwise_snoc (l : list found) (m : found) :
  pairwise_disjoint l -> Forall (fun x => disjoint x m) l ->
  pairwise_disjoint (l ++ [m]).
Proof.
  induction l as [|x l IH]; simpl; intros Hp Hm.
  - split; [constructor | exact I].
  - destruct Hp as [Hx Hp]. inversion Hm as [|? ? Hxm Hlm]; subst. split.
    + apply Forall_app. split; [exact Hx | constructor; [exact Hxm | constructor]].
    + apply IH; assumption.
Qed.

Lemma keep_match_inv (all : list found) (sp : nat * nat) :
  span_ok text sp -> kept_inv text all -> kept_inv text (keep_match text all sp).
Proof.
  destruct sp as [st en]. unfold span_ok, keep_match. simpl. intros [Hlt Hle] [Hok Hp].
  destruct (existsb (overlaps st en) all) eqn:E; [split; assumption|].
  split.
  - apply Forall_app. split; [exact Hok|]. constructor; [|constructor].
    unfold found_ok. simpl. auto.
  - apply pairwise_snoc; [exact Hp|].
    rewrite List.Forall_forall. intros x Hx. apply disjoint_sym.
    apply overlaps_false; [|exact Hlt|].
    + destruct (overlaps st en x) eqn:Ex; [|reflexivity].
      assert (existsb (overlaps st en) all = true)
        by (apply existsb_exists; exists x; split; assumption).
      congruence.
    + rewrite List.Forall_forall in Hok. apply (Hok x Hx).
Qed.

Lemma collect_matches_inv (finds : list (list (nat * nat))) :
  finds_ok text finds -> kept_inv text (collect_matches text finds).
Proof.
  unfold collect_matches. intros Hf.
  assert (G : forall all, kept_inv text all ->
            kept_inv text (fold_left (fun all ms => fold_left (keep_match text) ms all)
                                finds all)).
  { induction Hf as [|ms finds Hms _ IH]; intros all Hall; [exact Hall|].
    simpl. apply IH. clear IH. revert all Hall.
    induction Hms as [|sp ms Hsp _ IHms]; intros all Hall; [exact Hall|].
    simpl. apply IHms, keep_match_inv; assumption. }
  apply G. split; [constructor | exact I].
Qed.

Lemma keep_match_incl (all : list found) (sp : nat * nat) (k : found) :
  In k all -> In k (keep_match text all sp).
Proof.
  destruct sp as [st en]. unfold keep_match.
  destruct (existsb (overlaps st en) all); [auto|].
  intros H. apply in_or_app. auto.
Qed.

Lemma keep_match_covers (all : list found) (sp : nat * nat) :
  span_ok text sp -> covered (keep_match text all sp) sp.
Proof.
  destruct sp as [st en]. unfold span_ok, keep_match, covered. simpl.
  intros [Hlt _]. destruct (existsb (overlaps st en) all) eqn:E.
  - apply existsb_exists in E as (k & Hk & Ho). exists k. auto.
  - eexists. split; [apply in_or_app; right; left; reflexivity|].
    unfold overlaps. simpl. apply andb_true_intro.
    split; apply Nat.ltb_lt; assumption.
Qed.

Lemma fold_keep_incl (ms : list (nat * nat)) (all : list found) (k : found) :
  In k all -> In k (fold_left (keep_match text) ms all).
Proof.
  revert all. induction ms as [|sp ms IH]; intros all H; [exact H|].
  simpl. apply IH, keep_match_incl, H.
Qed.

Lemma fold_keep_covers (ms : list (nat * nat)) (all : list found) :
  Forall (span_ok text) ms ->
  Forall (covered (fold_left (keep_match text) ms all)) ms.
Proof.
  intros Hms. revert all. induction Hms as [|sp ms Hsp _ IH]; intros all.
  - constructor.
  - simpl. constructor; [|apply IH].
    destruct (keep_match_covers all sp Hsp) as (k & Hk & Ho).
    exists k. split; [apply fold_keep_incl, Hk | exact Ho].
Qed.

(** Every candidate shares a position with a kept span (itself, when it is
    kept), and the kept spans share none with one another: a candidate is
    dropped exactly when a span kept before it stands in its way. *)
Lemma collect_matches_covers (finds : list (list (nat * nat))) :
  finds_ok text finds ->
  pairwise_disjoint (collect_matches text finds) /\
  Forall (Forall (covered (collect_matches text finds))) finds.
Proof.
  intros Hf. split; [apply collect_matches_inv, Hf|].
  unfold collect_matches. generalize (@nil found) as all.
  induction Hf as [|ms finds Hms _ IH]; intros all; [constructor|].
  simpl. constructor; [|apply IH].
  eapply List.Forall_impl; [|apply (fold_keep_covers ms all Hms)].
  intros sp (k & Hk & Ho). exists k. split; [|exact Ho].
  clear - Hk. revert Hk. generalize (fold_left (keep_match text) ms all).
  induction finds as [|ms' finds IH]; intros acc H; [exact H|].
  simpl. apply IH, fold_keep_incl, H.
Qed.

(** *** The sort *)

Lemma insert_desc_In (m y : found) (l : list found) :
  In y (insert_desc m l) <-> y = m \/ In y l.
Proof.
  induction l as [|x l IH]; simpl.
  - intuition.
  - destruct (m_start m <? m_start x); simpl; rewrite ?IH; intuition.
Qed.

Lemma sort_desc_In (y : found) (l : list found) :
  In y (sort_desc l) <-> In y l.
Proof.
  induction l as [|x l IH]; simpl; [tauto|].
  rewrite insert_desc_In, IH. intuition.
Qed.

Lemma insert_desc_chain (l : list found) (b : nat) (m : found) :
  chain text b l -> found_ok text m -> m_end m <= b ->
  Forall (disjoint m) l -> chain text b (insert_desc m l).
Proof.
  revert b. induction l as [|y l IH]; intros b Hc Hm Hb Hd; simpl.
  - auto.
  - destruct Hc as (Hy & Hyb & Hc). inversion Hd as [|? ? Hmy Hml]; subst.
    destruct Hm as (Hm1 & Hm2 & Hm3). destruct Hy as (Hy1 & Hy2 & Hy3).
    unfold disjoint in Hmy.
    destruct (m_start m <? m_start y) eqn:E.
    + apply Nat.ltb_lt in E. simpl. repeat split; try assumption.
      apply IH; try assumption; [repeat split; assumption | lia].
    + apply Nat.ltb_ge in E. simpl. repeat split; try assumption. lia.
Qed.

Lemma sort_desc_chain (l : list found) :
  kept_inv text l -> chain text (length text) (sort_desc l).
Proof.
  intros [Hok Hp]. induction l as [|x l IH]; simpl; [exact I|].
  destruct Hp as [Hx Hp]. inversion Hok as [|? ? Hxo Hlo]; subst.
  apply insert_desc_chain.
  - apply IH; assumption.
  - exact Hxo.
  - apply Hxo.
  - rewrite List.Forall_forall in *. intros y Hy. apply Hx, sort_desc_In, Hy.
Qed.

Lemma protected_spans_chain (finds : list (list (nat * nat))) :
  finds_ok text finds ->
  chain text (length text) (protected_spans text finds).
Proof. intros H. apply sort_desc_chain, collect_matches_inv, H. Qed.

End Detection.

(** ** The web application's protector: replacement and restoration *)
Section RoundTrip.
Import Webapp ProtectSpec.
Context {db : UnicodeDB}.
Variable text : str.

Lemma app_sep_inj (z : N) (a a' r r' : str) :
  Forall (fun x => x <> z) a -> Forall (fun x => x <> z) a' ->
  a ++ z :: r = a' ++ z :: r' -> a = a' /\ r = r'.
Proof.
  intros Ha. revert a'. induction Ha as [|x a Hx _ IH]; intros a' Ha' E.
  - destruct Ha' as [|y a' Hy _]; simpl in E.
    + injection E as ->. auto.
    + injection E as E _. congruence.
  - destruct Ha' as [|y a' Hy Ha']; simpl in E.
    + injection E as E _. congruence.
    + injection E as -> E. destruct (IH a' Ha' E) as [-> ->]. auto.
Qed.

Lemma digits_not (z : N) (n : nat) :
  (57 < z)%N -> Forall (fun x => x <> z) (str_of_nat n).
Proof.
  intros Hz. eapply List.Forall_impl; [|apply str_of_nat_digits].
  unfold ascii_digit. intros; lia.
Qed.

(** Placeholders of different counters do not start alike. *)
Lemma placeholder_startswith (c c' : nat) (t t' rest : str) :
  c <> c' -> startswith (placeholder c t) (placeholder c' t' ++ rest) = false.
Proof.
  intros Hne. destruct (startswith _ _) eqn:E; [|reflexivity].
  apply startswith_spec in E as [r Hr]. unfold placeholder in Hr.
  simpl in Hr. injection Hr as Hr.
  rewrite <- !app_assoc in Hr. simpl in Hr.
  apply app_sep_inj in Hr as [Hr _]; try (apply digits_not; unfold ZWNJ; lia).
  apply str_of_nat_inj in Hr. congruence.
Qed.

Lemma placeholder_inj_counter (c c' : nat) (t t' : str) :
  placeholder c t = placeholder c' t' -> c = c'.
Proof.
  intros E. destruct (Nat.eq_dec c c') as [|Hne]; [assumption|].
  pose proof (placeholder_startswith c c' t t' [] Hne) as H.
  rewrite app_nil_r, <- E in H.
  rewrite <- (app_nil_r (placeholder c t)) in H at 2.
  rewrite startswith_app in H. discriminate.
Qed.

(** *** Slices of the text *)

Lemma slice_then_rest (a b : nat) :
  a <= b -> str_slice text a b ++ skipn b text = skipn a text.
Proof.
  intros H. unfold str_slice.
  replace (skipn b text) with (skipn (b - a) (skipn a text)).
  - apply firstn_skipn.
  - rewrite List.skipn_skipn. f_equal. lia.
Qed.

Lemma firstn_prefix (s b : nat) (R : str) :
  s <= b -> b <= length text ->
  firstn s (firstn b text ++ R) = firstn s text.
Proof.
  intros H1 H2. rewrite List.firstn_app, List.firstn_firstn.
  rewrite List.length_firstn.
  replace (s - Nat.min b (length text)) with 0 by lia.
  replace (Nat.min s b) with s by lia.
  simpl. apply app_nil_r.
Qed.

Lemma skipn_prefix (e b : nat) (R : str) :
  e <= b -> b <= length text ->
  skipn e (firstn b text ++ R) = str_slice text e b ++ R.
Proof.
  intros H1 H2. rewrite List.skipn_app, List.length_firstn.
  replace (e - Nat.min b (length text)) with 0 by lia. simpl.
  rewrite List.skipn_firstn_comm. reflexivity.
Qed.

(** *** Replacement from the end of the text backward *)

Lemma dict_set_fresh (d : dict) (c : nat) (t v : str) :
  keys_below c d ->
  dict_set d (placeholder c t) v = d ++ [(placeholder c t, v)].
Proof.
  induction 1 as [|[k w] d (c' & t' & Hlt & Hk) _ IH]; [reflexivity|].
  cbn [fst] in Hk. subst k. cbn [dict_set app].
  destruct (str_eqb (placeholder c t) (placeholder c' t')) eqn:E.
  - apply str_eqb_eq, placeholder_inj_counter in E. lia.
  - rewrite IH. reflexivity.
Qed.

Lemma keys_below_snoc (d : dict) (c : nat) (t v : str) :
  keys_below c d -> keys_below (S c) (d ++ [(placeholder c t, v)]).
Proof.
  intros H. apply Forall_app. split.
  - eapply List.Forall_impl; [|exact H]. intros e (c' & t' & Hlt & Hk).
    exists c', t'. auto.
  - constructor; [|constructor]. exists c, t. auto.
Qed.

Lemma protect_fold (l : list found) :
  forall (c b : nat) (R : str) (d : dict),
    chain text b l -> b <= length text -> keys_below c d ->
    fold_left protect_step l (firstn b text ++ R, d, c)
    = (left_part text c l b ++ R, d ++ entries c l, c + length l).
Proof.
  induction l as [|m l IH]; intros c b R d Hc Hb Hd.
  - simpl. rewrite app_nil_r, Nat.add_0_r. reflexivity.
  - destruct Hc as ((Hm1 & Hm2 & Hm3) & Hmb & Hc).
    cbn [fold_left protect_step left_part entries length].
    rewrite firstn_prefix by lia. rewrite skipn_prefix by lia.
    rewrite dict_set_fresh by assumption.
    rewrite IH; [|assumption|lia|apply keys_below_snoc; assumption].
    rewrite <- !app_assoc. simpl. f_equal. lia.
Qed.

Lemma preserve_proper_nouns_on_eq (finds : list (list (nat * nat))) :
  finds_ok text finds ->
  preserve_proper_nouns_on finds text
  = (left_part text 0 (protected_spans text finds) (length text),
     entries 0 (protected_spans text finds)).
Proof.
  intros Hf. unfold preserve_proper_nouns_on.
  pose proof (protect_fold (protected_spans text finds) 0 (length text) [] [])
    as H.
  rewrite List.firstn_all, !app_nil_r in H.
  rewrite H; [reflexivity | | lia | constructor].
  apply protected_spans_chain, Hf.
Qed.

(** *** The exact pass of the restoration *)

Hypothesis no_zwsp : Forall (fun x => x <> ZWSP) text.

Lemma slice_no_zwsp (a b : nat) : Forall (fun x => x <> ZWSP) (str_slice text a b).
Proof. unfold str_slice. apply Forall_take, Forall_drop, no_zwsp. Qed.

Lemma replace_placeholder_pass (c : nat) (t new a s : str) :
  Forall (fun x => x <> ZWSP) a ->
  replace_from (placeholder c t) new 0 (a ++ s)
  = a ++ replace_from (placeholder c t) new 0 s.
Proof. apply replace_from_pass. Qed.

Lemma placeholder_tail_no_zwsp (c : nat) (t : str) :
  Forall (fun x => x <> ZWSP) t ->
  Forall (fun x => x <> ZWSP) (str_of_nat c ++ ZWNJ :: t ++ [ZWJ]).
Proof.
  intros Ht. apply Forall_app. split.
  - apply digits_not. unfold ZWSP. lia.
  - constructor; [discriminate|]. apply Forall_app. split; [exact Ht|].
    constructor; [discriminate | constructor].
Qed.

Lemma replace_placeholder_other (c c' : nat) (t t' new s : str) :
  c <> c' -> Forall (fun x => x <> ZWSP) t' ->
  replace_from (placeholder c t) new 0 (placeholder c' t' ++ s)
  = placeholder c' t' ++ replace_from (placeholder c t) new 0 s.
Proof.
  intros Hne Ht'.
  pose proof (placeholder_startswith c c' t t' s Hne) as Hs.
  unfold placeholder at 2 3. unfold placeholder at 2 in Hs.
  cbn [app] in *. cbn [replace_from]. rewrite Hs. f_equal.
  apply replace_placeholder_pass, placeholder_tail_no_zwsp, Ht'.
Qed.

Lemma replace_pass_left (l : list found) :
  forall (c c' b : nat) (t new X : str),
    c < c' -> chain text b l ->
    replace_from (placeholder c t) new 0 (left_part text c' l b ++ X)
    = left_part text c' l b ++ replace_from (placeholder c t) new 0 X.
Proof.
  induction l as [|m l IH]; intros c c' b t new X Hlt Hc.
  - simpl. apply replace_placeholder_pass, Forall_take, no_zwsp.
  - destruct Hc as ((Hm1 & Hm2 & Hm3) & Hmb & Hc). cbn [left_part].
    rewrite <- !app_assoc. rewrite IH by (auto; lia).
    rewrite replace_placeholder_other;
      [| lia | rewrite Hm3; apply slice_no_zwsp].
    rewrite replace_placeholder_pass by apply slice_no_zwsp.
    reflexivity.
Qed.

Lemma placeholder_nonempty (c : nat) (t : str) : placeholder c t <> [].
Proof. discriminate. Qed.

Lemma restore_exact_fold (l : list found) :
  forall (c b cnt : nat),
    chain text b l -> b <= length text ->
    fold_left restore_exact (entries c l)
              (left_part text c l b ++ skipn b text, cnt)
    = (text, cnt + length l).
Proof.
  induction l as [|m l IH]; intros c b cnt Hc Hb.
  - simpl. rewrite firstn_skipn, Nat.add_0_r. reflexivity.
  - destruct Hc as ((Hm1 & Hm2 & Hm3) & Hmb & Hc).
    cbn [entries fold_left left_part restore_exact length].
    rewrite <- !app_assoc. rewrite slice_then_rest by lia.
    rewrite str_in_app.
    assert (E : str_replace (placeholder c (m_text m)) (m_text m)
                  (left_part text (S c) l (m_start m)
                     ++ placeholder c (m_text m) ++ skipn (m_end m) text)
                = left_part text (S c) l (m_start m) ++ skipn (m_start m) text).
    { unfold str_replace. unfold placeholder at 1. cbn [app].
      fold (placeholder c (m_text m)).
      rewrite replace_pass_left by (auto; lia).
      rewrite replace_from_match by apply placeholder_nonempty.
      rewrite <- (app_nil_r (skipn (m_end m) text)) at 1.
      rewrite replace_placeholder_pass by apply Forall_drop, no_zwsp.
      simpl. rewrite app_nil_r.
      rewrite Hm3. rewrite slice_then_rest by lia. reflexivity. }
    rewrite E. rewrite IH by (auto; lia). f_equal. lia.
Qed.

End RoundTrip.

(** *** Reading a placeholder back *)
Section Parse.
Import Webapp ProtectSpec.
Context {db : UnicodeDB}.

Lemma span_while_stop (p : N -> bool) (a r : str) (z : N) :
  Forall (fun x => p x = true) a -> p z = false ->
  span_while p (a ++ z :: r) = (a, z :: r).
Proof.
  intros Ha Hz. induction Ha as [|x a Hx _ IH]; simpl.
  - rewrite Hz. reflexivity.
  - rewrite Hx, IH. reflexivity.
Qed.

Lemma digits_decimal (c : nat) :
  Forall (fun x => isdecimal x = true) (str_of_nat c).
Proof.
  eapply List.Forall_impl; [|apply str_of_nat_digits].
  intros x [H1 H2]. apply isdecimal_ascii. unfold Re.is_digit, Re.between.
  apply andb_true_intro. split; apply N.leb_le; assumption.
Qed.

Lemma lazy_until_zwj_app (t : str) :
  Forall (fun x => x <> ZWJ) t ->
  lazy_until_zwj (t ++ [ZWJ])
  = if forallb (fun x => negb (x =? NEWLINE)%N) t then Some t else None.
Proof.
  induction 1 as [|x t Hx _ IH]; simpl; [reflexivity|].
  destruct (N.eqb_spec x ZWJ); [contradiction|].
  destruct (x =? NEWLINE)%N; simpl; [reflexivity|].
  rewrite IH. destruct (forallb _ t); reflexivity.
Qed.

Lemma text_group_app (t : str) :
  Forall (fun x => x <> ZWJ) t ->
  text_group (t ++ [ZWJ]) = if one_line t then Some t else None.
Proof.
  intros Ht. destruct Ht as [|x t Hx Ht]; [reflexivity|].
  cbn [app text_group one_line forallb].
  destruct (x =? NEWLINE)%N; simpl; [reflexivity|].
  rewrite lazy_until_zwj_app by assumption.
  destruct (forallb _ t); reflexivity.
Qed.

Lemma match_placeholder_eq (c : nat) (t : str) :
  Forall (fun x => x <> ZWJ) t ->
  match_placeholder (placeholder c t)
  = if one_line t then Some (str_of_nat c, t) else None.
Proof.
  intros Ht. unfold placeholder, match_placeholder.
  rewrite N.eqb_refl.
  rewrite (span_while_stop isdecimal (str_of_nat c) (t ++ [ZWJ]) ZWNJ
             (digits_decimal c) isdecimal_zwnj).
  destruct (str_of_nat c) as [|d ds] eqn:E.
  - exfalso. exact (str_of_nat_nonempty c E).
  - rewrite N.eqb_refl, text_group_app by assumption.
    destruct (one_line t); reflexivity.
Qed.

Lemma search_placeholder_none (s : str) :
  Forall (fun x => x <> ZWSP) s -> search_placeholder s = None.
Proof.
  induction 1 as [|x s Hx _ IH]; [reflexivity|].
  cbn [search_placeholder match_placeholder].
  destruct (N.eqb_spec x ZWSP); [contradiction | exact IH].
Qed.

Lemma search_placeholder_eq (c : nat) (t : str) :
  Forall (fun x => x <> ZWSP) t -> Forall (fun x => x <> ZWJ) t ->
  search_placeholder (placeholder c t)
  = if one_line t then Some (str_of_nat c, t) else None.
Proof.
  intros Hs Hj.
  pose proof (match_placeholder_eq c t Hj) as Hm.
  unfold placeholder in *. cbn [search_placeholder]. rewrite Hm.
  destruct (one_line t); [reflexivity|].
  apply search_placeholder_none. fold (str_of_nat c ++ ZWNJ :: t ++ [ZWJ]).
  apply (placeholder_tail_no_zwsp c t Hs).
Qed.

Lemma counter_prefix_neq (d t : str) : d <> [] -> str_eqb (d ++ t) t = false.
Proof.
  intros Hd. destruct (str_eqb (d ++ t) t) eqn:E; [|reflexivity].
  apply str_eqb_eq in E. apply (f_equal (@length N)) in E.
  rewrite length_app in E. destruct d; [contradiction | simpl in E; lia].
Qed.

(** The candidates, as the loop meets them: the bare text equals the
    original span and is passed over. *)
Lemma try_patterns_eq (c : nat) (t cur : str) :
  try_patterns (patterns_to_try (str_of_nat c) t) t cur
  = option_map (fun cand => str_replace cand t cur) (first_candidate c t cur).
Proof.
  unfold patterns_to_try, first_candidate. cbn [try_patterns].
  rewrite counter_prefix_neq by apply str_of_nat_nonempty.
  change (str_of_nat c ++ SPACE :: t) with (str_of_nat c ++ [SPACE] ++ t).
  rewrite app_assoc, counter_prefix_neq, <- app_assoc, str_eqb_refl.
  - rewrite !andb_true_r, andb_false_r.
    destruct (str_in (str_of_nat c ++ t) cur); [reflexivity|].
    destruct (str_in _ cur); reflexivity.
  - intros H. apply app_eq_nil in H as [H _]. exact (str_of_nat_nonempty c H).
Qed.

Lemma restore_partial_eq (c cnt : nat) (t cur : str) :
  Forall (fun x => x <> ZWSP) t -> Forall (fun x => x <> ZWJ) t ->
  restore_partial (cur, cnt) (placeholder c t, t)
  = if one_line t then
      match first_candidate c t cur with
      | Some cand => (str_replace cand t cur, S cnt)
      | None => (cur, cnt)
      end
    else (cur, cnt).
Proof.
  intros Hs Hj. unfold restore_partial.
  rewrite search_placeholder_eq by assumption.
  destruct (one_line t); [|reflexivity].
  rewrite try_patterns_eq. destruct (first_candidate c t cur); reflexivity.
Qed.

End Parse.

(** *** The recovery pattern: the scan and the matcher *)
Section PlaceholderPattern.
Import Webapp ProtectSpec.
Context {db : UnicodeDB}.

Lemma span_while_app (p : N -> bool) (s : str) :
  fst (span_while p s) ++ snd (span_while p s) = s.
Proof.
  induction s as [|c s IH]; [reflexivity|]. simpl.
  destruct (p c); [|reflexivity].
  destruct (span_while p s) as [a b]. simpl in *. rewrite IH. reflexivity.
Qed.

(** Greedy digits before something that no digit can start: the whole run. *)
Lemma rep_digits (K : option N -> str -> option str) :
  (forall p1 p2 s, K p1 s = K p2 s) ->
  (forall pr c s, isdecimal c = true -> K pr (c :: s) = None) ->
  forall (s : str) (min : nat) (prev : option N),
    Re.mt (Re.Rep min (Re.Cls isdecimal)) prev s K
    = if min <=? length (fst (span_while isdecimal s))
      then K None (snd (span_while isdecimal s)) else None.
Proof.
  intros Hprev Hfail. induction s as [|c s IH]; intros min prev.
  - rewrite rep_nil. simpl. rewrite (Hprev prev None).
    destruct min; reflexivity.
  - rewrite rep_cons, shorter_tail. cbn [span_while].
    destruct (isdecimal c) eqn:Hc.
    + rewrite IH. destruct (span_while isdecimal s) as [ds rest].
      cbn [fst snd length]. rewrite (Hfail prev c s Hc).
      destruct min as [|min]; cbn [pred Nat.eqb Nat.leb].
      * destruct (K None rest); reflexivity.
      * destruct (min <=? length ds); [destruct (K None rest)|]; reflexivity.
    + cbn [fst snd length]. rewrite (Hprev prev None).
      destruct min; reflexivity.
Qed.

Lemma lazy_until_text_group (x : N) (s : str) :
  (x =? ZWJ)%N = false -> lazy_until_zwj (x :: s) = text_group (x :: s).
Proof. intros H. simpl. rewrite H. reflexivity. Qed.

(** The lazy group before U+200D: what is left after both. *)
Lemma lazy_group (s : str) :
  forall prev,
    Re.mt (Re.Lazy1 (Re.Cls not_newline)) prev s
          (fun prev' s' => Re.mt (Re.Chr ZWJ) prev' s' Re.stop)
    = option_map (fun g => skipn (S (length g)) s) (text_group s).
Proof.
  induction s as [|c s IH]; intros prev; [reflexivity|].
  rewrite lazy_cons, shorter_tail. cbn [text_group].
  change (not_newline c) with (negb (c =? NEWLINE)%N).
  destruct (c =? NEWLINE)%N; [reflexivity|]. cbn [negb].
  destruct s as [|x s'].
  - simpl. reflexivity.
  - change (Re.mt (Re.Chr ZWJ) (Some c) (x :: s') Re.stop)
      with (if (x =? ZWJ)%N then Some s' else None).
    destruct (x =? ZWJ)%N eqn:Hx.
    + cbn [lazy_until_zwj]. rewrite Hx. reflexivity.
    + rewrite IH, lazy_until_text_group by exact Hx.
      destruct (text_group (x :: s')) as [g|]; reflexivity.
Qed.

Lemma text_group_struct (s g : str) :
  text_group s = Some g -> firstn (S (length g)) s = g ++ [ZWJ].
Proof.
  assert (L : forall s g, lazy_until_zwj s = Some g ->
                          firstn (S (length g)) s = g ++ [ZWJ]).
  { clear. induction s as [|c s IH]; intros g; [discriminate|].
    cbn [lazy_until_zwj]. destruct (N.eqb_spec c ZWJ) as [->|Hc].
    - intros H. injection H as <-. reflexivity.
    - destruct (c =? NEWLINE)%N; [discriminate|].
      destruct (lazy_until_zwj s) as [g'|]; [|discriminate].
      intros H. injection H as <-. cbn [length firstn app].
      rewrite (IH g' eq_refl). reflexivity. }
  destruct s as [|c s]; [discriminate|]. cbn [text_group].
  destruct (c =? NEWLINE)%N; [discriminate|].
  destruct (lazy_until_zwj s) as [g'|] eqn:E; [|discriminate].
  intros H. injection H as <-. cbn [length firstn app].
  rewrite (L s g' E). reflexivity.
Qed.

Lemma decimal_not_zwnj (c : N) : isdecimal c = true -> (c =? ZWNJ)%N = false.
Proof.
  intros H. destruct (N.eqb_spec c ZWNJ) as [->|]; [|reflexivity].
  unfold ZWNJ in H. rewrite isdecimal_zwnj in H. discriminate.
Qed.

(** The pattern matched here, against the scan's [match_placeholder]. *)
Lemma match_here_placeholder (prev : option N) (s : str) :
  Re.match_here placeholder_pattern prev s
  = option_map (fun nt => skipn (length (rebuild nt)) s) (match_placeholder s).
Proof.
  unfold Re.match_here, placeholder_pattern, match_placeholder.
  cbn [Re.cat]. rewrite mt_cat, mt_chr.
  destruct s as [|c r]; [reflexivity|].
  destruct (c =? ZWSP)%N; [|reflexivity].
  rewrite mt_cat, rep_digits.
  - destruct (span_while isdecimal r) as [number rest] eqn:E.
    pose proof (span_while_app isdecimal r) as Happ. rewrite E in Happ.
    cbn [fst snd] in *.
    destruct number as [|d ds]; [reflexivity|]. cbn [length Nat.leb].
    rewrite mt_cat, mt_chr.
    destruct rest as [|c1 r2]; [reflexivity|].
    destruct (c1 =? ZWNJ)%N; [|reflexivity].
    rewrite mt_cat, lazy_group. destruct (text_group r2) as [t|]; [|reflexivity].
    cbn [option_map]. f_equal. subst r. unfold rebuild. cbn [fst snd].
    cbn [length skipn].
    assert (Hl : length ((d :: ds) ++ ZWNJ :: t ++ [ZWJ])
                 = S (length ds) + S (S (length t)))
      by (rewrite length_app; cbn [length]; rewrite length_app; simpl; lia).
    rewrite List.skipn_app, Hl.
    rewrite (@List.skipn_all2 _ _ (d :: ds)) by (simpl; lia).
    replace (S (length ds) + S (S (length t)) - length (d :: ds))
      with (S (S (length t))) by (simpl; lia).
    reflexivity.
  - intros p1 p2 s1. rewrite !mt_cat, !mt_chr. destruct s1; reflexivity.
  - intros pr c0 s0 Hc0. rewrite mt_cat, mt_chr.
    rewrite (decimal_not_zwnj c0 Hc0). reflexivity.
Qed.

Lemma match_placeholder_struct (s : str) (nt : str * str) :
  match_placeholder s = Some nt ->
  firstn (length (rebuild nt)) s = rebuild nt.
Proof.
  unfold match_placeholder. destruct s as [|c r]; [discriminate|].
  destruct (N.eqb_spec c ZWSP) as [->|]; [|discriminate].
  destruct (span_while isdecimal r) as [number rest] eqn:E.
  pose proof (span_while_app isdecimal r) as Happ. rewrite E in Happ.
  cbn [fst snd] in Happ.
  destruct number as [|d ds]; [discriminate|].
  destruct rest as [|c1 r2]; [discriminate|].
  destruct (N.eqb_spec c1 ZWNJ) as [->|]; [|discriminate].
  destruct (text_group r2) as [t|] eqn:Et; [|discriminate].
  intros H. injection H as <-. subst r. unfold rebuild. cbn [fst snd].
  cbn [length firstn]. f_equal.
  assert (Hl : length ((d :: ds) ++ ZWNJ :: t ++ [ZWJ])
               = S (length ds) + S (S (length t)))
    by (rewrite length_app; cbn [length]; rewrite length_app; simpl; lia).
  rewrite Hl, List.firstn_app.
  rewrite (@List.firstn_all2 _ _ (d :: ds)) by (simpl; lia).
  replace (S (length ds) + S (S (length t)) - length (d :: ds))
    with (S (S (length t))) by (simpl; lia).
  f_equal. cbn [firstn]. f_equal.
  apply (text_group_struct r2 t Et).
Qed.

Lemma scan_search (s : str) :
  forall (text : str) (prev : option N) (pos : nat),
    s = skipn pos text ->
    match Re.scan placeholder_pattern prev pos 0 s with
    | [] => None
    | (a, b) :: _ => Some (firstn (b - a) (skipn a text))
    end
    = option_map rebuild (search_placeholder s).
Proof.
  induction s as [|c s IH]; intros text prev pos Hs; [reflexivity|].
  cbn [Re.scan search_placeholder]. rewrite match_here_placeholder.
  destruct (match_placeholder (c :: s)) as [nt|] eqn:E.
  - cbn [option_map]. f_equal. rewrite <- Hs.
    rewrite List.length_skipn.
    pose proof (match_placeholder_struct _ _ E) as Hst.
    assert (Hlen : length (rebuild nt) <= length (c :: s)).
    { rewrite <- Hst at 1. rewrite List.length_firstn. lia. }
    replace (pos + (length (c :: s) - (length (c :: s) - length (rebuild nt)))
             - pos) with (length (rebuild nt)) by lia.
    exact Hst.
  - cbn [option_map]. apply IH.
    replace (S pos) with (1 + pos) by lia.
    rewrite <- List.skipn_skipn, <- Hs. reflexivity.
Qed.

(** The scan is [re.search] on the pattern, for every string and every
    table of decimal digits. *)
Lemma search_placeholder_is_search (s : str) :
  Re.search placeholder_pattern s = option_map rebuild (search_placeholder s).
Proof. unfold Re.search, Re.finditer. apply scan_search. reflexivity. Qed.

End PlaceholderPattern.

(** *** Protect, then restore *)
Section Lossless.
Import Webapp ProtectSpec.
Context {db : UnicodeDB}.
Variable text : str.
Hypothesis no_zwsp : Forall (fun x => x <> ZWSP) text.
Hypothesis no_zwj : Forall (fun x => x <> ZWJ) text.

Lemma restore_partial_fold (l : list found) :
  forall (c b cnt : nat),
    chain text b l -> counters_clear text c l ->
    fold_left restore_partial (entries c l) (text, cnt) = (text, cnt).
Proof.
  induction l as [|m l IH]; intros c b cnt Hc Hclear; [reflexivity|].
  destruct Hc as ((Hm1 & Hm2 & Hm3) & Hmb & Hc).
  destruct Hclear as (H1 & H2 & Hclear).
  cbn [entries fold_left].
  rewrite restore_partial_eq.
  - unfold first_candidate. rewrite H1, H2.
    destruct (one_line (m_text m)); eapply IH; eassumption.
  - rewrite Hm3. unfold str_slice. apply Forall_take, Forall_drop, no_zwsp.
  - rewrite Hm3. unfold str_slice. apply Forall_take, Forall_drop, no_zwj.
Qed.

Lemma restore_run_protected (finds : list (list (nat * nat))) :
  finds_ok text finds ->
  counters_clear text 0 (protected_spans text finds) ->
  restore_run (fst (preserve_proper_nouns_on finds text))
              (snd (preserve_proper_nouns_on finds text))
  = (text, length (protected_spans text finds)).
Proof.
  intros Hf Hclear. rewrite preserve_proper_nouns_on_eq by assumption.
  cbn [fst snd]. unfold restore_run.
  pose proof (protected_spans_chain text finds Hf) as Hc.
  pose proof (restore_exact_fold text no_zwsp (protected_spans text finds)
                0 (length text) 0 Hc (Nat.le_refl _)) as H1.
  rewrite List.skipn_all, app_nil_r in H1. rewrite H1.
  eapply restore_partial_fold; eassumption.
Qed.

End Lossless.

(** What the round trip does keep.  The kept spans are replaced by their
    placeholders in descending order of start offset, each span ending
    where the one replaced before it starts or before.  For a text that
    holds neither U+200B nor U+200D and in which no protected span's text
    stands right after its own counter (directly or after one space),
    restoring the unmodified protected text with the produced map gives
    the original text back.  [finds] is any result of the pattern scans
    whose spans are non-empty and lie inside the text. *)
Theorem protect_restore_lossless
    (db : UnicodeDB) (text : str) (finds : list (list (nat * nat))) :
  ProtectSpec.finds_ok text finds ->
  Forall (fun x => x <> Webapp.ZWSP) text ->
  Forall (fun x => x <> Webapp.ZWJ) text ->
  ProtectSpec.counters_clear text 0 (Webapp.protected_spans text finds) ->
  ProtectSpec.chain text (length text) (Webapp.protected_spans text finds) /\
  Webapp.restore_proper_nouns
    (fst (Webapp.preserve_proper_nouns_on finds text))
    (snd (Webapp.preserve_proper_nouns_on finds text)) = text.
Proof.
  intros Hf Hs Hj Hclear. split; [apply protected_spans_chain, Hf|].
  unfold Webapp.restore_proper_nouns.
  rewrite (restore_run_protected text Hs Hj finds Hf Hclear). reflexivity.
Qed.

Lemma forallb_neq (z : N) (l : str) :
  forallb (fun x => negb (x =? z)%N) l = true -> Forall (fun x => x <> z) l.
Proof.
  intros H. apply List.Forall_forall. intros x Hx Hxz.
  rewrite forallb_forall in H. specialize (H x Hx).
  apply negb_true_iff, N.eqb_neq in H. contradiction.
Qed.

(** The round trip of a text with a name shadowed by an e-mail address and by
    an organisation: three spans are kept and three placeholders restored. *)
Lemma protect_restore_lossless_witness :
  ProtectSpec.chain Samples.mail (length Samples.mail)
    (Webapp.protected_spans Samples.mail (Samples.webapp_finds Samples.mail)) /\
  Webapp.restore_proper_nouns
    (fst (Webapp.preserve_proper_nouns Samples.mail))
    (snd (Webapp.preserve_proper_nouns Samples.mail)) = Samples.mail.
Proof.
  apply (protect_restore_lossless ascii_db Samples.mail
           (Samples.webapp_finds Samples.mail)).
  - vm_compute. repeat constructor.
  - apply forallb_neq. vm_compute. reflexivity.
  - apply forallb_neq. vm_compute. reflexivity.
  - vm_compute. repeat split.
Defined.

(** C1.  The round trip with the identity translation is not lossless.
    In "10 Downing Street" the patterns find the one span "Downing Street",
    so nothing overlaps; it is replaced by the placeholder with counter 0,
    and the first loop of [restore_proper_nouns] (the exact matches) hands
    the original text back.  The second loop, written for placeholders
    whose separators were removed, runs for this placeholder as well: it
    finds its candidate "0 Downing Street" in the restored text and
    rewrites it, so that two restorations are counted for the one
    placeholder and the text returned is "1Downing Street". *)
Lemma protect_restore_not_lossless :
  Samples.webapp_finds Samples.downing = [[(3, 17)]; []; []] /\
  Webapp.preserve_proper_nouns Samples.downing
  = (u "10 " ++ Webapp.placeholder 0 (u "Downing Street"),
     [(Webapp.placeholder 0 (u "Downing Street"), u "Downing Street")]) /\
  fold_left Webapp.restore_exact
    (snd (Webapp.preserve_proper_nouns Samples.downing))
    (fst (Webapp.preserve_proper_nouns Samples.downing), 0)
  = (Samples.downing, 1) /\
  Webapp.restore_run
    (fst (Webapp.preserve_proper_nouns Samples.downing))
    (snd (Webapp.preserve_proper_nouns Samples.downing))
  = (u "1Downing Street", 2) /\
  Webapp.restore_proper_nouns
    (fst (Webapp.preserve_proper_nouns Samples.downing))
    (snd (Webapp.preserve_proper_nouns Samples.downing))
  = u "1Downing Street" /\
  Webapp.restore_proper_nouns
    (fst (Webapp.preserve_proper_nouns Samples.downing))
    (snd (Webapp.preserve_proper_nouns Samples.downing))
  <> Samples.downing.
Proof.
  repeat split; try (vm_compute; reflexivity).
  vm_compute. discriminate.
Qed.

(** ** Degraded recovery *)
Section Recovery.
Import Webapp ProtectSpec.
Context {db : UnicodeDB}.

Lemma startswith_app_long (p a b : str) :
  length p <= length a -> startswith p (a ++ b) = startswith p a.
Proof.
  revert a. induction p as [|x p IH]; intros a Hlen; [reflexivity|].
  destruct a as [|y a]; simpl in Hlen; [lia|].
  simpl. rewrite IH by lia. reflexivity.
Qed.

Lemma no_match_before (r pre post : str) (x l : N) :
  startswith (r ++ [l]) (x :: pre ++ r) = false ->
  startswith (r ++ [l]) (x :: pre ++ (r ++ [l]) ++ post) = false.
Proof.
  intros H. rewrite <- app_assoc, (app_assoc pre r), app_comm_cons.
  rewrite startswith_app_long; [exact H|].
  cbn [length]. rewrite !length_app. simpl. lia.
Qed.

(** The first occurrence of [old] is replaced where it stands. *)
Lemma replace_from_first (old new pre post : str) :
  old <> [] ->
  str_in old (pre ++ removelast old) = false ->
  replace_from old new 0 (pre ++ old ++ post)
  = pre ++ new ++ replace_from old new 0 post.
Proof.
  intros Hne. induction pre as [|x pre IH]; intros Hin; cbn [app].
  - apply replace_from_match, Hne.
  - cbn [app str_in] in Hin. apply orb_false_iff in Hin as [Hhead Hin].
    cbn [replace_from].
    assert (E : startswith old (x :: pre ++ old ++ post) = false).
    { pose proof (app_removelast_last 0%N Hne) as Ho.
      revert Hhead. generalize (removelast old) (List.last old 0%N) Ho.
      intros r l ->. apply no_match_before. }
    rewrite E, IH by assumption. reflexivity.
Qed.

Lemma restore_single (c : nat) (t pre post : str) :
  Forall (fun x => x <> ZWSP) t -> Forall (fun x => x <> ZWJ) t ->
  one_line t = true ->
  str_in (placeholder c t) (pre ++ (str_of_nat c ++ t) ++ post) = false ->
  str_in (str_of_nat c ++ t) (pre ++ removelast (str_of_nat c ++ t)) = false ->
  restore_proper_nouns (pre ++ (str_of_nat c ++ t) ++ post)
                       [(placeholder c t, t)]
  = pre ++ t ++ str_replace (str_of_nat c ++ t) t post.
Proof.
  intros Hs Hj Hline Hintact Hfirst.
  assert (Hne : str_of_nat c ++ t <> []).
  { intros H. apply app_eq_nil in H as [H _]. exact (str_of_nat_nonempty c H). }
  unfold restore_proper_nouns, restore_run. cbn [fold_left restore_exact].
  rewrite Hintact. rewrite restore_partial_eq by assumption.
  rewrite Hline. unfold first_candidate. rewrite str_in_app. cbn [fst].
  unfold str_replace. destruct (str_of_nat c ++ t) as [|d ds] eqn:E;
    [contradiction|].
  rewrite replace_from_first by assumption. reflexivity.
Qed.

End Recovery.

(** What the recovery pass does for one placeholder, built from counter
    [c] and a span text [t] of one line (no line feed) without U+200B and
    U+200D, whether or not it was found intact: it probes the text as
    restored so far with [c] followed by [t], then [c], one space and [t];
    the first of the two that occurs is replaced everywhere by [t]; the
    bare text, being the original span itself, is passed over.  When the
    placeholder is the only entry, is not intact, and [c] followed by [t]
    first occurs at the placeholder's place, [t] is recovered there. *)
Theorem degraded_recovery (db : UnicodeDB) (c : nat) (t : str) :
  Forall (fun x => x <> Webapp.ZWSP) t ->
  Forall (fun x => x <> Webapp.ZWJ) t ->
  ProtectSpec.one_line t = true ->
  (forall (cur : str) (cnt : nat),
      Webapp.restore_partial (cur, cnt) (Webapp.placeholder c t, t)
      = match ProtectSpec.first_candidate c t cur with
        | Some cand => (str_replace cand t cur, S cnt)
        | None => (cur, cnt)
        end) /\
  (forall pre post : str,
      str_in (Webapp.placeholder c t) (pre ++ (str_of_nat c ++ t) ++ post)
      = false ->
      str_in (str_of_nat c ++ t) (pre ++ removelast (str_of_nat c ++ t))
      = false ->
      Webapp.restore_proper_nouns (pre ++ (str_of_nat c ++ t) ++ post)
                                  [(Webapp.placeholder c t, t)]
      = pre ++ t ++ str_replace (str_of_nat c ++ t) t post).
Proof.
  intros Hs Hj Hline. split.
  - intros cur cnt. rewrite restore_partial_eq by assumption.
    rewrite Hline. reflexivity.
  - intros pre post. apply restore_single; assumption.
Qed.

Lemma degraded_recovery_witness :
  (forall (cur : str) (cnt : nat),
      Webapp.restore_partial (cur, cnt)
        (Webapp.placeholder 0 (u "Tom Fox"), u "Tom Fox")
      = match ProtectSpec.first_candidate 0 (u "Tom Fox") cur with
        | Some cand => (str_replace cand (u "Tom Fox") cur, S cnt)
        | None => (cur, cnt)
        end) /\
  Webapp.restore_proper_nouns (u "Ask " ++ u "0Tom Fox" ++ u " now")
    [(Webapp.placeholder 0 (u "Tom Fox"), u "Tom Fox")]
  = u "Ask Tom Fox now".
Proof.
  destruct (degraded_recovery ascii_db 0 (u "Tom Fox")) as [Hstep Hone].
  - apply forallb_neq. vm_compute. reflexivity.
  - apply forallb_neq. vm_compute. reflexivity.
  - vm_compute. reflexivity.
  - split; [exact Hstep|].
    apply (Hone (u "Ask ") (u " now")); vm_compute; reflexivity.
Defined.

(** C5.  Separators stripped, counter and text adjacent, and yet the
    span is not recovered.  Of eleven names the first and the last are
    "Tom Fox"; counter 10 is given to the first and counter 0 to the last.
    With the three separators stripped, the translated text holds
    "10Tom Fox" where placeholder 10 stood, the first candidate of that
    placeholder.  The candidates are looked for as plain substrings of the
    text as rewritten so far: the recovery of placeholder 0 finds its
    candidate "0Tom Fox" inside "10Tom Fox" and rewrites it to "1Tom Fox",
    after which no candidate of placeholder 10 occurs, and the text
    returned starts with "1Tom Fox". *)
Lemma recovery_probes_rewritten_text :
  let protected := fst (Webapp.preserve_proper_nouns Samples.eleven) in
  let pmap := snd (Webapp.preserve_proper_nouns Samples.eleven) in
  let translated := Samples.strip_separators protected in
  nth_error pmap 10
  = Some (Webapp.placeholder 10 (u "Tom Fox"), u "Tom Fox") /\
  str_in (Webapp.placeholder 10 (u "Tom Fox")) translated = false /\
  str_in (str_of_nat 10 ++ u "Tom Fox") translated = true /\
  Webapp.restore_proper_nouns translated pmap
  = u "1Tom Fox, Ann Lee, Ann Lee, Ann Lee, Ann Lee, Ann Lee, Ann Lee, Ann Lee, Ann Lee, Ann Lee, Tom Fox" /\
  Webapp.restore_proper_nouns translated pmap <> Samples.eleven.
Proof.
  repeat split; try (vm_compute; reflexivity).
  vm_compute. discriminate.
Qed.

(** A span broken over two lines is never read back from its placeholder:
    with the separators stripped, the counter stays in the text. *)
Lemma recovery_skips_multiline_span :
  Samples.webapp_finds Samples.acme = [[]; []; [(0, 8)]] /\
  Webapp.preserve_proper_nouns Samples.acme
  = (Webapp.placeholder 0 Samples.acme,
     [(Webapp.placeholder 0 Samples.acme, Samples.acme)]) /\
  Webapp.search_placeholder (Webapp.placeholder 0 Samples.acme) = None /\
  Webapp.restore_proper_nouns (u "0" ++ Samples.acme)
    [(Webapp.placeholder 0 Samples.acme, Samples.acme)]
  = u "0" ++ Samples.acme.
Proof. repeat split; vm_compute; reflexivity. Qed.

(** ** Overlapping spans in src/pdf_translator.py *)

(** C6 at "Dr. Johnathan Smithson lives".  The first pattern finds
    "Johnathan Smithson" at [4, 22), the fourth "Dr. Johnathan Smithson" at
    [0, 22); [preserve_names_and_entities] keeps both.  The inner span is
    replaced first and shortens the text, the outer span's end offset then
    lies behind the end of the text, and " lives" is lost. *)
Lemma names_overlap_kept :
  Samples.core_finds Samples.smithson
  = [[(4, 22)]; []; []; [(0, 22)]; []; []; []] /\
  Core.sort_desc (Core.collect_matches Samples.smithson
                    (Samples.core_finds Samples.smithson))
  = [(4, 22, u "Johnathan Smithson"); (0, 22, u "Dr. Johnathan Smithson")] /\
  Core.preserve_names_and_entities_on (Samples.core_finds Samples.smithson)
                                      Samples.smithson
  = (u "__NAME_1__",
     [(u "__NAME_0__", u "Johnathan Smithson");
      (u "__NAME_1__", u "Dr. Johnathan Smithson")]) /\
  Core.restore_names_and_entities (u "__NAME_1__")
     [(u "__NAME_0__", u "Johnathan Smithson");
      (u "__NAME_1__", u "Dr. Johnathan Smithson")]
  = u "Dr. Johnathan Smithson".
Proof. repeat split; vm_compute; reflexivity. Qed.

(** The web application's detection on the same kind of clash: the e-mail
    address and the organisation overlap names found before them and are
    dropped. *)
Example webapp_overlap_dropped :
  Samples.webapp_finds Samples.mail
  = [[(0, 8); (21, 32); (39, 49)]; [(5, 17)]; [(14, 37)]] /\
  map (fun m => (Webapp.m_start m, Webapp.m_end m))
      (Webapp.collect_matches Samples.mail (Samples.webapp_finds Samples.mail))
  = [(0, 8); (21, 32); (39, 49)].
Proof. split; vm_compute; reflexivity. Qed.

(** ** The sentence boundary: the scan and the pattern *)
Section SentenceBoundary.
Import Core.

Lemma lstrip_le (s : str) : length (lstrip s) <= length s.
Proof.
  induction s as [|c s IH]; simpl; [lia|]. destruct (isspace c); simpl; lia.
Qed.

(** Greedy white space: the whole run is taken, if it is long enough. *)
Lemma rep_space (s : str) :
  forall (min : nat) (prev : option N),
    Re.mt (Re.Rep min (Re.Cls isspace)) prev s Re.stop
    = if min <=? length s - length (lstrip s) then Some (lstrip s) else None.
Proof.
  induction s as [|c s IH]; intros min prev.
  - destruct min; reflexivity.
  - rewrite rep_cons. cbn [lstrip]. destruct (isspace c) eqn:Hc.
    + rewrite shorter_tail, IH. pose proof (lstrip_le s) as Hle.
      replace (length (c :: s) - length (lstrip s))
        with (S (length s - length (lstrip s))) by (simpl; lia).
      destruct min as [|min]; [reflexivity|].
      cbn [pred Nat.leb Nat.eqb].
      destruct (min <=? length s - length (lstrip s)); reflexivity.
    + rewrite Nat.sub_diag. destruct min; reflexivity.
Qed.

Lemma run_starts (s : str) :
  (1 <=? length s - length (lstrip s)) = starts_space s.
Proof.
  destruct s as [|c s]; [reflexivity|]. cbn [lstrip starts_space].
  destruct (isspace c).
  - pose proof (lstrip_le s). apply Nat.leb_le. simpl. lia.
  - rewrite Nat.sub_diag. reflexivity.
Qed.

Lemma match_boundary (prev : option N) (s : str) :
  Re.match_here sentence_boundary prev s
  = match prev with
    | Some p => if is_terminator p && starts_space s then Some (lstrip s)
                else None
    | None => None
    end.
Proof.
  unfold Re.match_here, sentence_boundary. cbn [Re.mt].
  destruct prev as [p|]; [|reflexivity].
  destruct (is_terminator p); [|reflexivity].
  change (Re.mt (Re.Rep 1 (Re.Cls isspace)) (Some p) s Re.stop
          = if true && starts_space s then Some (lstrip s) else None).
  rewrite rep_space, run_starts. reflexivity.
Qed.

Lemma scan_bounds (r : Re.re) (s : str) :
  forall prev pos k,
    Forall (fun ab => pos <= fst ab /\ fst ab <= snd ab)
           (Re.scan r prev pos k s).
Proof.
  induction s as [|c s IH]; intros prev pos k; [constructor|].
  cbn [Re.scan].
  assert (W : forall l, Forall (fun ab => S pos <= fst ab /\ fst ab <= snd ab) l ->
                        Forall (fun ab => pos <= fst ab /\ fst ab <= snd ab) l).
  { intros l. apply List.Forall_impl. intros ab [H1 H2]. lia. }
  destruct k as [|k]; [|apply W, IH].
  destruct (Re.match_here r prev (c :: s)); [|apply W, IH].
  constructor; [simpl; lia | apply W, IH].
Qed.

Lemma split_at_cons (spans : list (nat * nat)) (pos : nat) (c : N) (s : str) :
  Forall (fun ab => S pos <= fst ab /\ fst ab <= snd ab) spans ->
  Re.split_at spans pos (c :: s) = cons_hd c (Re.split_at spans (S pos) s).
Proof.
  destruct spans as [|[a b] rest]; [reflexivity|].
  intros H. inversion H as [|? ? [Ha Hb] _]; subst. simpl in Ha, Hb.
  cbn [Re.split_at cons_hd].
  replace (a - pos) with (S (a - S pos)) by lia.
  replace (b - pos) with (S (b - S pos)) by lia.
  reflexivity.
Qed.

Lemma pieces_true_word (c : N) (s : str) :
  isspace c = false -> pieces true (c :: s) = pieces false (c :: s).
Proof. intros H. cbn [pieces]. rewrite H, andb_false_r. reflexivity. Qed.

Lemma scan_pieces (s : str) :
  (forall prev pos,
      Re.split_at (Re.scan sentence_boundary prev pos
                           (length s - length (lstrip s)) s)
                  (pos + (length s - length (lstrip s)))
                  (skipn (length s - length (lstrip s)) s)
      = pieces true s) /\
  (forall prev pos,
      match prev with
      | Some p => is_terminator p && starts_space s = false
      | None => True
      end ->
      Re.split_at (Re.scan sentence_boundary prev pos 0 s) pos s
      = pieces false s).
Proof.
  induction s as [|c s [IH1 IH2]]; [split; reflexivity|].
  assert (C2 : forall prev pos,
             match prev with
             | Some p => is_terminator p && starts_space (c :: s) = false
             | None => True
             end ->
             Re.split_at (Re.scan sentence_boundary prev pos 0 (c :: s)) pos
                         (c :: s)
             = pieces false (c :: s)).
  { intros prev pos Hpre. cbn [Re.scan]. rewrite match_boundary.
    assert (E : match prev with
                | Some p => if is_terminator p && starts_space (c :: s)
                            then Some (lstrip (c :: s)) else None
                | None => None
                end = None).
    { destruct prev as [p|]; [rewrite Hpre|]; reflexivity. }
    rewrite E. clear E. cbn [pieces andb].
    destruct (is_terminator c && starts_space s) eqn:Hc.
    - (* a separator starts right after [c] *)
      apply andb_true_iff in Hc as [Ht Hs].
      destruct s as [|c0 s0]; [discriminate|].
      cbn [Re.scan]. rewrite match_boundary, Ht, Hs. cbn [andb].
      set (n := length (c0 :: s0) - length (lstrip (c0 :: s0))).
      assert (Hn : 1 <= n)
        by (apply Nat.leb_le; unfold n; rewrite run_starts; exact Hs).
      cbn [Re.split_at].
      replace (S pos - pos) with 1 by lia.
      replace (S pos + n - pos) with (S n) by lia.
      cbn [firstn skipn]. f_equal.
      specialize (IH1 (Some c) (S pos)). fold n in IH1.
      destruct n as [|n']; [lia|]. cbn [Re.scan] in IH1.
      replace (S n' - 1) with n' by lia. exact IH1.
    - (* [c] stays in the piece *)
      rewrite split_at_cons by apply scan_bounds.
      rewrite IH2; [reflexivity | exact Hc]. }
  split; [|exact C2].
  intros prev pos. cbn [lstrip]. destruct (isspace c) eqn:Hc.
  - pose proof (lstrip_le s) as Hle.
    replace (length (c :: s) - length (lstrip s))
      with (S (length s - length (lstrip s))) by (simpl; lia).
    cbn [Re.scan skipn pieces andb]. rewrite Hc.
    rewrite <- (IH1 (Some c) (S pos)). f_equal. lia.
  - rewrite Nat.sub_diag, Nat.add_0_r. cbn [skipn].
    rewrite pieces_true_word by exact Hc. apply C2.
    destruct prev; [|exact I]. cbn [starts_space]. rewrite Hc.
    apply andb_false_r.
Qed.

(** The scan is [re.split] on the pattern, for every text. *)
Lemma split_sentences_is_split (text : str) :
  split_sentences text = Re.split sentence_boundary text.
Proof.
  unfold split_sentences, Re.split, Re.finditer. symmetry.
  apply (proj2 (scan_pieces text) None 0). exact I.
Qed.

End SentenceBoundary.

(** ** The chunker *)
Section Chunker.
Import Core ChunkSpec.

Example words_ex : words (u "  ab c   d ") = [u "ab"; u "c"; u "d"].
Proof. reflexivity. Qed.

Example split_sentences_ex :
  split_sentences (u "a.  b! c?d. ") = [u "a."; u "b!"; u "c?d."; []].
Proof. reflexivity. Qed.

Lemma words_starts (s : str) :
  starts_word s = true -> exists w ws, words s = w :: ws.
Proof.
  destruct s as [|c s]; [discriminate|]. simpl. intros H.
  apply negb_true_iff in H. rewrite H.
  destruct (starts_word s); [destruct (words s)|]; eauto.
Qed.

Lemma words_cons_word (c : N) (s : str) :
  isspace c = false -> starts_word s = true ->
  exists w ws, words s = w :: ws /\ words (c :: s) = (c :: w) :: ws.
Proof.
  intros Hc Hs. destruct (words_starts s Hs) as (w & ws & E).
  exists w, ws. split; [exact E|]. simpl. rewrite Hc, Hs, E. reflexivity.
Qed.

Lemma words_cons_alone (c : N) (s : str) :
  isspace c = false -> starts_word s = false ->
  words (c :: s) = [c] :: words s.
Proof. intros Hc Hs. simpl. rewrite Hc, Hs. reflexivity. Qed.

(** White space between two texts separates their words. *)
Lemma words_app_space (z : N) (a b : str) :
  isspace z = true -> words (a ++ z :: b) = words a ++ words b.
Proof.
  intros Hz. induction a as [|c a IH].
  - simpl. rewrite Hz. reflexivity.
  - cbn [app]. destruct (isspace c) eqn:Hc.
    + simpl. rewrite Hc. exact IH.
    + destruct a as [|x a].
      * cbn [app]. rewrite words_cons_alone; [|assumption|simpl; rewrite Hz; reflexivity].
        simpl. rewrite Hc, Hz. reflexivity.
      * destruct (starts_word (x :: a)) eqn:Hx.
        -- destruct (words_cons_word c (x :: a) Hc Hx) as (w & ws & E1 & E2).
           rewrite E2. rewrite E1 in IH.
           assert (Hx' : starts_word ((x :: a) ++ z :: b) = true) by exact Hx.
           destruct (words_cons_word c _ Hc Hx') as (w' & ws' & E3 & E4).
           rewrite E4. rewrite E3 in IH. simpl in IH. injection IH as -> ->.
           reflexivity.
        -- rewrite (words_cons_alone c (x :: a)) by assumption.
           rewrite (words_cons_alone c ((x :: a) ++ z :: b)) by assumption.
           rewrite IH. reflexivity.
Qed.

Lemma words_blank (s : str) : forallb isspace s = true -> words s = [].
Proof.
  induction s as [|c s IH]; [reflexivity|]. simpl.
  intros H. apply andb_true_iff in H as [Hc Hs]. rewrite Hc. auto.
Qed.

Lemma words_lstrip (s : str) : words (lstrip s) = words s.
Proof.
  induction s as [|c s IH]; [reflexivity|]. simpl.
  destruct (isspace c) eqn:Hc; [exact IH|]. simpl. rewrite Hc. reflexivity.
Qed.

Lemma rstrip_nil (s : str) : rstrip s = [] -> forallb isspace s = true.
Proof.
  induction s as [|c s IH]; [reflexivity|]. simpl.
  destruct (rstrip s) as [|x r]; [|discriminate].
  destruct (isspace c); [auto | discriminate].
Qed.

Lemma rstrip_blank (s : str) : forallb isspace s = true -> rstrip s = [].
Proof.
  induction s as [|c s IH]; [reflexivity|]. simpl.
  intros H. apply andb_true_iff in H as [Hc Hs].
  rewrite IH, Hc by assumption. reflexivity.
Qed.

Lemma rstrip_starts (s : str) :
  rstrip s <> [] -> starts_word (rstrip s) = starts_word s.
Proof.
  destruct s as [|c s]; [reflexivity|]. simpl.
  destruct (rstrip s) as [|x r] eqn:E.
  - destruct (isspace c) eqn:Hc; [contradiction|]. simpl. rewrite Hc. reflexivity.
  - reflexivity.
Qed.

Lemma words_rstrip (s : str) : words (rstrip s) = words s.
Proof.
  induction s as [|c s IH]; [reflexivity|].
  cbn [rstrip]. destruct (rstrip s) as [|x r] eqn:E.
  - pose proof (rstrip_nil s E) as Hs. rewrite (words_blank s Hs) in IH.
    destruct (isspace c) eqn:Hc.
    + simpl. rewrite Hc, (words_blank s Hs). reflexivity.
    + rewrite (words_cons_alone c s); try assumption.
      * rewrite (words_blank s Hs). simpl. rewrite Hc. reflexivity.
      * destruct s as [|y s]; [reflexivity|]. simpl in *.
        apply andb_true_iff in Hs as [-> _]. reflexivity.
  - assert (Hst : starts_word (x :: r) = starts_word s).
    { rewrite <- E. apply rstrip_starts. rewrite E. discriminate. }
    destruct (isspace c) eqn:Hc.
    + simpl. rewrite Hc. exact IH.
    + destruct (starts_word s) eqn:Hs.
      * destruct (words_cons_word c s Hc Hs) as (w & ws & E1 & E2).
        destruct (words_cons_word c (x :: r) Hc Hst) as (w' & ws' & E3 & E4).
        rewrite E2, E4. congruence.
      * rewrite (words_cons_alone c s), (words_cons_alone c (x :: r))
          by assumption.
        congruence.
Qed.

Lemma words_strip (s : str) : words (strip s) = words s.
Proof. unfold strip. rewrite words_rstrip. apply words_lstrip. Qed.

Lemma words_join (l : list str) :
  words (str_join [SPACE] l) = flat_map words l.
Proof.
  induction l as [|x l IH]; [reflexivity|].
  destruct l as [|y l].
  - simpl. rewrite app_nil_r. reflexivity.
  - change (str_join [SPACE] (x :: y :: l))
      with (x ++ SPACE :: str_join [SPACE] (y :: l)).
    rewrite words_app_space by reflexivity. rewrite IH. reflexivity.
Qed.

(** *** Sentences *)

Lemma pieces_head (s : str) :
  exists p ps, pieces false s = p :: ps /\ starts_word p = starts_word s.
Proof.
  destruct s as [|c s]; [exists [], []; auto|].
  cbn [pieces andb].
  destruct (is_terminator c && starts_space s).
  - exists [c], (pieces true s). auto.
  - destruct (pieces false s) as [|p ps]; simpl; eauto.
Qed.

Lemma is_terminator_not_space (c : N) :
  is_terminator c = true -> isspace c = false.
Proof.
  unfold is_terminator. intros H.
  apply orb_true_iff in H as [H|H]; [apply orb_true_iff in H as [H|H]|];
    apply N.eqb_eq in H; subst c; reflexivity.
Qed.

Lemma starts_space_word (s : str) :
  starts_space s = true -> starts_word s = false.
Proof. destruct s; simpl; [discriminate | intros ->; reflexivity]. Qed.

Lemma words_pieces (s : str) :
  forall b, flat_map words (pieces b s) = words s.
Proof.
  induction s as [|c s IH]; intros b; [reflexivity|].
  cbn [pieces].
  destruct (b && isspace c) eqn:E1.
  - apply andb_true_iff in E1 as [_ Hc]. rewrite IH. simpl. rewrite Hc.
    reflexivity.
  - destruct (is_terminator c && starts_space s) eqn:E2.
    + apply andb_true_iff in E2 as [Ht Hs].
      cbn [flat_map]. rewrite IH.
      rewrite (words_cons_alone c s (is_terminator_not_space c Ht)
                 (starts_space_word s Hs)).
      simpl. rewrite (is_terminator_not_space c Ht). reflexivity.
    + destruct (pieces_head s) as (p & ps & Ep & Hp).
      specialize (IH false). rewrite Ep in *. cbn [cons_hd flat_map] in *.
      destruct (isspace c) eqn:Hc.
      * simpl. rewrite Hc. exact IH.
      * destruct (starts_word s) eqn:Hs.
        -- destruct (words_cons_word c s Hc Hs) as (w & ws & F1 & F2).
           destruct (words_cons_word c p Hc Hp) as (w' & ws' & F3 & F4).
           rewrite F2, F4. rewrite F1, F3 in IH. simpl in IH.
           injection IH as G1 G2. subst w ws. reflexivity.
        -- rewrite (words_cons_alone c s), (words_cons_alone c p)
             by assumption.
           simpl. rewrite IH. reflexivity.
Qed.

(** *** Chunks *)

Lemma words_extend (current sentence : str) :
  words (current ++ (if nonempty current then [SPACE] else []) ++ sentence)
  = words current ++ words sentence.
Proof.
  destruct current as [|c current]; [reflexivity|].
  cbn [nonempty]. cbn [app].
  change (c :: current ++ SPACE :: sentence)
    with ((c :: current) ++ SPACE :: sentence).
  apply words_app_space. reflexivity.
Qed.

Lemma words_close (chunks : list str) (current : str) :
  flat_map words (if nonempty current then chunks ++ [strip current]
                  else chunks)
  = flat_map words chunks ++ words current.
Proof.
  destruct current as [|c current]; cbn [nonempty].
  - simpl. rewrite app_nil_r. reflexivity.
  - rewrite flat_map_app. simpl. rewrite app_nil_r, words_strip. reflexivity.
Qed.

Lemma words_chunk_fold (chunk_size : nat) (sentences : list str) :
  forall chunks current,
    let (chunks', current') :=
      fold_left (chunk_step chunk_size) sentences (chunks, current) in
    flat_map words chunks' ++ words current'
    = flat_map words chunks ++ words current ++ flat_map words sentences.
Proof.
  induction sentences as [|s sentences IH]; intros chunks current.
  - simpl. rewrite app_nil_r. reflexivity.
  - cbn [fold_left chunk_step flat_map].
    destruct (chunk_size <? length (current ++ s)).
    + specialize (IH (if nonempty current then chunks ++ [strip current]
                      else chunks) s).
      destruct (fold_left _ _ _) as [chunks' current'].
      rewrite IH, words_close, <- !app_assoc. reflexivity.
    + specialize (IH chunks (current ++ (if nonempty current then [SPACE]
                                         else []) ++ s)).
      destruct (fold_left _ _ _) as [chunks' current'].
      rewrite IH, words_extend, <- !app_assoc. reflexivity.
Qed.

Lemma words_make_chunks (chunk_size : nat) (sentences : list str) :
  flat_map words (make_chunks chunk_size sentences)
  = flat_map words sentences.
Proof.
  unfold make_chunks.
  pose proof (words_chunk_fold chunk_size sentences [] []) as H.
  destruct (fold_left _ _ _) as [chunks current].
  rewrite words_close, H. reflexivity.
Qed.

End Chunker.

(** C2, as amended.  Joining the chunks of a text with single spaces gives
    the text up to white-space normalisation: the two have the same
    normal form, for every maximal size (the white space at a sentence
    boundary and at the ends of a chunk is not kept as it was). *)
Theorem chunk_reconstruction (chunk_size : nat) (protected_text : str) :
  ChunkSpec.normalize_ws
    (str_join [SPACE] (Core.chunk chunk_size protected_text))
  = ChunkSpec.normalize_ws protected_text.
Proof.
  unfold ChunkSpec.normalize_ws, Core.chunk, Core.split_sentences.
  rewrite words_join, words_make_chunks, words_pieces. reflexivity.
Qed.

(** C2, as stated, fails: the page break after "A." is white space of the
    original text that no normalisation of the joined chunks brings back. *)
Lemma chunk_join_loses_whitespace :
  Core.chunk 3000 Samples.two_pages = [u "A. B."] /\
  ChunkSpec.normalize_ws (str_join [SPACE] (Core.chunk 3000 Samples.two_pages))
  = u "A. B." /\
  ChunkSpec.normalize_ws (str_join [SPACE] (Core.chunk 3000 Samples.two_pages))
  <> Samples.two_pages.
Proof.
  repeat split; try (vm_compute; reflexivity).
  vm_compute. discriminate.
Qed.

(** The slices of the web application: glued together they are the text,
    joined with spaces they are not. *)
Lemma slices_concat (fuel n : nat) (text : str) :
  0 < n -> length text <= fuel ->
  concat (Webapp.slices fuel n text) = text.
Proof.
  intros Hn. revert text. induction fuel as [|fuel IH]; intros text Hlen.
  - destruct text; [reflexivity | simpl in Hlen; lia].
  - destruct text as [|c text]; [reflexivity|].
    cbn [Webapp.slices concat]. rewrite IH.
    + apply firstn_skipn.
    + rewrite List.length_skipn. simpl in *. lia.
Qed.

Example slices_join_ex :
  str_join [SPACE] (Webapp.chunks_of 3 (u "abcdef")) = u "abc def".
Proof. reflexivity. Qed.

(** *** The size of a chunk *)
Section ChunkSize.
Import Core ChunkSpec.

Lemma rstrip_length (s : str) : length (rstrip s) <= length s.
Proof.
  induction s as [|c s IH]; simpl; [lia|].
  destruct (rstrip s); [destruct (isspace c)|]; simpl in *; lia.
Qed.

Lemma strip_length (s : str) : length (strip s) <= length s.
Proof.
  unfold strip. etransitivity; [apply rstrip_length | apply lstrip_le].
Qed.

Lemma close_ok (n : nat) (all : list str) (chunks : list str) (current : str) :
  Forall (chunk_ok n all) chunks -> current_ok n all current ->
  Forall (chunk_ok n all)
         (if nonempty current then chunks ++ [strip current] else chunks).
Proof.
  intros Hch Hcur. destruct (nonempty current); [|exact Hch].
  apply Forall_app. split; [exact Hch|]. constructor; [|constructor].
  destruct Hcur as [H|H].
  - left. pose proof (strip_length current). lia.
  - right. exists current. auto.
Qed.

Lemma chunk_fold_ok (n : nat) (all sentences : list str) :
  forall chunks current,
    incl sentences all ->
    Forall (chunk_ok n all) chunks -> current_ok n all current ->
    let (chunks', current') :=
      fold_left (chunk_step n) sentences (chunks, current) in
    Forall (chunk_ok n all) chunks' /\ current_ok n all current'.
Proof.
  induction sentences as [|s sentences IH]; intros chunks current Hin Hch Hcur.
  - simpl. auto.
  - cbn [fold_left chunk_step].
    assert (Hs : In s all) by (apply Hin; left; reflexivity).
    assert (Hin' : incl sentences all)
      by (intros x Hx; apply Hin; right; exact Hx).
    destruct (n <? length (current ++ s)) eqn:E.
    + apply IH; [exact Hin' | apply close_ok; assumption | right; exact Hs].
    + apply Nat.ltb_ge in E. apply IH; [exact Hin' | exact Hch |].
      left. rewrite length_app in E. rewrite !length_app.
      destruct (nonempty current); simpl; lia.
Qed.

(** What the loop does keep to: a chunk is one sentence, or it is at most
    one code point longer than the maximal size. *)
Lemma chunk_size_plus_one (n : nat) (text : str) :
  Forall (chunk_ok n (split_sentences text)) (chunk n text).
Proof.
  unfold chunk, make_chunks.
  pose proof (chunk_fold_ok n (split_sentences text) (split_sentences text)
                [] [] (incl_refl _) (List.Forall_nil _)) as H.
  destruct (fold_left _ _ _) as [chunks current].
  destruct H as [Hch Hcur]; [left; simpl; lia|].
  apply close_ok; assumption.
Qed.

End ChunkSize.

(** C3 at two sentences of 1500 code points with the maximal size 3000: the
    test [len(current_chunk + sentence) > 3000] leaves out the space that
    joins them, both go into one chunk, and the chunk holds 3001 code
    points. *)
Lemma chunk_exceeds_max_size :
  map (@length N) (Core.split_sentences Samples.long_pair) = [1500; 1500] /\
  Core.chunk 3000 Samples.long_pair = [Samples.long_pair] /\
  length Samples.long_pair = 3001.
Proof. repeat split; vm_compute; reflexivity. Qed.

Example chunk_exceeds_small : Core.chunk 5 (u "ab. c.") = [u "ab. c."].
Proof. reflexivity. Qed.

(** ** The pipeline *)

Lemma lstrip_blank (s : str) :
  Forall (fun c => isspace c = true) s -> lstrip s = [].
Proof. induction 1 as [|c s Hc _ IH]; simpl; [reflexivity|]. rewrite Hc. exact IH. Qed.

Lemma strip_blank (s : str) :
  Forall (fun c => isspace c = true) s -> strip s = [].
Proof. intros H. unfold strip. rewrite lstrip_blank by assumption. reflexivity. Qed.

(** C10.  On a text whose code points are all white space (the empty text
    included) the chunked translation of either module returns the text as it
    is and leaves the world and the trace as they were: nothing is
    submitted to the service. *)
Theorem blank_input_identity {W : Type} (env : Env W) (chunk_size : nat)
    (text src dest : str) (st : W * list event) :
  Forall (fun c => isspace c = true) text ->
  Core.translate_text_chunks env chunk_size text src dest st
  = (Return text, st) /\
  Webapp.translate_text_chunks env chunk_size text src dest st
  = (Return text, st).
Proof.
  intros H. unfold Core.translate_text_chunks, Webapp.translate_text_chunks.
  rewrite (strip_blank text H). split; reflexivity.
Qed.

Lemma blank_input_identity_witness :
  let text := [SPACE; NEWLINE; 9%N] in
  Core.translate_text_chunks (Samples.desk Samples.one_page Samples.english)
    3000 text (u "fr") (u "en") Samples.start
  = (Return text, Samples.start) /\
  Webapp.translate_text_chunks (Samples.desk Samples.one_page Samples.english)
    3000 text (u "fr") (u "en") Samples.start
  = (Return text, Samples.start).
Proof.
  apply (blank_input_identity (Samples.desk Samples.one_page Samples.english)
           3000 [SPACE; NEWLINE; 9%N] (u "fr") (u "en") Samples.start).
  repeat constructor.
Defined.

(** *** Retries and fallback *)
Section Retry.
Import Core PipelineSpec.
Context {W : Type} (env : Env W).
Variables src dest : str.

Lemma translate_calls_app (a b : list event) :
  translate_calls (a ++ b) = translate_calls a ++ translate_calls b.
Proof.
  induction a as [|e a IH]; [reflexivity|].
  destruct e; simpl; rewrite IH; reflexivity.
Qed.

Lemma payload_some (t : translated) (r : str) :
  payload t = Some r -> t = Translated (Some r) /\ r <> [].
Proof.
  destruct t as [|[[|c s]|]]; simpl; try discriminate.
  intros H. injection H as <-. split; [reflexivity | discriminate].
Qed.

Lemma pace_run (i : nat) (w : W) (trace : list event) :
  (if 0 <? i then sleep 200 else ret tt) (w, trace)
  = (Return tt, (w, trace ++ (if 0 <? i then [EvSleep 200] else []))).
Proof.
  destruct (0 <? i); [reflexivity|]. unfold ret. rewrite app_nil_r. reflexivity.
Qed.

(** One attempt: the call, and the pause after an exception in attempt 0. *)
Lemma attempt_once_run (chunk : str) (a : nat) (w : W) (trace : list event) :
  attempt_once env chunk src dest a (w, trace)
  = (Return (reply_payload (fst (api_translate env w chunk src dest))),
     (snd (api_translate env w chunk src dest),
      trace ++ EvTranslate chunk src dest
        :: match fst (api_translate env w chunk src dest) with
           | Return _ => []
           | Raise _ => if a =? 0 then [EvSleep 500] else []
           end)).
Proof.
  unfold attempt_once, try_except, bind, external, ret.
  destruct (api_translate env w chunk src dest) as [[t|e] w1]; cbn [fst snd].
  - reflexivity.
  - unfold reply_payload. destruct (a =? 0); unfold sleep.
    + rewrite <- app_assoc. reflexivity.
    + reflexivity.
Qed.

(** One chunk: the loop body returns, after one or two calls. *)
Lemma translate_chunk_spec (i : nat) (chunk : str) (w : W) (trace : list event) :
  exists r w' evs,
    translate_chunk env src dest i chunk (w, trace)
    = (Return r, (w', trace ++ evs)) /\
    one_or_two chunk (translate_calls evs) /\
    slot_ok env src dest chunk r.
Proof.
  unfold translate_chunk, try_except. unfold bind at 1. rewrite pace_run.
  set (pre := if 0 <? i then [EvSleep 200] else []).
  assert (Hpre : translate_calls pre = [])
    by (unfold pre; destruct (0 <? i); reflexivity).
  unfold bind at 1. cbn [seq attempts]. unfold bind at 1.
  rewrite attempt_once_run.
  destruct (api_translate env w chunk src dest) as [r1 w1] eqn:E1. cbn [fst snd].
  set (mid := match r1 with Return _ => [] | Raise _ => [EvSleep 500] end).
  assert (Hmid : translate_calls mid = [])
    by (unfold mid; destruct r1; reflexivity).
  assert (Emid : match r1 with
                 | Return _ => []
                 | Raise _ => if 0 =? 0 then [EvSleep 500] else []
                 end = mid) by reflexivity.
  rewrite Emid. clear Emid.
  destruct (reply_payload r1) as [t1|] eqn:P1.
  - (* the first attempt succeeds *)
    exists t1, w1, (pre ++ EvTranslate chunk src dest :: mid).
    unfold ret. rewrite <- app_assoc. split; [reflexivity|].
    rewrite translate_calls_app, Hpre. cbn [translate_calls app]. rewrite Hmid.
    split; [left; reflexivity|].
    destruct r1 as [tr1|e1]; [|discriminate]. simpl in P1.
    apply payload_some in P1 as [-> Hne]. split.
    + right. split; [exact Hne|]. exists w. rewrite E1. reflexivity.
    + intros Hfail. specialize (Hfail w). rewrite E1 in Hfail. simpl in Hfail.
      destruct t1; [contradiction | discriminate].
  - (* the first attempt fails: one more *)
    unfold bind at 1. rewrite attempt_once_run.
    destruct (api_translate env w1 chunk src dest) as [r2 w2] eqn:E2.
    cbn [fst snd].
    set (fin := match r2 with
                | Return _ => []
                | Raise _ => if 1 =? 0 then [EvSleep 500] else []
                end).
    assert (Hfin : translate_calls fin = [])
      by (unfold fin; destruct r2; reflexivity).
    exists (match reply_payload r2 with Some t => t | None => chunk end), w2,
      (pre ++ (EvTranslate chunk src dest :: mid)
           ++ EvTranslate chunk src dest :: fin).
    split; [|split; [|split]].
    + destruct (reply_payload r2); unfold ret; rewrite <- !app_assoc;
        reflexivity.
    + rewrite !translate_calls_app, Hpre. cbn [translate_calls app].
      rewrite Hmid, Hfin. right. reflexivity.
    + destruct (reply_payload r2) as [t2|] eqn:P2; [|left; reflexivity].
      destruct r2 as [tr2|e2]; [|discriminate]. simpl in P2.
      apply payload_some in P2 as [-> Hne].
      right. split; [exact Hne|]. exists w1. rewrite E2. reflexivity.
    + intros Hfail. specialize (Hfail w1). rewrite E2 in Hfail. simpl in Hfail.
      rewrite Hfail. reflexivity.
Qed.

End Retry.

Section RetryLoop.
Import Core PipelineSpec.
Context {W : Type} (env : Env W).
Variables src dest : str.

Lemma translate_loop_spec (chunks : list str) :
  forall (i : nat) (w : W) (trace : list event),
  exists results w' evs per_chunk,
    translate_loop env src dest i chunks (w, trace)
    = (Return results, (w', trace ++ evs)) /\
    translate_calls evs = concat per_chunk /\
    Forall2 one_or_two chunks per_chunk /\
    Forall2 (slot_ok env src dest) chunks results.
Proof.
  induction chunks as [|chunk chunks IH]; intros i w trace.
  - exists [], w, [], []. simpl. unfold ret. rewrite app_nil_r.
    repeat split; constructor.
  - destruct (translate_chunk_spec env src dest i chunk w trace)
      as (r & w1 & evs1 & E1 & Hcalls & Hslot).
    destruct (IH (S i) w1 (trace ++ evs1))
      as (rs & w2 & evs2 & per & E2 & Hper & Hc2 & Hs2).
    exists (r :: rs), w2, (evs1 ++ evs2), (translate_calls evs1 :: per).
    cbn [translate_loop]. unfold bind at 1. rewrite E1.
    unfold bind at 1. rewrite E2. unfold ret. rewrite <- app_assoc.
    split; [reflexivity|]. split; [|split].
    + rewrite translate_calls_app, Hper. reflexivity.
    + constructor; assumption.
    + constructor; assumption.
Qed.

Lemma translate_text_chunks_returns (chunk_size : nat) (text : str)
    (st : W * list event) :
  exists out st',
    translate_text_chunks env chunk_size text src dest st = (Return out, st').
Proof.
  unfold translate_text_chunks. destruct (strip text); [unfold ret; eauto|].
  destruct (preserve_names_and_entities env text) as [protected entities].
  destruct st as [w trace].
  destruct (translate_loop_spec (chunk chunk_size protected) 0 w trace)
    as (rs & w' & evs & per & E & _).
  unfold bind. rewrite E. unfold ret. eauto.
Qed.

End RetryLoop.

Section RetryOutcome.
Import Core PipelineSpec RunSpec.
Context {W : Type} (env : Env W).
Variables src dest : str.




End RetryOutcome.


(** With the service down every chunk is tried twice, with the pause after
    the first failure and the pacing delay before each chunk but the first,
    and stands in the result as it was. *)
Example service_down_falls_back :
  Core.translate_loop (Samples.desk Samples.one_page Samples.service_down)
    (u "fr") (u "en") 0 [u "Bonjour."; u "Merci."] Samples.start
  = (Return [u "Bonjour."; u "Merci."],
     (tt, [EvTranslate (u "Bonjour.") (u "fr") (u "en"); EvSleep 500;
           EvTranslate (u "Bonjour.") (u "fr") (u "en");
           EvSleep 200;
           EvTranslate (u "Merci.") (u "fr") (u "en"); EvSleep 500;
           EvTranslate (u "Merci.") (u "fr") (u "en")])).
Proof. vm_compute. reflexivity. Qed.

(** A service that raises for the first two requests it gets and answers
    the later ones: both attempts for the first chunk fail and the chunk
    stands at its place in the result; the second chunk is translated at
    the first attempt. *)
Example fallback_keeps_the_place :
  Core.chunk 8 (u "Bonjour. Merci.") = [u "Bonjour."; u "Merci."] /\
  Core.translate_text_chunks (Cases.flaky 2 (u "Thanks.")) 8
    (u "Bonjour. Merci.") (u "fr") (u "en") (0, [])
  = (Return (u "Bonjour. Thanks."),
     (3, [EvTranslate (u "Bonjour.") (u "fr") (u "en"); EvSleep 500;
          EvTranslate (u "Bonjour.") (u "fr") (u "en");
          EvSleep 200;
          EvTranslate (u "Merci.") (u "fr") (u "en")])).
Proof. split; vm_compute; reflexivity. Qed.

(** *** The single document *)

(** C7.  When the text extracted from the file is empty or all white space,
    the single-document pipeline raises the content error right after the
    extraction: the only event is the read of the file, so the language is
    not detected, nothing is submitted for translation and no document is
    written. *)
Theorem empty_document_rejected {W : Type} (env : Env W) (output_dir : str)
    (chunk_size : nat) (input_path : str) (output_filename : option str)
    (source_lang text : str) (st st' : W * list event) :
  path_exists env (fst st) input_path = true ->
  Core.extract_text_from_pdf env input_path st = (Return text, st') ->
  Forall (fun c => isspace c = true) text ->
  Core.translate_single_pdf env output_dir chunk_size input_path
                            output_filename source_lang st
  = (Raise (ValueError (u "No text found in PDF")), st') /\
  snd st' = snd st ++ [EvRead input_path].
Proof.
  intros Hex Hext Hblank. split.
  - unfold Core.translate_single_pdf. unfold bind at 1.
    unfold Core.path_exists_m. rewrite Hex. cbn [negb].
    unfold bind at 1. rewrite Hext. rewrite (strip_blank text Hblank).
    reflexivity.
  - unfold Core.extract_text_from_pdf, bind, external, ret in Hext.
    destruct st as [w trace].
    destruct (read_pages env w input_path) as [[pages|e] w1];
      [|discriminate].
    injection Hext as _ <-. reflexivity.
Qed.

Lemma empty_document_rejected_witness :
  Core.translate_single_pdf (Samples.desk Samples.blank_pages Samples.english)
    (u "out") 3000 (u "in/a.pdf") None (u "auto") Samples.start
  = (Raise (ValueError (u "No text found in PDF")),
     (tt, [EvRead (u "in/a.pdf")])).
Proof.
  apply (empty_document_rejected
           (Samples.desk Samples.blank_pages Samples.english) (u "out") 3000
           (u "in/a.pdf") None (u "auto") [] Samples.start
           (tt, [EvRead (u "in/a.pdf")])).
  - reflexivity.
  - vm_compute. reflexivity.
  - constructor.
Defined.

(** *** The batch *)
Section Batch.
Import Core PipelineSpec.
Context {W : Type} (env : Env W).
Variable output_dir : str.
Variable chunk_size : nat.
Variable source_lang : str.

Lemma batch_loop_per_file (pdf_files : list str) :
  forall (acc : list str * list str) (st : W * list event),
    batch_loop env output_dir chunk_size source_lang pdf_files acc st
    = (Return
         (fst acc ++ successes (fst (per_file env output_dir chunk_size
                                       source_lang pdf_files st)),
          snd acc ++ failures (fst (per_file env output_dir chunk_size
                                      source_lang pdf_files st))),
       snd (per_file env output_dir chunk_size source_lang pdf_files st)).
Proof.
  induction pdf_files as [|f files IH]; intros acc st.
  - simpl. unfold ret. rewrite !app_nil_r. destruct acc. reflexivity.
  - cbn [batch_loop per_file]. unfold bind at 1. unfold try_except.
    unfold bind at 1.
    destruct (translate_single_pdf env output_dir chunk_size f None
                source_lang st) as [[o|e] st1].
    + unfold ret at 1. rewrite IH.
      destruct (per_file env output_dir chunk_size source_lang files st1)
        as [rs st2].
      cbn [fst snd successes failures]. rewrite <- app_assoc. reflexivity.
    + unfold ret at 1. rewrite IH.
      destruct (per_file env output_dir chunk_size source_lang files st1)
        as [rs st2].
      cbn [fst snd successes failures]. rewrite <- app_assoc. reflexivity.
Qed.

Lemma per_file_files (pdf_files : list str) (st : W * list event) :
  map fst (fst (per_file env output_dir chunk_size source_lang pdf_files st))
  = pdf_files.
Proof.
  revert st. induction pdf_files as [|f files IH]; intros st; [reflexivity|].
  cbn [per_file].
  destruct (translate_single_pdf env output_dir chunk_size f None
              source_lang st) as [r st1].
  specialize (IH st1).
  destruct (per_file env output_dir chunk_size source_lang files st1)
    as [rs st2].
  simpl in *. rewrite IH. reflexivity.
Qed.

Lemma successes_failures_length (l : list (str * result str)) :
  length (successes l) + length (failures l) = length l.
Proof.
  induction l as [|[f [o|e]] l IH]; simpl; lia.
Qed.

End Batch.

(** C8, as amended.  The batch runs the single-document pipeline on every
    matched file in order; a file whose run raises is caught and recorded in
    the failure list and the files after it are still run, so every file
    ends in exactly one of the two lists.  What the batch returns is the
    list of the output paths of the files that succeeded, in order: the
    failure list is not part of it.  For three files of which only the
    second fails, the returned list is the first and the third output and
    the failure list is the second file. *)
Theorem batch_partial_failure {W : Type} (env : Env W) (output_dir : str)
    (chunk_size : nat) (input_directory pattern source_lang : str)
    (st : W * list event) :
  path_exists env (fst st) input_directory = true ->
  path_glob env (fst st) input_directory pattern <> [] ->
  let pdf_files := path_glob env (fst st) input_directory pattern in
  let run := PipelineSpec.per_file env output_dir chunk_size source_lang
                                   pdf_files st in
  map fst (fst run) = pdf_files /\
  Core.batch_loop env output_dir chunk_size source_lang pdf_files ([], []) st
  = (Return (PipelineSpec.successes (fst run), PipelineSpec.failures (fst run)),
     snd run) /\
  length (PipelineSpec.successes (fst run))
  + length (PipelineSpec.failures (fst run)) = length pdf_files /\
  Core.batch_translate_pdfs env output_dir chunk_size input_directory pattern
                            source_lang st
  = (Return (PipelineSpec.successes (fst run)), snd run) /\
  (forall f1 f2 f3 o1 e2 o3 st1 st2 st3,
      pdf_files = [f1; f2; f3] ->
      Core.translate_single_pdf env output_dir chunk_size f1 None
                                source_lang st = (Return o1, st1) ->
      Core.translate_single_pdf env output_dir chunk_size f2 None
                                source_lang st1 = (Raise e2, st2) ->
      Core.translate_single_pdf env output_dir chunk_size f3 None
                                source_lang st2 = (Return o3, st3) ->
      PipelineSpec.successes (fst run) = [o1; o3] /\
      PipelineSpec.failures (fst run) = [f2] /\ snd run = st3).
Proof.
  intros Hex Hfiles pdf_files run.
  assert (Hloop := batch_loop_per_file env output_dir chunk_size source_lang
                     pdf_files ([], []) st).
  cbn [fst snd app] in Hloop. fold run in Hloop.
  split; [apply per_file_files|]. split; [exact Hloop|]. split.
  - rewrite successes_failures_length, <- (per_file_files env output_dir
      chunk_size source_lang pdf_files st) at 1.
    fold run. rewrite length_map. reflexivity.
  - split.
    + unfold Core.batch_translate_pdfs. unfold bind at 1.
      unfold Core.path_exists_m. rewrite Hex. cbn [negb].
      unfold bind at 1. fold pdf_files.
      destruct pdf_files as [|f files] eqn:E; [contradiction|].
      unfold bind. rewrite Hloop. reflexivity.
    + intros f1 f2 f3 o1 e2 o3 st1 st2 st3 E H1 H2 H3.
      unfold run. rewrite E. cbn [PipelineSpec.per_file].
      rewrite H1, H2, H3. repeat split; reflexivity.
Qed.

Lemma batch_partial_failure_witness :
  let env := Samples.desk Samples.second_unreadable Samples.english in
  let pdf_files := path_glob env tt (u "in") (u "*.pdf") in
  let run := PipelineSpec.per_file env (u "out") 3000 (u "auto") pdf_files
                                   Samples.start in
  map fst (fst run) = pdf_files /\
  Core.batch_loop env (u "out") 3000 (u "auto") pdf_files ([], [])
                  Samples.start
  = (Return (PipelineSpec.successes (fst run), PipelineSpec.failures (fst run)),
     snd run) /\
  length (PipelineSpec.successes (fst run))
  + length (PipelineSpec.failures (fst run)) = length pdf_files /\
  Core.batch_translate_pdfs env (u "out") 3000 (u "in") (u "*.pdf") (u "auto")
                            Samples.start
  = (Return (PipelineSpec.successes (fst run)), snd run) /\
  (forall f1 f2 f3 o1 e2 o3 st1 st2 st3,
      pdf_files = [f1; f2; f3] ->
      Core.translate_single_pdf env (u "out") 3000 f1 None (u "auto")
                                Samples.start = (Return o1, st1) ->
      Core.translate_single_pdf env (u "out") 3000 f2 None (u "auto") st1
      = (Raise e2, st2) ->
      Core.translate_single_pdf env (u "out") 3000 f3 None (u "auto") st2
      = (Return o3, st3) ->
      PipelineSpec.successes (fst run) = [o1; o3] /\
      PipelineSpec.failures (fst run) = [f2] /\ snd run = st3).
Proof.
  apply (batch_partial_failure
           (Samples.desk Samples.second_unreadable Samples.english)
           (u "out") 3000 (u "in") (u "*.pdf") (u "auto") Samples.start).
  - reflexivity.
  - discriminate.
Defined.

(** C8, as stated, fails in its last part.  Three files are matched and the
    second cannot be read: the run of the files has three outcomes, the
    middle one an error, and the batch returns the two output paths only,
    not a list with a result or an error for every file. *)
Lemma batch_returns_successes_only :
  let env := Samples.desk Samples.second_unreadable Samples.english in
  path_glob env tt (u "in") (u "*.pdf")
  = [u "in/a.pdf"; u "in/b.pdf"; u "in/c.pdf"] /\
  map snd (fst (PipelineSpec.per_file env (u "out") 3000 (u "auto")
                  [u "in/a.pdf"; u "in/b.pdf"; u "in/c.pdf"] Samples.start))
  = [Return (u "out/a_translated_en.pdf"); Raise (LibraryError 1);
     Return (u "out/c_translated_en.pdf")] /\
  fst (Core.batch_translate_pdfs env (u "out") 3000 (u "in") (u "*.pdf")
                                 (u "auto") Samples.start)
  = Return [u "out/a_translated_en.pdf"; u "out/c_translated_en.pdf"] /\
  fst (Core.batch_loop env (u "out") 3000 (u "auto")
                       [u "in/a.pdf"; u "in/b.pdf"; u "in/c.pdf"] ([], [])
                       Samples.start)
  = Return ([u "out/a_translated_en.pdf"; u "out/c_translated_en.pdf"],
            [u "in/b.pdf"]) /\
  length [u "out/a_translated_en.pdf"; u "out/c_translated_en.pdf"]
  <> length [u "in/a.pdf"; u "in/b.pdf"; u "in/c.pdf"].
Proof.
  repeat split; try (vm_compute; reflexivity).
  intros H. vm_compute in H. discriminate H.
Qed.

(** A whole run on one file: read, detect, translate, build. *)
Example single_document_run :
  Core.translate_single_pdf (Samples.desk Samples.one_page Samples.english)
    (u "out") 3000 (u "in/a.pdf") None (u "auto") Samples.start
  = (Return (u "out/a_translated_en.pdf"),
     (tt, [EvRead (u "in/a.pdf"); EvDetect (u "Bonjour. Merci.");
           EvTranslate (u "Bonjour. Merci.") (u "fr") (u "en");
           EvBuild (u "out/a_translated_en.pdf") (u "Translated: a.pdf")
                   [u "Hello. Thanks."]])).
Proof. vm_compute. reflexivity. Qed.

(** ** The language table *)
Section LanguageTable.
Import Languages.

Example table_items :
  size table = 15 /\ table !! u "finnish" = Some (u "fi") /\
  table !! u "polish" = Some (u "pl") /\ table !! u "klingon" = None.
Proof. vm_compute. repeat split. Qed.

Lemma step_intact (c : client) (a : action) :
  table_intact c -> table_intact (step c a).
Proof.
  intros (Ht & Hheld & Hseen). destruct a as [|i mu]; simpl.
  - unfold get_supported_languages, dict_copy. rewrite Ht.
    assert (Hfresh : fresh (dom (store c)) <> table_ref).
    { intros E. apply (is_fresh (dom (store c))). rewrite E.
      apply elem_of_dom. eauto. }
    repeat split; simpl.
    + rewrite lookup_insert_ne by exact Hfresh. exact Ht.
    + apply Forall_app. split; [exact Hheld|]. constructor; [exact Hfresh|constructor].
    + apply Forall_app. split; [exact Hseen|]. constructor; [|constructor].
      rewrite lookup_insert_eq. reflexivity.
  - destruct (held c !! i) as [l|] eqn:E; [|repeat split; assumption].
    assert (Hl : l <> table_ref).
    { rewrite List.Forall_forall in Hheld. apply Hheld.
      apply list_elem_of_In. eapply list_elem_of_lookup_2. exact E. }
    repeat split; simpl; try assumption.
    unfold apply_mutation. destruct (store c !! l); [|exact Ht].
    rewrite lookup_insert_ne by exact Hl. exact Ht.
Qed.

Lemma run_intact (prog : list action) (c : client) :
  table_intact c -> table_intact (run prog c).
Proof.
  unfold run. revert c. induction prog as [|a prog IH]; intros c H; [exact H|].
  simpl. apply IH, step_intact, H.
Qed.

Lemma step_calls (c : client) (a : action) :
  table_intact c ->
  length (seen (step c a))
  = length (seen c) + match a with Call => 1 | Mutate _ _ => 0 end.
Proof.
  intros (Ht & _). destruct a as [|i mu]; simpl.
  - unfold get_supported_languages, dict_copy. rewrite Ht. simpl.
    rewrite length_app. reflexivity.
  - destruct (held c !! i); simpl; lia.
Qed.

Lemma run_calls (prog : list action) (c : client) :
  table_intact c ->
  length (seen (run prog c)) = length (seen c) + count_calls prog.
Proof.
  unfold run. revert c. induction prog as [|a prog IH]; intros c H.
  - simpl. lia.
  - simpl. rewrite IH by (apply step_intact, H).
    rewrite step_calls by exact H. destruct a; simpl; lia.
Qed.

End LanguageTable.

(** C9.  Whatever a front end does with the dictionaries it was handed
    (setting, deleting and updating items, clearing them), in any order and
    between any calls: every call of the accessor returns, what it returns
    is a dictionary equal to the static table, held at a new address that is
    not the table's, and the table itself stays as it was. *)
Theorem supported_languages_read_only (prog : list Languages.action)
    (h : gmap nat (gmap str str)) :
  h !! Languages.table_ref = Some Languages.table ->
  let c := Languages.run prog
             {| Languages.store := h; Languages.held := [];
                Languages.seen := [] |} in
  length (Languages.seen c) = Languages.count_calls prog /\
  Forall (fun d => d = Languages.table) (Languages.seen c) /\
  Forall (fun l => l <> Languages.table_ref) (Languages.held c) /\
  Languages.store c !! Languages.table_ref = Some Languages.table /\
  exists l h',
    Languages.get_supported_languages (Languages.store c) = Some (l, h') /\
    h' !! l = Some Languages.table /\
    Languages.store c !! l = None.
Proof.
  intros Ht c.
  assert (H0 : Languages.table_intact
                 {| Languages.store := h; Languages.held := [];
                    Languages.seen := [] |})
    by (repeat split; [exact Ht | constructor | constructor]).
  pose proof (run_intact prog _ H0) as (Hs & Hheld & Hseen).
  pose proof (run_calls prog _ H0) as Hlen. fold c in Hs, Hheld, Hseen, Hlen.
  repeat split; try assumption.
  exists (fresh (dom (Languages.store c))),
    (<[fresh (dom (Languages.store c)) := Languages.table]> (Languages.store c)).
  unfold Languages.get_supported_languages, Languages.dict_copy. rewrite Hs.
  repeat split.
  - apply lookup_insert_eq.
  - apply not_elem_of_dom, is_fresh.
Qed.

Lemma supported_languages_read_only_witness :
  let c := Languages.run
             [Languages.Call;
              Languages.Mutate 0 (Languages.SetItem (u "klingon") (u "tlh"));
              Languages.Mutate 0 (Languages.DelItem (u "french"));
              Languages.Call;
              Languages.Mutate 1 Languages.Clear;
              Languages.Call]
             {| Languages.store := Languages.initial; Languages.held := [];
                Languages.seen := [] |} in
  length (Languages.seen c) = 3 /\
  Forall (fun d => d = Languages.table) (Languages.seen c) /\
  Forall (fun l => l <> Languages.table_ref) (Languages.held c) /\
  Languages.store c !! Languages.table_ref = Some Languages.table /\
  exists l h',
    Languages.get_supported_languages (Languages.store c) = Some (l, h') /\
    h' !! l = Some Languages.table /\
    Languages.store c !! l = None.
Proof.
  apply (supported_languages_read_only
           [Languages.Call;
            Languages.Mutate 0 (Languages.SetItem (u "klingon") (u "tlh"));
            Languages.Mutate 0 (Languages.DelItem (u "french"));
            Languages.Call;
            Languages.Mutate 1 Languages.Clear;
            Languages.Call]
           Languages.initial).
  apply lookup_singleton_eq.
Defined.

(** The first dictionary handed out does change under its holder's hands;
    the table does not. *)
Example mutated_copy_differs :
  let c := Languages.run
             [Languages.Call;
              Languages.Mutate 0 (Languages.DelItem (u "french"))]
             {| Languages.store := Languages.initial; Languages.held := [];
                Languages.seen := [] |} in
  match Languages.held c with
  | [l] => (Languages.store c !! l) ≫= (fun d => d !! u "french") = None
  | _ => False
  end /\
  (Languages.store c !! Languages.table_ref) ≫= (fun d => d !! u "french")
  = Some (u "fr").
Proof. vm_compute. split; reflexivity. Qed.

(** ** Extraction and language detection *)
Section Trimming.
Import ChunkSpec TraceSpec.

Lemma lstrip_starts (s : str) : Core.starts_space (lstrip s) = false.
Proof.
  induction s as [|c s IH]; [reflexivity|]. simpl.
  destruct (isspace c) eqn:E; [exact IH|]. simpl. exact E.
Qed.

Lemma lstrip_fixed (s : str) : Core.starts_space s = false -> lstrip s = s.
Proof. destruct s as [|c s]; simpl; [reflexivity | intros ->; reflexivity]. Qed.

Lemma rstrip_keeps_head (s : str) :
  Core.starts_space s = false -> Core.starts_space (rstrip s) = false.
Proof.
  destruct s as [|c s]; [reflexivity|]. simpl. intros Hc.
  destruct (rstrip s); [rewrite Hc|]; simpl; assumption.
Qed.

Lemma rstrip_idem (s : str) : rstrip (rstrip s) = rstrip s.
Proof.
  induction s as [|c s IH]; [reflexivity|]. simpl.
  destruct (rstrip s) as [|x r] eqn:E.
  - destruct (isspace c) eqn:Hc; [reflexivity|]. simpl. rewrite Hc. reflexivity.
  - cbn [rstrip]. cbn [rstrip] in IH. rewrite IH. reflexivity.
Qed.

(** [strip] leaves nothing more to strip. *)
Lemma strip_idem (s : str) : strip (strip s) = strip s.
Proof.
  unfold strip. rewrite lstrip_fixed.
  - apply rstrip_idem.
  - apply rstrip_keeps_head, lstrip_starts.
Qed.

Lemma blank_forallb (s : str) : blank s <-> forallb isspace s = true.
Proof.
  unfold blank. rewrite forallb_forall, List.Forall_forall. reflexivity.
Qed.

Lemma lstrip_nil (s : str) : lstrip s = [] -> blank s.
Proof.
  induction s as [|c s IH]; simpl; intros H; [constructor|].
  destruct (isspace c) eqn:E; [|discriminate].
  constructor; [exact E | exact (IH H)].
Qed.

Lemma lstrip_suffix (s : str) : exists a, blank a /\ s = a ++ lstrip s.
Proof.
  induction s as [|c s (a & Ha & E)]; [exists []; split; [constructor | reflexivity]|].
  simpl. destruct (isspace c) eqn:Hc.
  - exists (c :: a). split; [constructor; assumption|]. simpl. congruence.
  - exists []. split; [constructor | reflexivity].
Qed.

Lemma strip_nil (s : str) : strip s = [] <-> blank s.
Proof.
  split; [|apply strip_blank].
  unfold strip. intros H. apply rstrip_nil, blank_forallb in H.
  destruct (lstrip_suffix s) as (a & Ha & E). rewrite E.
  apply Forall_app. split; assumption.
Qed.

Lemma blank_pages (pages : list str) :
  blank (flat_map (fun page => page ++ [NEWLINE; NEWLINE]) pages)
  <-> Forall blank pages.
Proof.
  unfold blank. induction pages as [|p pages IH]; cbn [flat_map].
  - split; constructor.
  - split.
    + intros H. apply Forall_app in H as [H1 H2].
      apply Forall_app in H1 as [H1 _].
      constructor; [exact H1 | apply IH, H2].
    + intros H. inversion H as [|? ? Hp Hps]; subst.
      apply Forall_app. split; [|apply IH, Hps].
      apply Forall_app. split; [exact Hp | repeat constructor].
Qed.

Lemma words_pages (pages : list str) :
  words (flat_map (fun page => page ++ [NEWLINE; NEWLINE]) pages)
  = flat_map words pages.
Proof.
  induction pages as [|p pages IH]; [reflexivity|].
  cbn [flat_map]. rewrite <- app_assoc. cbn [app].
  rewrite words_app_space by reflexivity.
  change (words (NEWLINE :: ?x)) with (words x).
  simpl. rewrite IH. reflexivity.
Qed.

End Trimming.

(** X1.  [extract_text_from_pdf] reads the file once.  When the reader
    fails, its exception is raised again.  Otherwise the text returned has
    no white space at either end, it is empty exactly when every page is
    blank (a document without pages included), and its words are the words
    of the pages, in page order. *)
Theorem extracted_text_is_trimmed {W : Type} (env : Env W) (pdf_path : str)
    (w : W) (trace : list event) :
  match read_pages env w pdf_path with
  | (Return pages, w') =>
      exists text,
        Core.extract_text_from_pdf env pdf_path (w, trace)
        = (Return text, (w', trace ++ [EvRead pdf_path])) /\
        strip text = text /\
        (text = [] <-> Forall TraceSpec.blank pages) /\
        ChunkSpec.words text = flat_map ChunkSpec.words pages
  | (Raise e, w') =>
      Core.extract_text_from_pdf env pdf_path (w, trace)
      = (Raise e, (w', trace ++ [EvRead pdf_path]))
  end.
Proof.
  unfold Core.extract_text_from_pdf, bind, external, ret.
  destruct (read_pages env w pdf_path) as [[pages|e] w']; [|reflexivity].
  eexists. split; [reflexivity|]. split; [apply strip_idem|]. split.
  - rewrite strip_nil. apply blank_pages.
  - rewrite words_strip. apply words_pages.
Qed.

Section Detecting.
Import Core.

Lemma sample_firstn (text : str) :
  (if 1000 <? length text then firstn 1000 text else text) = firstn 1000 text.
Proof.
  destruct (1000 <? length text) eqn:E; [reflexivity|].
  apply Nat.ltb_ge in E. symmetry. apply List.firstn_all2. lia.
Qed.

Lemma filter_none {A : Type} (p : A -> bool) (l : list A) :
  (forall x, In x l -> p x = false) -> filter p l = [].
Proof.
  induction l as [|x l IH]; intros H; [reflexivity|].
  rewrite filter_cons_False.
  - apply IH. intros y Hy. apply H. right. exact Hy.
  - rewrite (H x) by (left; reflexivity). exact id.
Qed.

(** No two languages of the table share a code: the name looked up for a
    code of the table is the name of its entry. *)
Lemma table_name_of_code (name lang : str) :
  In (name, lang) SUPPORTED_LANGUAGES ->
  map fst (filter (fun kv => str_eqb (snd kv) lang) SUPPORTED_LANGUAGES)
  = [name].
Proof.
  intros H. cbv in H.
  repeat (destruct H as [H|H];
          [injection H as <- <-; vm_compute; reflexivity|]).
  contradiction.
Qed.

End Detecting.

(** X2.  [detect_language] never raises.  It asks the service once, with
    the first 1000 code points of the text (the whole text when it is
    shorter).  When the service answers with a code, that code is the
    language; the language name is the table's name for the code when the
    table has it and the code itself otherwise.  When the service fails,
    both are 'unknown'. *)
Theorem detect_language_never_raises {W : Type} (env : Env W) (text : str)
    (w : W) (trace : list event) :
  let sample := firstn 1000 text in
  exists d,
    Core.detect_language env text (w, trace)
    = (Return d, (snd (api_detect env w sample), trace ++ [EvDetect sample])) /\
    length sample <= 1000 /\
    match fst (api_detect env w sample) with
    | Return lang =>
        Core.language d = lang /\
        (forall name, In (name, lang) SUPPORTED_LANGUAGES ->
                      Core.language_name d = name) /\
        ((forall name, ~ In (name, lang) SUPPORTED_LANGUAGES) ->
         Core.language_name d = lang)
    | Raise _ =>
        Core.language d = u "unknown" /\ Core.language_name d = u "unknown"
    end.
Proof.
  intros sample. unfold Core.detect_language, try_except, bind, external, ret.
  rewrite sample_firstn. fold sample.
  destruct (api_detect env w sample) as [[lang|e] w'] eqn:E; cbn [fst snd].
  - eexists. split; [reflexivity|]. split; [apply List.firstn_le_length|].
    cbn [Core.language Core.language_name]. split; [reflexivity|]. split.
    + intros name Hin. rewrite (table_name_of_code name lang Hin). reflexivity.
    + intros Hno. rewrite filter_none; [reflexivity|].
      intros [n c] Hin. cbn [snd].
      destruct (str_eqb c lang) eqn:Ec; [|reflexivity].
      apply str_eqb_eq in Ec. subst c. exfalso. exact (Hno n Hin).
  - eexists. split; [reflexivity|]. split; [apply List.firstn_le_length|].
    split; reflexivity.
Qed.

(** X3.  [restore_names_and_entities] leaves a text in which no
    placeholder of the map occurs as it is: a name whose placeholder the
    translation did not hand back is not put back. *)
Theorem restore_without_placeholders (translated_text : str)
    (entities : dict) :
  Forall (fun e => str_in (fst e) translated_text = false) entities ->
  Core.restore_names_and_entities translated_text entities = translated_text.
Proof.
  unfold Core.restore_names_and_entities.
  induction 1 as [|e entities He _ IH]; [reflexivity|].
  cbn [fold_left]. rewrite str_replace_absent by exact He. exact IH.
Qed.

Lemma restore_without_placeholders_witness :
  Core.restore_names_and_entities (u "NAME 0 called __NAME_1_")
    [(u "__NAME_0__", u "John Smith"); (u "__NAME_1__", u "Mary Jones")]
  = u "NAME 0 called __NAME_1_".
Proof.
  apply (restore_without_placeholders (u "NAME 0 called __NAME_1_")
           [(u "__NAME_0__", u "John Smith");
            (u "__NAME_1__", u "Mary Jones")]).
  repeat constructor.
Defined.

(** ** The requests of the chunked translation in src/pdf_translator.py *)
Section Solid.
Import Core ChunkSpec TraceSpec.

Lemma not_blank_inked (s : str) :
  ~ blank s -> exists c, In c s /\ isspace c = false.
Proof.
  induction s as [|c s IH]; intros H.
  - exfalso. apply H. constructor.
  - destruct (isspace c) eqn:E.
    + destruct IH as (x & Hx & Hs).
      * intros Hb. apply H. constructor; assumption.
      * exists x. split; [right; exact Hx | exact Hs].
    + exists c. split; [left; reflexivity | exact E].
Qed.

Lemma inked_not_blank (s : str) :
  (exists c, In c s /\ isspace c = false) -> ~ blank s.
Proof.
  intros (c & Hc & Hs) Hb. unfold blank in Hb.
  rewrite List.Forall_forall in Hb. specialize (Hb c Hc). congruence.
Qed.

Lemma strip_inked (s : str) :
  (exists c, In c s /\ isspace c = false) -> trimmed (strip s).
Proof.
  intros H. split; [|apply strip_idem].
  intros E. apply strip_nil in E. exact (inked_not_blank s H E).
Qed.

(** The sentences: all but the first are empty or hold a code point that
    is no white space, and so does the first when the text does. *)
Lemma pieces_solid (s : str) :
  forall b, exists p ps,
    pieces b s = p :: ps /\ Forall solid ps /\
    (b = true -> solid p) /\
    ((exists c, In c s /\ isspace c = false) ->
     exists c, In c p /\ isspace c = false).
Proof.
  induction s as [|c s IH]; intros b.
  - exists [], []. split; [reflexivity|]. split; [constructor|].
    split; [intros _; left; reflexivity|]. intros (x & [] & _).
  - cbn [pieces]. destruct (b && isspace c) eqn:E1.
    + apply andb_true_iff in E1 as [-> Hc].
      destruct (IH true) as (p & ps & E & Hps & Hp & Hink).
      exists p, ps. split; [exact E|]. split; [exact Hps|].
      split; [exact Hp|].
      intros (x & [<-|Hx] & Hs); [congruence|]. apply Hink. eauto.
    + destruct (is_terminator c && starts_space s) eqn:E2.
      * apply andb_true_iff in E2 as [Ht _].
        pose proof (is_terminator_not_space c Ht) as Hc.
        destruct (IH true) as (p & ps & E & Hps & Hp & _).
        exists [c], (p :: ps). rewrite E. split; [reflexivity|].
        split; [constructor; auto|]. split.
        -- intros _. right. exists c. split; [left; reflexivity | exact Hc].
        -- intros _. exists c. split; [left; reflexivity | exact Hc].
      * destruct (IH false) as (p & ps & E & Hps & _ & Hink).
        rewrite E. cbn [cons_hd]. exists (c :: p), ps.
        split; [reflexivity|]. split; [exact Hps|]. split.
        -- intros ->. cbn [andb] in E1. right. exists c.
           split; [left; reflexivity | exact E1].
        -- intros (x & [<-|Hx] & Hs).
           ++ exists c. split; [left; reflexivity | exact Hs].
           ++ destruct Hink as (y & Hy & Hys); [eauto|].
              exists y. split; [right; exact Hy | exact Hys].
Qed.

Lemma split_sentences_solid (text : str) :
  ~ blank text -> Forall solid (split_sentences text).
Proof.
  intros H. unfold split_sentences.
  destruct (pieces_solid text false) as (p & ps & E & Hps & _ & Hink).
  rewrite E. constructor; [|exact Hps].
  right. apply Hink, not_blank_inked, H.
Qed.

Lemma close_trimmed (chunks : list str) (current : str) :
  Forall trimmed chunks -> solid current ->
  Forall trimmed (if nonempty current then chunks ++ [strip current]
                  else chunks).
Proof.
  intros Hch Hcur. destruct current as [|c current]; [exact Hch|].
  cbn [nonempty]. apply Forall_app. split; [exact Hch|].
  constructor; [|constructor]. apply strip_inked.
  destruct Hcur as [|H]; [discriminate | exact H].
Qed.

Lemma extend_solid (current sentence : str) :
  solid current -> solid sentence ->
  solid (current ++ (if nonempty current then [SPACE] else []) ++ sentence).
Proof.
  intros Hcur Hs. destruct current as [|c current]; [exact Hs|].
  destruct Hcur as [|(x & Hx & Hxs)]; [discriminate|].
  right. exists x. split; [apply in_or_app; left; exact Hx | exact Hxs].
Qed.

Lemma chunk_fold_trimmed (n : nat) (sentences : list str) :
  forall chunks current,
    Forall solid sentences -> Forall trimmed chunks -> solid current ->
    let (chunks', current') :=
      fold_left (chunk_step n) sentences (chunks, current) in
    Forall trimmed chunks' /\ solid current'.
Proof.
  induction sentences as [|s sentences IH]; intros chunks current Hs Hch Hcur.
  - simpl. auto.
  - inversion Hs as [|? ? Hs1 Hs2]; subst.
    cbn [fold_left chunk_step].
    destruct (n <? length (current ++ s)).
    + apply IH; [exact Hs2 | apply close_trimmed; assumption | exact Hs1].
    + apply IH; [exact Hs2 | exact Hch | apply extend_solid; assumption].
Qed.

(** The chunks of a text that is not blank: none is empty, none has white
    space at its ends. *)
Lemma chunk_trimmed (n : nat) (text : str) :
  ~ blank text -> Forall trimmed (chunk n text).
Proof.
  intros H. unfold chunk, make_chunks.
  pose proof (chunk_fold_trimmed n (split_sentences text) [] []
                (split_sentences_solid text H) (List.Forall_nil _)
                (or_introl eq_refl)) as G.
  destruct (fold_left _ _ _) as [chunks current].
  destruct G as [Hch Hcur]. apply close_trimmed; assumption.
Qed.

(** Whatever the spans are, the protected text of a text that is not blank
    is not blank: the last replacement leaves its placeholder in it. *)
Lemma protect_step_inked (st : str * dict * nat) (m : found) :
  exists c, In c (fst (fst (protect_step st m))) /\ isspace c = false.
Proof.
  destruct st as [[t d] k]. destruct m as [[a b] name].
  cbn [protect_step fst]. exists 95%N. split; [|reflexivity].
  apply in_or_app. right. apply in_or_app. left. left. reflexivity.
Qed.

Lemma protect_fold_not_blank (l : list found) :
  forall st, ~ blank (fst (fst st)) ->
             ~ blank (fst (fst (fold_left protect_step l st))).
Proof.
  induction l as [|m l IH]; intros st H; [exact H|].
  cbn [fold_left]. apply IH, inked_not_blank, protect_step_inked.
Qed.

Lemma protected_not_blank (finds : list (list (nat * nat))) (text : str) :
  ~ blank text -> ~ blank (fst (preserve_names_and_entities_on finds text)).
Proof.
  intros H. unfold preserve_names_and_entities_on.
  pose proof (protect_fold_not_blank
                (sort_desc (collect_matches text finds)) (text, [], 0) H) as G.
  destruct (fold_left _ _ _) as [[t d] k]. exact G.
Qed.

End Solid.

Section LoopTrace.
Import Core PipelineSpec TraceSpec.
Context {W : Type} (env : Env W).
Variables src dest : str.

Lemma translate_chunk_events (i : nat) (chunk : str) (w : W)
    (trace : list event) :
  exists r w' a,
    translate_chunk env src dest i chunk (w, trace)
    = (Return r, (w', trace ++ pace i ++ a)) /\
    attempt_events src dest chunk a.
Proof.
  unfold translate_chunk, try_except. unfold bind at 1. rewrite pace_run.
  fold (pace i).
  unfold bind at 1. cbn [seq attempts]. unfold bind at 1.
  rewrite attempt_once_run.
  destruct (api_translate env w chunk src dest) as [r1 w1] eqn:E1.
  cbn [fst snd].
  destruct (reply_payload r1) as [t1|] eqn:P1.
  - destruct r1 as [tr1|e1]; [|discriminate].
    exists t1, w1, [EvTranslate chunk src dest].
    unfold ret. rewrite <- app_assoc. split; [reflexivity | left; reflexivity].
  - unfold bind at 1. rewrite attempt_once_run.
    destruct (api_translate env w1 chunk src dest) as [r2 w2] eqn:E2.
    cbn [fst snd].
    exists (match reply_payload r2 with Some t => t | None => chunk end), w2,
      (EvTranslate chunk src dest
         :: match r1 with Return _ => [] | Raise _ => [EvSleep 500] end
         ++ [EvTranslate chunk src dest]).
    split.
    + destruct r2 as [tr2|e2]; cbn [reply_payload];
        [destruct (payload tr2)|]; destruct r1 as [tr1|e1]; unfold ret;
        cbn [Nat.eqb app]; rewrite <- ?app_assoc; reflexivity.
    + destruct r1; [right; left | right; right]; reflexivity.
Qed.

Lemma translate_loop_events (chunks : list str) :
  forall (i : nat) (w : W) (trace : list event),
  exists results w' evs,
    translate_loop env src dest i chunks (w, trace)
    = (Return results, (w', trace ++ evs)) /\
    loop_events src dest i chunks evs.
Proof.
  induction chunks as [|chunk chunks IH]; intros i w trace.
  - exists [], w, []. simpl. unfold ret. rewrite app_nil_r. auto.
  - destruct (translate_chunk_events i chunk w trace)
      as (r & w1 & a & E1 & Ha).
    destruct (IH (S i) w1 (trace ++ pace i ++ a)) as (rs & w2 & b & E2 & Hb).
    exists (r :: rs), w2, ((pace i ++ a) ++ b).
    cbn [translate_loop]. unfold bind at 1. rewrite E1.
    unfold bind at 1. rewrite E2. unfold ret.
    rewrite <- !app_assoc. split; [reflexivity|].
    cbn [loop_events]. exists a, b. rewrite <- app_assoc. auto.
Qed.

Lemma loop_events_ok (chunks : list str) :
  forall (i : nat) (evs : list event),
    Forall trimmed chunks -> loop_events src dest i chunks evs ->
    Forall (request_ok src dest) evs.
Proof.
  induction chunks as [|chunk chunks IH]; intros i evs Hch H.
  - simpl in H. subst evs. constructor.
  - inversion Hch as [|? ? Hc Hcs]; subst.
    destruct H as (a & b & -> & Ha & Hb).
    apply Forall_app. split; [apply Forall_app; split|].
    + unfold pace. destruct (0 <? i); repeat constructor.
    + destruct Ha as [->|[->| ->]];
        repeat (apply List.Forall_cons; [simpl; auto|]); apply List.Forall_nil.
    + eapply IH; eassumption.
Qed.

End LoopTrace.

(** X4.  The chunked translation of src/pdf_translator.py always returns.
    On a text that is not blank its events are, chunk by chunk in the order
    of the chunks of the protected text: a pause of 200 ms unless the chunk
    is the first, then one request for the chunk, or two, or two with a
    pause of 500 ms between them; nothing else happens. *)
Theorem chunk_requests_are_paced {W : Type} (env : Env W) (chunk_size : nat)
    (text src dest : str) (w : W) (trace : list event) :
  exists out w' evs,
    Core.translate_text_chunks env chunk_size text src dest (w, trace)
    = (Return out, (w', trace ++ evs)) /\
    match strip text with
    | [] => evs = []
    | _ :: _ =>
        TraceSpec.loop_events src dest 0
          (Core.chunk chunk_size
             (fst (Core.preserve_names_and_entities env text)))
          evs
    end.
Proof.
  unfold Core.translate_text_chunks.
  destruct (strip text) as [|c s].
  - exists text, w, []. unfold ret. rewrite app_nil_r. auto.
  - destruct (Core.preserve_names_and_entities env text)
      as [protected entities].
    destruct (translate_loop_events env src dest
                (Core.chunk chunk_size protected) 0 w trace)
      as (rs & w' & evs & E & Hevs).
    unfold bind. rewrite E. unfold ret. eauto.
Qed.

Lemma translate_text_chunks_requests {W : Type} (env : Env W)
    (chunk_size : nat) (text src dest : str) (w : W) (trace : list event) :
  exists out w' evs,
    Core.translate_text_chunks env chunk_size text src dest (w, trace)
    = (Return out, (w', trace ++ evs)) /\
    Forall (TraceSpec.request_ok src dest) evs.
Proof.
  unfold Core.translate_text_chunks.
  destruct (strip text) as [|c s] eqn:Es.
  - exists text, w, []. unfold ret. rewrite app_nil_r. split; [reflexivity|].
    constructor.
  - assert (Hnb : ~ TraceSpec.blank text).
    { intros Hb. apply strip_nil in Hb. congruence. }
    unfold Core.preserve_names_and_entities.
    pose proof (protected_not_blank (name_spans env text) text Hnb) as Hp.
    destruct (Core.preserve_names_and_entities_on (name_spans env text) text)
      as [protected entities]. cbn [fst] in Hp.
    destruct (translate_loop_events env src dest
                (Core.chunk chunk_size protected) 0 w trace)
      as (rs & w' & evs & E & Hevs).
    unfold bind. rewrite E. unfold ret. eexists _, w', evs.
    split; [reflexivity|].
    eapply loop_events_ok; [|exact Hevs]. apply chunk_trimmed, Hp.
Qed.

(** X5.  Every request the chunked translation of src/pdf_translator.py
    sends is for a text that is not empty and has no white space at its
    ends, from the source to the target language it was called with;
    besides requests there are only pauses of 200 and of 500 ms.  This
    holds for every text and whatever spans the name patterns yield. *)
Theorem no_blank_request {W : Type} (env : Env W) (chunk_size : nat)
    (text src dest : str) (w : W) (trace : list event) :
  exists out w' evs,
    Core.translate_text_chunks env chunk_size text src dest (w, trace)
    = (Return out, (w', trace ++ evs)) /\
    Forall (TraceSpec.request_ok src dest) evs.
Proof. apply translate_text_chunks_requests. Qed.

(** X19.  The size the chunker of src/pdf_translator.py does keep to: a
    chunk is one sentence of the text with the white space at its ends
    removed, or it has at most one code point more than the chunk size
    (the space that joins two sentences is not counted by the test of the
    loop). *)
Theorem chunk_bound_plus_one (chunk_size : nat) (text : str) :
  Forall (fun c => length c <= chunk_size + 1 \/
                   exists s, In s (Core.split_sentences text) /\ c = strip s)
         (Core.chunk chunk_size text).
Proof. apply chunk_size_plus_one. Qed.

(** ** The single document and the batch, case by case *)
Section Running.
Context {W : Type}.

Lemma bind_return {A B : Type} (m : M W A) (k : A -> M W B)
    (st st' : W * list event) (a : A) :
  m st = (Return a, st') -> bind m k st = k a st'.
Proof. unfold bind. intros ->. reflexivity. Qed.

Lemma bind_raise {A B : Type} (m : M W A) (k : A -> M W B)
    (st st' : W * list event) (e : exn) :
  m st = (Raise e, st') -> bind m k st = (Raise e, st').
Proof. unfold bind. intros ->. reflexivity. Qed.

End Running.

Section Document.
Import Core TraceSpec.
Context {W : Type} (env : Env W).
Variable output_dir : str.
Variable chunk_size : nat.

Lemma detect_language_run (text : str) (w : W) (trace : list event) :
  exists d,
    detect_language env text (w, trace)
    = (Return d, (snd (api_detect env w (firstn 1000 text)),
                  trace ++ [EvDetect (firstn 1000 text)])) /\
    language d = source_of env w (u "auto") (firstn 1000 text).
Proof.
  unfold detect_language, try_except, bind, external, ret, source_of.
  rewrite sample_firstn. cbn [str_eqb u].
  change (str_eqb (u "auto") (u "auto")) with true. cbn iota.
  destruct (api_detect env w (firstn 1000 text)) as [[lang|e] w'];
    eexists; split; reflexivity.
Qed.

Lemma create_pdf_run (text output_path title : str) (w : W)
    (trace : list event) :
  create_pdf_from_text env text output_path title (w, trace)
  = (fst (doc_build env w output_path title (paragraphs text)),
     (snd (doc_build env w output_path title (paragraphs text)),
      trace ++ [EvBuild output_path title (paragraphs text)])).
Proof.
  unfold create_pdf_from_text, external. fold (paragraphs text).
  destruct (doc_build env w output_path title (paragraphs text)).
  reflexivity.
Qed.

Lemma path_exists_run (p : str) (w : W) (trace : list event) :
  path_exists_m env p (w, trace)
  = (Return (path_exists env w p), (w, trace)).
Proof. reflexivity. Qed.

(** The language step of [translate_single_pdf]. *)
Lemma source_step (source_lang text : str) (w : W) (trace : list event) :
  (if str_eqb source_lang (u "auto")
   then bind (detect_language env text) (fun d => ret (language d))
   else ret source_lang) (w, trace)
  = (Return (source_of env w source_lang (firstn 1000 text)),
     (if str_eqb source_lang (u "auto")
      then snd (api_detect env w (firstn 1000 text)) else w,
      trace ++ (if str_eqb source_lang (u "auto")
                then [EvDetect (firstn 1000 text)] else []))).
Proof.
  unfold source_of at 1.
  destruct (str_eqb source_lang (u "auto")) eqn:Ea.
  - destruct (detect_language_run text w trace) as (d & Ed & Hd).
    rewrite (bind_return _ _ _ _ _ Ed). unfold ret. rewrite Hd.
    unfold source_of. reflexivity.
  - unfold ret. rewrite app_nil_r. reflexivity.
Qed.

Lemma translate_single_pdf_run (input_path : str)
    (output_filename : option str) (source_lang : str) (w : W)
    (trace : list event) :
  let run := translate_single_pdf env output_dir chunk_size input_path
               output_filename source_lang (w, trace) in
  if path_exists env w input_path then
    match read_pages env w input_path with
    | (Raise e, w1) => run = (Raise e, (w1, trace ++ [EvRead input_path]))
    | (Return pages, w1) =>
        let text :=
          strip (flat_map (fun page => page ++ [NEWLINE; NEWLINE]) pages) in
        match text with
        | [] =>
            run = (Raise (ValueError (u "No text found in PDF")),
                   (w1, trace ++ [EvRead input_path]))
        | _ :: _ =>
            let auto := str_eqb source_lang (u "auto") in
            let sample := firstn 1000 text in
            let src := source_of env w1 source_lang sample in
            let detected := if auto then [EvDetect sample] else [] in
            let output_path :=
              output_path_of env output_dir input_path output_filename in
            let title := u "Translated: " ++ path_name env input_path in
            exists translated_text w2 reqs,
              translate_text_chunks env chunk_size text src (u "en")
                (if auto then snd (api_detect env w1 sample) else w1,
                 (trace ++ [EvRead input_path]) ++ detected)
              = (Return translated_text,
                 (w2, ((trace ++ [EvRead input_path]) ++ detected) ++ reqs)) /\
              Forall (request_ok src (u "en")) reqs /\
              run
              = (match fst (doc_build env w2 output_path title
                              (paragraphs translated_text)) with
                 | Return _ => Return output_path
                 | Raise e => Raise e
                 end,
                 (snd (doc_build env w2 output_path title
                         (paragraphs translated_text)),
                  trace ++ [EvRead input_path] ++ detected ++ reqs
                    ++ [EvBuild output_path title
                                (paragraphs translated_text)]))
        end
    end
  else
    run = (Raise (FileNotFoundError (u "Input file not found: " ++ input_path)),
           (w, trace)).
Proof.
  intros run. subst run. unfold translate_single_pdf.
  rewrite (bind_return _ _ _ _ _ (path_exists_run input_path w trace)).
  destruct (path_exists env w input_path); cbn [negb]; [|reflexivity].
  unfold extract_text_from_pdf.
  destruct (read_pages env w input_path) as [[pages|e] w1] eqn:Er.
  - assert (Ex : bind (external (fun w0 => read_pages env w0 input_path)
                                (EvRead input_path))
                   (fun pages0 => ret (strip (flat_map
                      (fun page => page ++ [NEWLINE; NEWLINE]) pages0)))
                   (w, trace)
                 = (Return (strip (flat_map
                      (fun page => page ++ [NEWLINE; NEWLINE]) pages)),
                    (w1, trace ++ [EvRead input_path]))).
    { unfold bind, external, ret. rewrite Er. reflexivity. }
    rewrite (bind_return _ _ _ _ _ Ex). rewrite strip_idem.
    destruct (strip (flat_map (fun page => page ++ [NEWLINE; NEWLINE]) pages))
      as [|c s] eqn:Et; [reflexivity|].
    cbv zeta. set (text := c :: s).
    rewrite (bind_return _ _ _ _ _
               (source_step source_lang text w1 (trace ++ [EvRead input_path]))).
    destruct (translate_text_chunks_requests env chunk_size text
                (source_of env w1 source_lang (firstn 1000 text)) (u "en")
                (if str_eqb source_lang (u "auto")
                 then snd (api_detect env w1 (firstn 1000 text)) else w1)
                ((trace ++ [EvRead input_path])
                   ++ (if str_eqb source_lang (u "auto")
                       then [EvDetect (firstn 1000 text)] else [])))
      as (out & w2 & reqs & Et2 & Hreqs).
    exists out, w2, reqs. split; [exact Et2|]. split; [exact Hreqs|].
    rewrite (bind_return _ _ _ _ _ Et2).
    fold (output_path_of env output_dir input_path output_filename).
    unfold bind. rewrite create_pdf_run. unfold ret.
    rewrite <- !app_assoc.
    destruct (doc_build env w2 _ _ _) as [[[]|e] w3]; reflexivity.
  - assert (Ex : bind (external (fun w0 => read_pages env w0 input_path)
                                (EvRead input_path))
                   (fun pages0 => ret (strip (flat_map
                      (fun page => page ++ [NEWLINE; NEWLINE]) pages0)))
                   (w, trace)
                 = (Raise e, (w1, trace ++ [EvRead input_path]))).
    { unfold bind, external, ret. rewrite Er. reflexivity. }
    rewrite (bind_raise _ _ _ _ _ Ex). reflexivity.
Qed.

End Document.

(** X6.  [translate_single_pdf] of src/pdf_translator.py, case by case.
    A missing file raises [FileNotFoundError] and nothing is touched.  A
    failure of the reader is raised again, and a document whose text is
    blank raises [ValueError], both with the read as the only event.
    Otherwise the run always reaches the writer: the language is detected
    once, on at most 1000 code points, exactly when the source language is
    'auto' (a failed detection gives the source 'unknown'), the requests
    are for trimmed texts from that source to 'en', and one document is
    written, at the output path.  The result is that path, or the
    exception of the writer: no failure of the translation service fails
    the document. *)
Theorem single_document_outcome {W : Type} (env : Env W) (output_dir : str)
    (chunk_size : nat) (input_path : str) (output_filename : option str)
    (source_lang : str) (w : W) (trace : list event) :
  let run := Core.translate_single_pdf env output_dir chunk_size input_path
               output_filename source_lang (w, trace) in
  if path_exists env w input_path then
    match read_pages env w input_path with
    | (Raise e, w1) => run = (Raise e, (w1, trace ++ [EvRead input_path]))
    | (Return pages, w1) =>
        let text :=
          strip (flat_map (fun page => page ++ [NEWLINE; NEWLINE]) pages) in
        match text with
        | [] =>
            run = (Raise (ValueError (u "No text found in PDF")),
                   (w1, trace ++ [EvRead input_path]))
        | _ :: _ =>
            let auto := str_eqb source_lang (u "auto") in
            let sample := firstn 1000 text in
            let src := TraceSpec.source_of env w1 source_lang sample in
            let detected := if auto then [EvDetect sample] else [] in
            let output_path :=
              TraceSpec.output_path_of env output_dir input_path
                                       output_filename in
            let title := u "Translated: " ++ path_name env input_path in
            exists translated_text w2 reqs,
              Core.translate_text_chunks env chunk_size text src (u "en")
                (if auto then snd (api_detect env w1 sample) else w1,
                 (trace ++ [EvRead input_path]) ++ detected)
              = (Return translated_text,
                 (w2, ((trace ++ [EvRead input_path]) ++ detected) ++ reqs)) /\
              Forall (TraceSpec.request_ok src (u "en")) reqs /\
              run
              = (match fst (doc_build env w2 output_path title
                              (TraceSpec.paragraphs translated_text)) with
                 | Return _ => Return output_path
                 | Raise e => Raise e
                 end,
                 (snd (doc_build env w2 output_path title
                         (TraceSpec.paragraphs translated_text)),
                  trace ++ [EvRead input_path] ++ detected ++ reqs
                    ++ [EvBuild output_path title
                                (TraceSpec.paragraphs translated_text)]))
        end
    end
  else
    run = (Raise (FileNotFoundError (u "Input file not found: " ++ input_path)),
           (w, trace)).
Proof. apply translate_single_pdf_run. Qed.

Section BatchOutcome.
Import Core PipelineSpec TraceSpec.
Context {W : Type} (env : Env W).
Variable output_dir : str.
Variable chunk_size : nat.
Variable source_lang : str.

Lemma single_returns_path (input_path : str) (output_filename : option str)
    (st st' : W * list event) (out : str) :
  translate_single_pdf env output_dir chunk_size input_path output_filename
                       source_lang st = (Return out, st') ->
  out = output_path_of env output_dir input_path output_filename.
Proof.
  destruct st as [w trace]. intros E.
  pose proof (translate_single_pdf_run env output_dir chunk_size input_path
                output_filename source_lang w trace) as H.
  cbv zeta in H. rewrite E in H.
  destruct (path_exists env w input_path); [|discriminate].
  destruct (read_pages env w input_path) as [[pages|e] w1]; [|discriminate].
  destruct (strip _) as [|c s]; [discriminate|].
  destruct H as (t & w2 & reqs & _ & _ & H).
  destruct (fst (doc_build env w2 _ _ _)); [|discriminate].
  injection H as -> _. reflexivity.
Qed.

Lemma successes_paths (pdf_files : list str) :
  forall st,
    Forall (fun out => exists f, In f pdf_files /\
                                 out = output_path_of env output_dir f None)
           (successes (fst (per_file env output_dir chunk_size source_lang
                              pdf_files st))).
Proof.
  induction pdf_files as [|f files IH]; intros st; [constructor|].
  cbn [per_file].
  destruct (translate_single_pdf env output_dir chunk_size f None source_lang
              st) as [[o|e] st1] eqn:E.
  - specialize (IH st1).
    destruct (per_file env output_dir chunk_size source_lang files st1)
      as [rs st2]. cbn [fst successes] in *. constructor.
    + exists f. split; [left; reflexivity|].
      eapply single_returns_path, E.
    + eapply List.Forall_impl; [|exact IH].
      intros out (g & Hg & ->). exists g. split; [right; exact Hg | reflexivity].
  - specialize (IH st1).
    destruct (per_file env output_dir chunk_size source_lang files st1)
      as [rs st2]. cbn [fst successes] in *.
    eapply List.Forall_impl; [|exact IH].
    intros out (g & Hg & ->). exists g. split; [right; exact Hg | reflexivity].
Qed.

End BatchOutcome.

(** X7.  With a pattern that [Path.glob] accepts (the glob answers its
    list of matches), [batch_translate_pdfs] raises only for a missing
    directory, and then nothing is touched.  Otherwise it returns: at most
    one path per matched file, each the default output path of one of the
    matched files (its stem with '_translated_en.pdf', in the output
    directory); when no file matches, nothing happens at all. *)
Theorem batch_outcome {W : Type} (env : Env W) (output_dir : str)
    (chunk_size : nat) (input_directory pattern source_lang : str) (w : W)
    (trace : list event) :
  let run := Core.batch_translate_pdfs env output_dir chunk_size
               input_directory pattern source_lang (w, trace) in
  let pdf_files := path_glob env w input_directory pattern in
  if path_exists env w input_directory then
    exists outs st',
      run = (Return outs, st') /\
      length outs <= length pdf_files /\
      Forall (fun out => exists f, In f pdf_files /\
                out = TraceSpec.output_path_of env output_dir f None) outs /\
      match pdf_files with [] => st' = (w, trace) | _ :: _ => True end
  else
    run = (Raise (FileNotFoundError
                    (u "Input directory not found: " ++ input_directory)),
           (w, trace)).
Proof.
  intros run pdf_files. subst run. unfold Core.batch_translate_pdfs.
  rewrite (bind_return _ _ _ _ _ (path_exists_run env input_directory w trace)).
  destruct (path_exists env w input_directory); cbn [negb]; [|reflexivity].
  unfold bind at 1. cbn [fst]. fold pdf_files.
  destruct pdf_files as [|f files] eqn:E.
  - exists [], (w, trace). repeat split; constructor.
  - rewrite <- E.
    pose proof (batch_loop_per_file env output_dir chunk_size source_lang
                  pdf_files ([], []) (w, trace)) as Hloop.
    cbn [fst snd app] in Hloop.
    rewrite (bind_return _ _ _ _ _ Hloop). unfold ret. cbn [fst].
    eexists _, _. split; [reflexivity|]. split; [|split; [|exact I]].
    + pose proof (successes_failures_length
                    (fst (PipelineSpec.per_file env output_dir chunk_size
                            source_lang pdf_files (w, trace)))) as Hlen.
      rewrite <- (per_file_files env output_dir chunk_size source_lang
                    pdf_files (w, trace)) at 2.
      rewrite length_map. lia.
    + apply successes_paths.
Qed.

(** ** The web application's chunked translation *)
Section Slices.
Import Webapp.

Lemma slices_bounds (fuel n : nat) :
  0 < n ->
  forall text, Forall (fun c => 0 < length c <= n) (slices fuel n text).
Proof.
  intros Hn. induction fuel as [|fuel IH]; intros text; [constructor|].
  destruct text as [|c text]; [constructor|].
  cbn [slices]. constructor; [|apply IH].
  rewrite List.length_firstn. simpl. lia.
Qed.

Lemma slices_full (fuel n : nat) :
  forall text, Forall (fun c => length c = n) (removelast (slices fuel n text)).
Proof.
  induction fuel as [|fuel IH]; intros text; [constructor|].
  destruct text as [|c text]; [constructor|].
  cbn [slices].
  destruct (slices fuel n (skipn n (c :: text))) as [|x l] eqn:E.
  - constructor.
  - change (removelast (firstn n (c :: text) :: x :: l))
      with (firstn n (c :: text) :: removelast (x :: l)).
    constructor; [|rewrite <- E; apply IH].
    assert (Hrest : skipn n (c :: text) <> []).
    { intros H. rewrite H in E. destruct fuel; discriminate. }
    assert (Hlen : n < length (c :: text)).
    { destruct (Nat.lt_ge_cases n (length (c :: text))) as [|Hge]; [assumption|].
      exfalso. apply Hrest. apply List.skipn_all2. exact Hge. }
    rewrite List.length_firstn. lia.
Qed.

Lemma slices_count (fuel n : nat) :
  0 < n ->
  forall text, length text <= fuel ->
    length (slices fuel n text) = (length text + n - 1) / n.
Proof.
  intros Hn. induction fuel as [|fuel IH]; intros text Hlen.
  - destruct text; [|simpl in Hlen; lia]. simpl.
    symmetry. apply Nat.div_small. lia.
  - destruct text as [|c text].
    + simpl. symmetry. apply Nat.div_small. lia.
    + cbn [slices length]. rewrite IH.
      * rewrite List.length_skipn.
        destruct (Nat.le_gt_cases (S (length text)) n) as [Hle|Hgt].
        -- replace (length (c :: text) - n + n - 1) with (n - 1)
             by (simpl; lia).
           rewrite (Nat.div_small (n - 1) n) by lia.
           apply (Nat.div_unique _ n 1 (length text)); lia.
        -- replace (S (length text) + n - 1)
             with ((length (c :: text) - n + n - 1) + 1 * n) by (simpl; lia).
           rewrite Nat.div_add by lia. lia.
      * rewrite List.length_skipn. simpl in *. lia.
Qed.

End Slices.

(** X8.  The slices of the web application, for a positive size: glued
    together they are the text; none is empty and none is longer than the
    size; all but the last have exactly the size; and there are as many
    as the length of the text divided by the size, rounded up. *)
Theorem fixed_size_chunks (chunk_size : nat) (text : str) :
  0 < chunk_size ->
  concat (Webapp.chunks_of chunk_size text) = text /\
  Forall (fun c => 0 < length c <= chunk_size)
         (Webapp.chunks_of chunk_size text) /\
  Forall (fun c => length c = chunk_size)
         (removelast (Webapp.chunks_of chunk_size text)) /\
  length (Webapp.chunks_of chunk_size text)
  = (length text + chunk_size - 1) / chunk_size.
Proof.
  intros Hn. unfold Webapp.chunks_of. split; [|split; [|split]].
  - apply slices_concat; [exact Hn | apply Nat.le_refl].
  - apply slices_bounds, Hn.
  - apply slices_full.
  - apply slices_count; [exact Hn | apply Nat.le_refl].
Qed.

Lemma fixed_size_chunks_witness :
  concat (Webapp.chunks_of 3 (u "abcdefgh")) = u "abcdefgh" /\
  Forall (fun c => 0 < length c <= 3) (Webapp.chunks_of 3 (u "abcdefgh")) /\
  Forall (fun c => length c = 3)
         (removelast (Webapp.chunks_of 3 (u "abcdefgh"))) /\
  length (Webapp.chunks_of 3 (u "abcdefgh")) = (length (u "abcdefgh") + 3 - 1) / 3.
Proof. apply (fixed_size_chunks 3 (u "abcdefgh")). lia. Defined.

Section WebLoop.
Import Webapp PipelineSpec TraceSpec RunSpec.
Context {W : Type} (env : Env W).
Variables src dest : str.

Lemma sleeps_app (a b : list event) : sleeps (a ++ b) = sleeps a ++ sleeps b.
Proof.
  induction a as [|e a IH]; [reflexivity|].
  destruct e; simpl; rewrite IH; reflexivity.
Qed.

(** One chunk: one request, whatever the service answers. *)
Lemma web_chunk_run (i : nat) (chunk : str) (w : W) (trace : list event) :
  translate_chunk env src dest i chunk (w, trace)
  = (Return (web_reply chunk (fst (api_translate env w chunk src dest))),
     (snd (api_translate env w chunk src dest),
      trace ++ pace i ++ [EvTranslate chunk src dest])).
Proof.
  unfold translate_chunk, try_except. unfold bind at 1. rewrite pace_run.
  fold (pace i). unfold bind, external.
  destruct (api_translate env w chunk src dest) as [[[|t]|e] w1];
    cbn [fst snd web_reply]; unfold ret, raise; rewrite <- app_assoc;
    reflexivity.
Qed.

(** The chunks after the first: a pause and a request each. *)
Lemma web_loop_later (chunks : list str) :
  forall (i : nat) (w : W) (trace : list event),
  translate_loop env src dest (S i) chunks (w, trace)
  = (Return (zip_with web_reply chunks
               (fst (replies env src dest chunks w))),
     (snd (replies env src dest chunks w),
      trace ++ flat_map (fun c => [EvSleep 200; EvTranslate c src dest])
                        chunks)).
Proof.
  induction chunks as [|chunk chunks IH]; intros i w trace.
  - simpl. unfold ret. rewrite app_nil_r. reflexivity.
  - cbn [translate_loop replies flat_map].
    rewrite (bind_return _ _ _ _ _ (web_chunk_run (S i) chunk w trace)).
    destruct (api_translate env w chunk src dest) as [r w1]. cbn [fst snd].
    rewrite (bind_return _ _ _ _ _ (IH (S i) w1 _)).
    destruct (replies env src dest chunks w1) as [rs w2]. cbn [fst snd].
    unfold ret. cbn [zip_with pace Nat.ltb Nat.leb].
    rewrite <- !app_assoc. reflexivity.
Qed.

(** The whole loop: its results, the state it ends in, its events. *)
Lemma web_loop_exact (chunks : list str) (w : W) (trace : list event) :
  translate_loop env src dest 0 chunks (w, trace)
  = (Return (zip_with web_reply chunks
               (fst (replies env src dest chunks w))),
     (snd (replies env src dest chunks w),
      trace ++ paced_requests src dest chunks)).
Proof.
  destruct chunks as [|chunk chunks].
  - simpl. unfold ret. rewrite app_nil_r. reflexivity.
  - cbn [translate_loop replies paced_requests].
    rewrite (bind_return _ _ _ _ _ (web_chunk_run 0 chunk w trace)).
    destruct (api_translate env w chunk src dest) as [r w1]. cbn [fst snd].
    rewrite (bind_return _ _ _ _ _ (web_loop_later chunks 0 w1 _)).
    destruct (replies env src dest chunks w1) as [rs w2]. cbn [fst snd].
    unfold ret. cbn [zip_with pace Nat.ltb Nat.leb app].
    rewrite <- !app_assoc. reflexivity.
Qed.


Lemma paced_calls (chunks : list str) :
  translate_calls (paced_requests src dest chunks) = chunks.
Proof.
  destruct chunks as [|chunk chunks]; [reflexivity|].
  cbn [paced_requests translate_calls]. f_equal.
  induction chunks as [|c chunks IH]; [reflexivity|].
  cbn [flat_map app translate_calls]. rewrite IH. reflexivity.
Qed.

Lemma paced_sleeps (chunks : list str) :
  sleeps (paced_requests src dest chunks) = repeat 200 (length chunks - 1).
Proof.
  destruct chunks as [|chunk chunks]; [reflexivity|].
  replace (length (chunk :: chunks) - 1) with (length chunks)
    by (simpl; lia).
  cbn [paced_requests sleeps].
  induction chunks as [|c chunks IH]; [reflexivity|].
  cbn [flat_map app sleeps length repeat]. rewrite IH. reflexivity.
Qed.

Lemma paced_events (chunks : list str) :
  Forall (fun e => e = EvSleep 200 \/
                   exists chunk, e = EvTranslate chunk src dest)
         (paced_requests src dest chunks).
Proof.
  destruct chunks as [|chunk chunks]; [constructor|].
  cbn [paced_requests]. constructor; [right; exists chunk; reflexivity|].
  induction chunks as [|c chunks IH]; [constructor|].
  cbn [flat_map app]. constructor; [left; reflexivity|].
  constructor; [right; exists c; reflexivity | exact IH].
Qed.



Lemma web_text_chunks_exact (chunk_size : nat) (text : str) (w : W)
    (trace : list event) :
  0 < chunk_size -> ~ blank text ->
  translate_text_chunks env chunk_size text src dest (w, trace)
  = (match all_text (zip_with web_reply (chunks_of chunk_size text)
                       (fst (replies env src dest
                               (chunks_of chunk_size text) w))) with
     | Some texts => Return (str_join [SPACE] texts)
     | None => Raise TypeError
     end,
     (snd (replies env src dest (chunks_of chunk_size text) w),
      trace ++ paced_requests src dest (chunks_of chunk_size text))).
Proof.
  intros Hn Hnb. unfold translate_text_chunks.
  destruct (strip text) as [|c s] eqn:Es.
  - exfalso. apply Hnb, strip_nil, Es.
  - destruct (Nat.eqb_spec chunk_size 0) as [->|_]; [lia|].
    rewrite (bind_return _ _ _ _ _
               (web_loop_exact (chunks_of chunk_size text) w trace)).
    unfold join_chunks. destruct (all_text _); reflexivity.
Qed.

End WebLoop.

(** X9.  The web application's chunked translation of a text that is not
    blank, for a positive size: its events are one request per slice of
    the text, in order, with a pause of 200 ms before every request but
    the first, and nothing else, whatever the service answers (nothing is
    tried again); the requests glued together are the text itself. *)
Theorem webapp_requests_are_the_slices {W : Type} (env : Env W)
    (chunk_size : nat) (text src dest : str) (w : W) (trace : list event) :
  0 < chunk_size -> ~ TraceSpec.blank text ->
  exists r w' evs,
    Webapp.translate_text_chunks env chunk_size text src dest (w, trace)
    = (r, (w', trace ++ evs)) /\
    evs = RunSpec.paced_requests src dest (Webapp.chunks_of chunk_size text) /\
    PipelineSpec.translate_calls evs = Webapp.chunks_of chunk_size text /\
    concat (PipelineSpec.translate_calls evs) = text /\
    TraceSpec.sleeps evs
    = repeat 200 (length (Webapp.chunks_of chunk_size text) - 1).
Proof.
  intros Hn Hnb. eexists _, _, _.
  split; [apply web_text_chunks_exact; assumption|].
  split; [reflexivity|]. rewrite paced_calls. split; [reflexivity|].
  split; [|apply paced_sleeps].
  unfold Webapp.chunks_of. apply slices_concat; [exact Hn | apply Nat.le_refl].
Qed.


Section WebDocument.
Import Core TraceSpec RunSpec.
Context {W : Type} (env : Env W).
Variable output_dir : str.
Variable chunk_size : nat.



End WebDocument.

Lemma not_blank_head (c : N) (s : str) :
  isspace c = false -> ~ TraceSpec.blank (c :: s).
Proof. intros Hc Hb. inversion Hb; congruence. Qed.

Lemma webapp_requests_are_the_slices_witness :
  exists r w' evs,
    Webapp.translate_text_chunks
      (Samples.desk Samples.one_page Samples.service_down) 6
      (u "Bonjour. Merci.") (u "fr") (u "en") (tt, [])
    = (r, (w', [] ++ evs)) /\
    evs = RunSpec.paced_requests (u "fr") (u "en")
            (Webapp.chunks_of 6 (u "Bonjour. Merci.")) /\
    PipelineSpec.translate_calls evs
    = Webapp.chunks_of 6 (u "Bonjour. Merci.") /\
    concat (PipelineSpec.translate_calls evs) = u "Bonjour. Merci." /\
    TraceSpec.sleeps evs
    = repeat 200 (length (Webapp.chunks_of 6 (u "Bonjour. Merci.")) - 1).
Proof.
  apply (webapp_requests_are_the_slices
           (Samples.desk Samples.one_page Samples.service_down) 6
           (u "Bonjour. Merci.") (u "fr") (u "en") tt []).
  - lia.
  - apply not_blank_head. reflexivity.
Defined.


(** With the service down the slices come back as they were, joined by
    single spaces that the text did not have; when the service hands back
    objects without text, the join raises. *)
Example webapp_service_down :
  fst (Webapp.translate_text_chunks
         (Samples.desk Samples.one_page Samples.service_down) 6
         (u "Bonjour. Merci.") (u "fr") (u "en") (tt, []))
  = Return (u "Bonjou r. Mer ci.") /\
  fst (Webapp.translate_text_chunks
         (Samples.desk Samples.one_page Cases.no_text) 6
         (u "Bonjour. Merci.") (u "fr") (u "en") (tt, []))
  = Raise TypeError.
Proof. split; vm_compute; reflexivity. Qed.

(** A service that raises for the first request it gets and answers the
    later ones: the first slice stands in the result as it was, the second
    is translated. *)
Example webapp_first_call_fails :
  Webapp.translate_text_chunks (Cases.flaky 1 (u "Hi")) 3 (u "abcdef")
    (u "fr") (u "en") (0, [])
  = (Return (u "abc Hi"),
     (2, [EvTranslate (u "abc") (u "fr") (u "en"); EvSleep 200;
          EvTranslate (u "def") (u "fr") (u "en")])).
Proof. vm_compute. reflexivity. Qed.



(** ** The name protector of src/pdf_translator.py *)
Section Names.
Import Core NameSpec.

Lemma placeholder_eq (c : nat) :
  placeholder c
  = 95%N :: 95%N :: 78%N :: 65%N :: 77%N :: 69%N :: 95%N
      :: str_of_nat c ++ [95%N; 95%N].
Proof. reflexivity. Qed.

Lemma replace_from_step (old new : str) (x : N) (s : str) :
  startswith old (x :: s) = false ->
  replace_from old new 0 (x :: s) = x :: replace_from old new 0 s.
Proof. intros H. cbn [replace_from]. rewrite H. reflexivity. Qed.

Lemma startswith_cons (x y : N) (p s : str) :
  startswith (x :: p) (y :: s) = (x =? y)%N && startswith p s.
Proof. reflexivity. Qed.

Lemma str_replace_nonempty (old new s : str) :
  old <> [] -> str_replace old new s = replace_from old new 0 s.
Proof. destruct old; [contradiction | reflexivity]. Qed.

Lemma replace_name_pass (c : nat) (new a s : str) :
  Forall (fun x => x <> 95%N) a ->
  replace_from (placeholder c) new 0 (a ++ s)
  = a ++ replace_from (placeholder c) new 0 s.
Proof. rewrite placeholder_eq. apply replace_from_pass. Qed.

Lemma name_placeholder_startswith (c c' : nat) (rest : str) :
  c <> c' -> startswith (placeholder c) (placeholder c' ++ rest) = false.
Proof.
  intros Hne. destruct (startswith _ _) eqn:E; [|reflexivity].
  apply startswith_spec in E as [r Hr]. rewrite !placeholder_eq in Hr.
  cbn [app] in Hr. injection Hr as Hr. rewrite <- !app_assoc in Hr.
  cbn [app] in Hr.
  apply app_sep_inj in Hr as [Hr _]; try (apply digits_not; lia).
  apply str_of_nat_inj in Hr. congruence.
Qed.

Lemma name_placeholder_inj (c c' : nat) :
  placeholder c = placeholder c' -> c = c'.
Proof.
  intros E. destruct (Nat.eq_dec c c') as [|Hne]; [assumption|].
  pose proof (name_placeholder_startswith c c' [] Hne) as H.
  rewrite app_nil_r, <- E in H.
  rewrite <- (app_nil_r (placeholder c)) in H at 2.
  rewrite startswith_app in H. discriminate.
Qed.

(** After the two closing underscores of a placeholder, a stretch of text
    without underscore and the opening of the next placeholder. *)
Lemma after_closing (d : N) (ds t X : str) :
  ascii_digit d -> Forall (fun x => x <> 95%N) t ->
  startswith [95%N; 95%N] X = true ->
  startswith (78%N :: 65%N :: 77%N :: 69%N :: 95%N :: (d :: ds) ++ [95%N; 95%N])
             (t ++ X) = false.
Proof.
  intros Hd Ht HX.
  destruct X as [|x1 [|x2 X]];
    try (cbn in HX; rewrite ?andb_false_r in HX; discriminate HX).
  cbn [startswith] in HX. apply andb_true_iff in HX as [H1 HX].
  apply andb_true_iff in HX as [H2 _].
  apply N.eqb_eq in H1, H2. subst x1 x2.
  assert (Hd95 : (d =? 95)%N = false)
    by (apply N.eqb_neq; unfold ascii_digit in Hd; lia).
  destruct t as [|a t]; [reflexivity|].
  inversion Ht as [|? ? Ha Ht1]; subst.
  cbn [app startswith]. destruct (N.eqb_spec 78 a); [subst a|reflexivity].
  destruct t as [|b t]; [reflexivity|].
  inversion Ht1 as [|? ? Hb Ht2]; subst.
  cbn [app startswith andb]. destruct (N.eqb_spec 65 b); [subst b|reflexivity].
  destruct t as [|c0 t]; [reflexivity|].
  inversion Ht2 as [|? ? Hc Ht3]; subst.
  cbn [app startswith andb]. destruct (N.eqb_spec 77 c0); [subst c0|reflexivity].
  destruct t as [|d0 t]; [reflexivity|].
  inversion Ht3 as [|? ? Hd0 Ht4]; subst.
  cbn [app startswith andb]. destruct (N.eqb_spec 69 d0); [subst d0|reflexivity].
  destruct t as [|e0 t].
  - cbn [app startswith andb]. rewrite N.eqb_refl, Hd95. reflexivity.
  - inversion Ht4 as [|? ? He0 _]; subst.
    cbn [app startswith andb]. destruct (N.eqb_spec 95 e0); [|reflexivity].
    congruence.
Qed.

Lemma after_last_underscore (p t X : str) :
  Forall (fun x => x <> 95%N) t -> startswith [95%N; 95%N] X = true ->
  startswith (95%N :: 78%N :: p) (t ++ X) = false.
Proof.
  intros Ht HX. destruct t as [|a t].
  - destruct X as [|x1 [|x2 X]];
      try (cbn in HX; rewrite ?andb_false_r in HX; discriminate HX).
    cbn [startswith] in HX. apply andb_true_iff in HX as [H1 HX].
    apply andb_true_iff in HX as [H2 _].
    apply N.eqb_eq in H1, H2. subst x1 x2. reflexivity.
  - inversion Ht as [|? ? Ha _]; subst. cbn [app startswith].
    destruct (N.eqb_spec 95 a); [congruence | reflexivity].
Qed.

(** A placeholder with another counter is passed over, with the text
    after it, up to the next placeholder. *)
Lemma replace_name_other (c c' : nat) (new t X : str) :
  c <> c' -> Forall (fun x => x <> 95%N) t ->
  startswith [95%N; 95%N] X = true ->
  replace_from (placeholder c) new 0 (placeholder c' ++ t ++ X)
  = placeholder c' ++ t ++ replace_from (placeholder c) new 0 X.
Proof.
  intros Hne Ht HX.
  pose proof (name_placeholder_startswith c c' (t ++ X) Hne) as H0.
  rewrite (placeholder_eq c') in *.
  assert (HD' : Forall (fun x => x <> 95%N) (str_of_nat c'))
    by (apply digits_not; lia).
  pose proof (str_of_nat_nonempty c') as HD'ne.
  revert H0 HD' HD'ne. generalize (str_of_nat c'). intros D' H0 HD' HD'ne.
  rewrite (placeholder_eq c) in *.
  destruct (str_of_nat c) as [|d ds] eqn:Ed;
    [exfalso; exact (str_of_nat_nonempty c Ed)|].
  assert (Hd : ascii_digit d).
  { pose proof (str_of_nat_digits c) as H. rewrite Ed in H.
    inversion H; assumption. }
  assert (H7 : forall R,
             startswith (95%N :: 95%N :: 78%N :: 65%N :: 77%N :: 69%N :: 95%N
                           :: (d :: ds) ++ [95%N; 95%N])
                        (95%N :: D' ++ R) = false).
  { intros R. destruct D' as [|d' ds']; [contradiction|].
    inversion HD' as [|? ? Hd' _]; subst. cbn [app startswith].
    destruct (N.eqb_spec 95 d'); [congruence | reflexivity]. }
  cbn [app] in *. rewrite <- !app_assoc in *. cbn [app] in *.
  rewrite (replace_from_step _ _ _ _ H0). f_equal.
  rewrite replace_from_step by reflexivity. f_equal.
  rewrite replace_from_step by reflexivity. f_equal.
  rewrite replace_from_step by reflexivity. f_equal.
  rewrite replace_from_step by reflexivity. f_equal.
  rewrite replace_from_step by reflexivity. f_equal.
  rewrite (replace_from_step _ _ _ _ (H7 _)). f_equal.
  rewrite replace_from_pass by exact HD'. f_equal.
  rewrite replace_from_step
    by (rewrite !startswith_cons, !N.eqb_refl; cbn [andb];
        apply (after_closing d ds t X Hd Ht HX)).
  f_equal.
  rewrite replace_from_step
    by (rewrite startswith_cons, N.eqb_refl; cbn [andb];
        apply (after_last_underscore _ t X Ht HX)).
  f_equal.
  apply replace_from_pass, Ht.
Qed.

Variable text : str.
Hypothesis no_underscore : Forall (fun x => x <> 95%N) text.

Lemma slice_no_underscore (a b : nat) :
  Forall (fun x => x <> 95%N) (str_slice text a b).
Proof. unfold str_slice. apply Forall_take, Forall_drop, no_underscore. Qed.

Lemma placeholder_opens (c : nat) (rest : str) :
  startswith [95%N; 95%N] (placeholder c ++ rest) = true.
Proof. reflexivity. Qed.

Lemma replace_name_left (l : list found) :
  forall (c c' b : nat) (new X : str),
    c < c' -> chain text b l -> startswith [95%N; 95%N] X = true ->
    replace_from (placeholder c) new 0 (left_part text c' l b ++ X)
    = left_part text c' l b ++ replace_from (placeholder c) new 0 X.
Proof.
  induction l as [|m l IH]; intros c c' b new X Hlt Hc HX.
  - cbn [left_part]. apply replace_name_pass, Forall_take, no_underscore.
  - destruct Hc as (Hm & Hmb & Hc). cbn [left_part].
    rewrite <- !app_assoc.
    rewrite IH; [|lia|exact Hc|apply placeholder_opens].
    rewrite replace_name_other;
      [reflexivity | lia | apply slice_no_underscore | exact HX].
Qed.

Lemma restore_names_fold (l : list found) :
  forall (c b : nat),
    chain text b l -> b <= length text ->
    restore_names_and_entities (left_part text c l b ++ skipn b text)
                               (entries c l)
    = text.
Proof.
  unfold restore_names_and_entities.
  induction l as [|m l IH]; intros c b Hc Hb.
  - simpl. apply firstn_skipn.
  - destruct Hc as ((Hm1 & Hm2 & Hm3) & Hmb & Hc).
    cbn [entries fold_left left_part fst snd].
    rewrite <- !app_assoc. rewrite slice_then_rest by lia.
    assert (E : str_replace (placeholder c) (snd m)
                  (left_part text (S c) l (fst (fst m))
                     ++ placeholder c ++ skipn (snd (fst m)) text)
                = left_part text (S c) l (fst (fst m))
                    ++ skipn (fst (fst m)) text).
    { rewrite str_replace_nonempty by (rewrite placeholder_eq; discriminate).
      rewrite replace_name_left;
        [|lia|exact Hc|apply placeholder_opens].
      rewrite replace_from_match by (rewrite placeholder_eq; discriminate).
      rewrite <- (app_nil_r (skipn (snd (fst m)) text)) at 1.
      rewrite replace_name_pass by apply Forall_drop, no_underscore.
      cbn [replace_from]. rewrite app_nil_r.
      rewrite Hm3. rewrite slice_then_rest by lia. reflexivity. }
    rewrite E. apply IH; [exact Hc | lia].
Qed.

End Names.

Section NameDetection.
Import Core NameSpec.
Variable text : str.

Lemma collect_matches_map (finds : list (list (nat * nat))) :
  collect_matches text finds
  = map (fun m : nat * nat => (fst m, snd m, str_slice text (fst m) (snd m)))
        (concat finds).
Proof.
  unfold collect_matches. induction finds as [|ms finds IH]; [reflexivity|].
  cbn [flat_map concat]. rewrite IH, map_app. reflexivity.
Qed.

Lemma collect_matches_spans (finds : list (list (nat * nat))) :
  map fst (collect_matches text finds) = concat finds.
Proof.
  rewrite collect_matches_map, map_map.
  rewrite <- (List.map_id (concat finds)) at 2.
  apply List.map_ext. intros [a b]. reflexivity.
Qed.

Lemma collect_matches_ok (finds : list (list (nat * nat))) :
  ProtectSpec.finds_ok text finds ->
  Forall (found_ok text) (collect_matches text finds).
Proof.
  intros Hf. rewrite collect_matches_map.
  assert (H : Forall (ProtectSpec.span_ok text) (concat finds)).
  { induction Hf as [|ms finds Hms _ IH]; [constructor|].
    cbn [concat]. apply Forall_app. split; assumption. }
  induction H as [|sp l [H1 H2] _ IH]; [constructor|].
  cbn [map]. constructor; [|exact IH].
  unfold found_ok. cbn [fst snd]. auto.
Qed.

Lemma name_insert_In (m y : found) (l : list found) :
  In y (insert_desc m l) <-> y = m \/ In y l.
Proof.
  induction l as [|x l IH]; simpl.
  - intuition.
  - destruct (fst (fst m) <? fst (fst x)); simpl; rewrite ?IH; intuition.
Qed.

Lemma name_sort_In (y : found) (l : list found) :
  In y (sort_desc l) <-> In y l.
Proof.
  induction l as [|x l IH]; simpl; [tauto|].
  rewrite name_insert_In, IH. intuition.
Qed.

Lemma name_insert_length (x : found) (s : list found) :
  length (insert_desc x s) = S (length s).
Proof.
  induction s as [|y s IH]; [reflexivity|]. simpl.
  destruct (fst (fst x) <? fst (fst y)); simpl; [rewrite IH|]; reflexivity.
Qed.

Lemma name_sort_length (l : list found) : length (sort_desc l) = length l.
Proof.
  induction l as [|x l IH]; [reflexivity|].
  change (sort_desc (x :: l)) with (insert_desc x (sort_desc l)).
  rewrite name_insert_length, IH. reflexivity.
Qed.

Lemma name_insert_chain (l : list found) (b : nat) (m : found) :
  chain text b l -> found_ok text m -> snd (fst m) <= b ->
  Forall (fun y => apart (fst m) (fst y)) l -> chain text b (insert_desc m l).
Proof.
  revert b. induction l as [|y l IH]; intros b Hc Hm Hb Hd; simpl.
  - auto.
  - destruct Hc as (Hy & Hyb & Hc). inversion Hd as [|? ? Hmy Hml]; subst.
    destruct Hm as (Hm1 & Hm2 & Hm3). destruct Hy as (Hy1 & Hy2 & Hy3).
    unfold apart in Hmy.
    destruct (fst (fst m) <? fst (fst y)) eqn:E.
    + apply Nat.ltb_lt in E. simpl. repeat split; try assumption.
      apply IH; try assumption; [repeat split; assumption | lia].
    + apply Nat.ltb_ge in E. simpl. repeat split; try assumption. lia.
Qed.

Lemma name_sort_chain (l : list found) :
  Forall (found_ok text) l -> pairwise_apart (map fst l) ->
  chain text (length text) (sort_desc l).
Proof.
  intros Hok Hp. induction l as [|x l IH]; simpl; [exact I|].
  destruct Hp as [Hx Hp]. inversion Hok as [|? ? Hxo Hlo]; subst.
  apply name_insert_chain.
  - apply IH; assumption.
  - exact Hxo.
  - apply Hxo.
  - rewrite List.Forall_forall in *. intros y Hy.
    apply Hx. apply in_map, name_sort_In, Hy.
Qed.

Lemma name_dict_set_fresh (d : dict) (c : nat) (v : str) :
  keys_below c d ->
  dict_set d (placeholder c) v = d ++ [(placeholder c, v)].
Proof.
  induction 1 as [|[k w] d (c' & Hlt & Hk) _ IH]; [reflexivity|].
  cbn [fst] in Hk. subst k. cbn [dict_set app].
  destruct (str_eqb (placeholder c) (placeholder c')) eqn:E.
  - apply str_eqb_eq, name_placeholder_inj in E. lia.
  - rewrite IH. reflexivity.
Qed.

Lemma name_keys_below_snoc (d : dict) (c : nat) (v : str) :
  keys_below c d -> keys_below (S c) (d ++ [(placeholder c, v)]).
Proof.
  intros H. apply Forall_app. split.
  - eapply List.Forall_impl; [|exact H]. intros e (c' & Hlt & Hk).
    exists c'. auto.
  - constructor; [|constructor]. exists c. auto.
Qed.

Lemma name_protect_fold (l : list found) :
  forall (c b : nat) (R : str) (d : dict),
    chain text b l -> b <= length text -> keys_below c d ->
    fold_left protect_step l (firstn b text ++ R, d, c)
    = (left_part text c l b ++ R, d ++ entries c l, c + length l).
Proof.
  induction l as [|m l IH]; intros c b R d Hc Hb Hd.
  - simpl. rewrite app_nil_r, Nat.add_0_r. reflexivity.
  - destruct Hc as ((Hm1 & Hm2 & Hm3) & Hmb & Hc).
    destruct m as [[s e] n]. cbn [fst snd] in *.
    cbn [fold_left protect_step left_part entries length fst snd].
    rewrite (firstn_prefix text) by lia.
    rewrite (skipn_prefix text) by lia.
    rewrite name_dict_set_fresh by assumption.
    rewrite IH; [|assumption|lia|apply name_keys_below_snoc; assumption].
    rewrite <- !app_assoc. simpl. f_equal. lia.
Qed.

Lemma entries_length (l : list found) (c : nat) :
  length (entries c l) = length l.
Proof.
  revert c. induction l as [|m l IH]; intros c; [reflexivity|].
  simpl. rewrite IH. reflexivity.
Qed.

Lemma entries_keys (l : list found) (c : nat) :
  map fst (entries c l) = map placeholder (seq c (length l)).
Proof.
  revert c. induction l as [|m l IH]; intros c; [reflexivity|].
  simpl. rewrite IH. reflexivity.
Qed.

Lemma preserve_names_eq (finds : list (list (nat * nat))) :
  ProtectSpec.finds_ok text finds -> pairwise_apart (concat finds) ->
  preserve_names_and_entities_on finds text
  = (left_part text 0 (sort_desc (collect_matches text finds)) (length text),
     entries 0 (sort_desc (collect_matches text finds))).
Proof.
  intros Hf Hp. unfold preserve_names_and_entities_on.
  pose proof (name_protect_fold (sort_desc (collect_matches text finds))
                0 (length text) [] []) as H.
  rewrite List.firstn_all, !app_nil_r in H.
  rewrite H; [reflexivity | | lia | constructor].
  apply name_sort_chain; [apply collect_matches_ok, Hf|].
  rewrite collect_matches_spans. exact Hp.
Qed.

End NameDetection.

(** X11.  The name protector of src/pdf_translator.py, for spans of which
    no two share a position, on a text without underscore: every span gets
    an entry of its own, keyed '__NAME_0__', '__NAME_1__', ... in the order
    of the replacements (from the end of the text backward), and restoring
    the unmodified protected text gives the original text back.  [finds]
    is any result of the pattern scans whose spans are non-empty and lie
    inside the text. *)
Theorem names_round_trip (text : str) (finds : list (list (nat * nat))) :
  ProtectSpec.finds_ok text finds ->
  NameSpec.pairwise_apart (concat finds) ->
  Forall (fun x => x <> NameSpec.UNDERSCORE) text ->
  map fst (snd (Core.preserve_names_and_entities_on finds text))
  = map Core.placeholder (seq 0 (length (concat finds))) /\
  Core.restore_names_and_entities
    (fst (Core.preserve_names_and_entities_on finds text))
    (snd (Core.preserve_names_and_entities_on finds text)) = text.
Proof.
  intros Hf Hp Hu. rewrite (preserve_names_eq text finds Hf Hp).
  cbn [fst snd]. split.
  - rewrite entries_keys, name_sort_length.
    rewrite <- (collect_matches_spans text finds), length_map. reflexivity.
  - pose proof (restore_names_fold text Hu
                  (Core.sort_desc (Core.collect_matches text finds)) 0
                  (length text)) as H.
    rewrite List.skipn_all, app_nil_r in H. apply H; [|apply Nat.le_refl].
    apply name_sort_chain; [apply collect_matches_ok, Hf|].
    rewrite collect_matches_spans. exact Hp.
Qed.

Lemma names_round_trip_witness :
  map fst (snd (Core.preserve_names_and_entities_on
                  (Samples.core_finds Cases.two_names) Cases.two_names))
  = map Core.placeholder
        (seq 0 (length (concat (Samples.core_finds Cases.two_names)))) /\
  Core.restore_names_and_entities
    (fst (Core.preserve_names_and_entities_on
            (Samples.core_finds Cases.two_names) Cases.two_names))
    (snd (Core.preserve_names_and_entities_on
            (Samples.core_finds Cases.two_names) Cases.two_names))
  = Cases.two_names.
Proof.
  apply (names_round_trip Cases.two_names
           (Samples.core_finds Cases.two_names)).
  - vm_compute. repeat constructor.
  - vm_compute. repeat constructor; lia.
  - apply forallb_neq. vm_compute. reflexivity.
Defined.

(** The same text through the real patterns: two placeholders, numbered
    from the end of the text backward. *)
Example two_names_protected :
  Core.preserve_names_and_entities_on (Samples.core_finds Cases.two_names)
                                      Cases.two_names
  = (u "we met __NAME_1__ and __NAME_0__.",
     [(u "__NAME_0__", u "Mary Jones"); (u "__NAME_1__", u "John Smith")]).
Proof. vm_compute. reflexivity. Qed.

(** ** The front ends *)
Section UploadFilter.
Import Web.

Lemma str_in_single (z : N) (s : str) :
  str_in [z] s = false <-> Forall (fun x => x <> z) s.
Proof.
  induction s as [|c s IH]; cbn [str_in startswith].
  - split; [constructor | reflexivity].
  - rewrite andb_true_r, orb_false_iff, IH, N.eqb_neq. split.
    + intros [H1 H2]. constructor; [congruence | exact H2].
    + intros H. inversion H; subst. split; [congruence | assumption].
Qed.

(** [rsplit] cuts at the last separator. *)
Lemma rsplit1_spec (sep : N) (s : str) :
  (Forall (fun x => x <> sep) s /\ rsplit1 sep s = [s]) \/
  (exists base ext,
      s = base ++ sep :: ext /\ Forall (fun x => x <> sep) ext /\
      rsplit1 sep s = [base; ext]).
Proof.
  induction s as [|c s [[Hs E]|(base & ext & -> & Hext & E)]].
  - left. split; [constructor | reflexivity].
  - cbn [rsplit1]. rewrite E. destruct (N.eqb_spec c sep) as [->|Hne].
    + right. exists [], s. auto.
    + left. split; [constructor; assumption | reflexivity].
  - right. exists (c :: base), ext. cbn [rsplit1]. rewrite E. auto.
Qed.

Lemma last_cut_unique (z : N) (a a' r r' : str) :
  Forall (fun x => x <> z) r -> Forall (fun x => x <> z) r' ->
  a ++ z :: r = a' ++ z :: r' -> r = r'.
Proof.
  intros Hr Hr' E. apply (f_equal (@rev N)) in E.
  rewrite !rev_app_distr in E. cbn [rev] in E. rewrite <- !app_assoc in E.
  cbn [app] in E.
  apply app_sep_inj in E as [E _]; try (apply Forall_rev; assumption).
  apply (f_equal (@rev N)) in E. rewrite !rev_involutive in E. exact E.
Qed.

End UploadFilter.

(** X13.  [allowed_file] never fails, and it accepts a file name exactly
    when what follows its last dot is, in lower case, 'pdf': a name without
    dot is refused, and so is a name whose last extension is another one,
    whatever stands before. *)
Theorem allowed_file_last_extension (lower : str -> str) (filename : str) :
  exists b,
    Web.allowed_file lower filename = Some b /\
    (b = true <->
     exists base ext,
       filename = base ++ Web.DOT :: ext /\
       Forall (fun x => x <> Web.DOT) ext /\ lower ext = u "pdf").
Proof.
  unfold Web.allowed_file.
  destruct (rsplit1_spec Web.DOT filename)
    as [[Hs E]|(base & ext & -> & Hext & E)].
  - rewrite (proj2 (str_in_single Web.DOT filename) Hs).
    exists false. split; [reflexivity|]. split; [discriminate|].
    intros (base & ext & -> & _). exfalso.
    apply Forall_app in Hs as [_ Hs]. inversion Hs; congruence.
  - rewrite E.
    change (base ++ Web.DOT :: ext) with (base ++ [Web.DOT] ++ ext).
    rewrite str_in_app. cbn [nth_error Web.ALLOWED_EXTENSIONS existsb].
    eexists. split; [reflexivity|]. rewrite orb_false_r, str_eqb_eq. split.
    + intros H. exists base, ext. auto.
    + intros (base' & ext' & E' & Hext' & Hl).
      rewrite (last_cut_unique Web.DOT base base' ext ext' Hext Hext' E').
      exact Hl.
Qed.

(** With the case mapping of the ASCII range. *)
Example allowed_file_ex :
  map (Web.allowed_file Cases.ascii_lower)
      [u "report.PDF"; u "report.pdf.exe"; u "report"; u ".pdf"; u "a.b.Pdf"]
  = [Some true; Some false; Some false; Some true; Some true].
Proof. vm_compute. reflexivity. Qed.

Section SourceLanguage.
Import Cli.

Lemma in_values_In (x : str) (d : dict) :
  in_values x d = true <-> In x (map snd d).
Proof.
  unfold in_values. rewrite existsb_exists, in_map_iff. split.
  - intros ([k v] & Hin & E). apply str_eqb_eq in E. exists (k, v). auto.
  - intros ([k v] & E & Hin). exists (k, v). split; [exact Hin|].
    apply str_eqb_eq. symmetry. exact E.
Qed.

Lemma in_keys_In (x : str) (d : dict) :
  in_keys x d = true <-> In x (map fst d).
Proof.
  unfold in_keys. rewrite existsb_exists, in_map_iff. split.
  - intros ([k v] & Hin & E). apply str_eqb_eq in E. exists (k, v). auto.
  - intros ([k v] & E & Hin). exists (k, v). split; [exact Hin|].
    apply str_eqb_eq. symmetry. exact E.
Qed.

Lemma get_In (d : dict) (k v : str) : get d k = Some v -> In (k, v) d.
Proof.
  induction d as [|[k' v'] d IH]; [discriminate|]. cbn [get].
  destruct (str_eqb k k') eqn:E.
  - apply str_eqb_eq in E. intros H. injection H as ->. subst. left. reflexivity.
  - intros H. right. apply IH, H.
Qed.

Lemma get_in_keys (d : dict) (k : str) :
  in_keys k d = true -> exists v, get d k = Some v.
Proof.
  unfold in_keys. induction d as [|[k' v'] d IH]; [discriminate|].
  cbn [existsb get fst]. destruct (str_eqb k k'); [eauto | exact IH].
Qed.

(** The table: no name is a code, no code is a name or empty, and a name
    has one code. *)
Lemma table_entry (name code : str) :
  In (name, code) SUPPORTED_LANGUAGES ->
  in_values name SUPPORTED_LANGUAGES = false /\
  in_keys name SUPPORTED_LANGUAGES = true /\
  in_values code SUPPORTED_LANGUAGES = true /\
  in_keys code SUPPORTED_LANGUAGES = false /\
  get SUPPORTED_LANGUAGES name = Some code /\
  code <> [] /\ str_eqb name (u "auto") = false /\
  str_eqb code (u "auto") = false.
Proof.
  intros H. cbv in H.
  repeat (destruct H as [H|H];
          [injection H as <- <-; repeat split; try discriminate;
           vm_compute; reflexivity|]).
  contradiction.
Qed.

Lemma get_none (d : dict) (k : str) :
  ~ In k (map fst d) -> get d k = None.
Proof.
  intros H. destruct (get d k) as [v|] eqn:E; [|reflexivity].
  exfalso. apply H. apply get_In in E. apply in_map_iff. exists (k, v). auto.
Qed.

End SourceLanguage.

(** X14.  The language menu of [single_pdf_mode] and [batch_mode] never
    fails, and what it hands on is 'auto' or a code of the table: without
    the choice '2' it is 'auto', without warning; with it, the line typed
    is stripped and put in lower case, a code of the table stands for
    itself, a name of the table for its code, and anything else gives
    'auto' with the warning. *)
Theorem menu_language_is_a_code (lower : str -> str)
    (choice_line language_line : str) :
  exists lang warned,
    Cli.menu_source_lang lower choice_line language_line
    = Some (lang, warned) /\
    (lang = u "auto" \/ In lang (map snd SUPPORTED_LANGUAGES)) /\
    (warned = true -> lang = u "auto") /\
    (strip choice_line <> u "2" -> lang = u "auto" /\ warned = false) /\
    (forall name code,
        In (name, code) SUPPORTED_LANGUAGES ->
        strip choice_line = u "2" ->
        lower (strip language_line) = name \/
        lower (strip language_line) = code ->
        lang = code /\ warned = false) /\
    (strip choice_line = u "2" ->
     ~ In (lower (strip language_line)) (map fst SUPPORTED_LANGUAGES) ->
     ~ In (lower (strip language_line)) (map snd SUPPORTED_LANGUAGES) ->
     lang = u "auto" /\ warned = true).
Proof.
  unfold Cli.menu_source_lang.
  destruct (str_eqb (strip choice_line) (u "2")) eqn:Ec.
  - apply str_eqb_eq in Ec.
    set (lang_input := lower (strip language_line)).
    destruct (Cli.in_values lang_input SUPPORTED_LANGUAGES) eqn:Ev.
    + exists lang_input, false. split; [reflexivity|].
      split; [right; apply in_values_In, Ev|]. split; [discriminate|].
      split; [congruence|]. split.
      * intros name code Hin _ [E|E]; [|auto].
        destruct (table_entry name code Hin) as (H1 & _). congruence.
      * intros _ _ Hv. exfalso. apply Hv, in_values_In, Ev.
    + destruct (Cli.in_keys lang_input SUPPORTED_LANGUAGES) eqn:Ek.
      * destruct (get_in_keys _ _ Ek) as [v Hv]. rewrite Hv.
        exists v, false. split; [reflexivity|]. split.
        -- right. apply get_In in Hv. apply in_map_iff. exists (lang_input, v).
           auto.
        -- split; [discriminate|]. split; [congruence|]. split.
           ++ intros name code Hin _ [E|E];
                destruct (table_entry name code Hin)
                  as (_ & _ & H3 & _ & H5 & _).
              ** rewrite E in Hv. split; [congruence | reflexivity].
              ** congruence.
           ++ intros _ Hk _. exfalso. apply Hk, in_keys_In, Ek.
      * exists (u "auto"), true. split; [reflexivity|].
        split; [left; reflexivity|]. split; [reflexivity|].
        split; [congruence|]. split.
        -- intros name code Hin _ [E|E];
             destruct (table_entry name code Hin) as (_ & H2 & H3 & _);
             congruence.
        -- intros _ _ _. split; reflexivity.
  - exists (u "auto"), false. split; [reflexivity|].
    split; [left; reflexivity|]. split; [discriminate|].
    split; [auto|]. split.
    + intros name code _ E. apply str_eqb_eq in E. congruence.
    + intros E. apply str_eqb_eq in E. congruence.
Qed.

(** X15.  The language check of [main]: what it hands on is 'auto', a code
    of the table or a name of the table.  'auto' stays 'auto', without
    warning.  A code or a name of the table is handed on as it was given,
    so a name is not replaced by its code (the menu does replace it).  Any
    other argument is looked up in lower case among the names: it gives
    the code of the name found, and 'auto' with the warning when its
    lower case is no name of the table. *)
Theorem main_language_keeps_names (lower : str -> str) (language : str) :
  exists lang warned,
    Cli.main_source_lang lower language = (lang, warned) /\
    (lang = u "auto" \/ In lang (map snd SUPPORTED_LANGUAGES) \/
     In lang (map fst SUPPORTED_LANGUAGES)) /\
    (warned = true -> lang = u "auto") /\
    (language = u "auto" -> lang = u "auto" /\ warned = false) /\
    (In language (map fst SUPPORTED_LANGUAGES) \/
     In language (map snd SUPPORTED_LANGUAGES) ->
     lang = language /\ warned = false) /\
    (forall name code,
        In (name, code) SUPPORTED_LANGUAGES ->
        language <> u "auto" ->
        ~ In language (map fst SUPPORTED_LANGUAGES) ->
        ~ In language (map snd SUPPORTED_LANGUAGES) ->
        lower language = name -> lang = code /\ warned = false) /\
    (language <> u "auto" ->
     ~ In language (map fst SUPPORTED_LANGUAGES) ->
     ~ In language (map snd SUPPORTED_LANGUAGES) ->
     ~ In (lower language) (map fst SUPPORTED_LANGUAGES) ->
     lang = u "auto" /\ warned = true).
Proof.
  unfold Cli.main_source_lang.
  destruct (str_eqb language (u "auto")) eqn:Ea; cbn [negb].
  - apply str_eqb_eq in Ea. exists language, false.
    split; [reflexivity|]. split; [left; exact Ea|]. split; [discriminate|].
    split; [auto|]. split; [auto|]. split; intros; congruence.
  - assert (Hna : language <> u "auto").
    { intros H. apply str_eqb_eq in H. congruence. }
    destruct (Cli.in_values language SUPPORTED_LANGUAGES) eqn:Ev; cbn [negb andb].
    + exists language, false. split; [reflexivity|].
      split; [right; left; apply in_values_In, Ev|]. split; [discriminate|].
      split; [intros; contradiction|]. split; [auto|]. split.
      * intros name code _ _ _ Hv. exfalso. apply Hv, in_values_In, Ev.
      * intros _ _ Hv. exfalso. apply Hv, in_values_In, Ev.
    + destruct (Cli.in_keys language SUPPORTED_LANGUAGES) eqn:Ek; cbn [negb].
      * exists language, false. split; [reflexivity|].
        split; [right; right; apply in_keys_In, Ek|]. split; [discriminate|].
        split; [intros; contradiction|]. split; [auto|]. split.
        -- intros name code _ _ Hk. exfalso. apply Hk, in_keys_In, Ek.
        -- intros _ Hk. exfalso. apply Hk, in_keys_In, Ek.
      * destruct (Cli.get SUPPORTED_LANGUAGES (lower language))
          as [[|c s]|] eqn:Eg.
        -- exists (u "auto"), true. split; [reflexivity|].
           split; [left; reflexivity|]. split; [reflexivity|].
           split; [intros; contradiction|]. split; [|split].
           ++ intros [H|H]; [apply in_keys_In in H | apply in_values_In in H];
                congruence.
           ++ intros name code Hin _ _ _ E.
              destruct (table_entry name code Hin) as (_ & _ & _ & _ & H5 & H6 & _).
              rewrite E in Eg. congruence.
           ++ intros; split; reflexivity.
        -- eexists (c :: s), _. split; [reflexivity|]. split.
           ++ right. left. apply get_In in Eg. apply in_map_iff.
              exists (lower language, c :: s). auto.
           ++ split; [intros H; apply str_eqb_eq in H; exact H|].
              split; [intros; contradiction|]. split; [|split].
              ** intros [H|H];
                   [apply in_keys_In in H | apply in_values_In in H];
                   congruence.
              ** intros name code Hin _ _ _ E.
                 destruct (table_entry name code Hin)
                   as (_ & _ & _ & _ & H5 & _ & _ & H8).
                 rewrite E in Eg. rewrite H5 in Eg. injection Eg as <-.
                 split; [reflexivity | exact H8].
              ** intros _ _ _ Hl. exfalso.
                 rewrite (get_none _ _ Hl) in Eg. discriminate.
        -- exists (u "auto"), true. split; [reflexivity|].
           split; [left; reflexivity|]. split; [reflexivity|].
           split; [intros; contradiction|]. split; [|split].
           ++ intros [H|H]; [apply in_keys_In in H | apply in_values_In in H];
                congruence.
           ++ intros name code Hin _ _ _ E.
              destruct (table_entry name code Hin) as (_ & _ & _ & _ & H5 & _).
              rewrite E in Eg. congruence.
           ++ intros; split; reflexivity.
Qed.

(** With the case mapping of the ASCII range: the menu turns a name into
    its code, [main] hands the name on. *)
Example source_language_ex :
  Cli.menu_source_lang Cases.ascii_lower (u " 2") (u " Spanish ")
  = Some (u "es", false) /\
  Cli.main_source_lang Cases.ascii_lower (u "spanish") = (u "spanish", false) /\
  Cli.main_source_lang Cases.ascii_lower (u "Spanish") = (u "es", false) /\
  Cli.main_source_lang Cases.ascii_lower (u "es") = (u "es", false) /\
  Cli.main_source_lang Cases.ascii_lower (u "klingon") = (u "auto", true).
Proof. repeat split; vm_compute; reflexivity. Qed.

(** ** The spans the web application keeps *)
Section Kept.
Import Webapp ProtectSpec.
Variable text : str.

Lemma keep_match_from (P : found -> Prop) (all : list found) (sp : nat * nat) :
  P {| m_text := str_slice text (fst sp) (snd sp);
       m_start := fst sp; m_end := snd sp |} ->
  Forall P all -> Forall P (keep_match text all sp).
Proof.
  destruct sp as [st en]. unfold keep_match. cbn [fst snd]. intros Hsp Hall.
  destruct (existsb (overlaps st en) all); [exact Hall|].
  apply Forall_app. split; [exact Hall | constructor; [exact Hsp | constructor]].
Qed.

Lemma collect_matches_from (P : found -> Prop)
    (finds : list (list (nat * nat))) :
  (forall sp, In sp (concat finds) ->
     P {| m_text := str_slice text (fst sp) (snd sp);
          m_start := fst sp; m_end := snd sp |}) ->
  Forall P (collect_matches text finds).
Proof.
  unfold collect_matches. intros H.
  assert (G : forall all, Forall P all ->
            Forall P (fold_left (fun all ms => fold_left (keep_match text) ms all)
                                finds all)).
  { induction finds as [|ms finds IH]; intros all Hall; [exact Hall|].
    cbn [fold_left]. apply IH.
    - intros sp Hsp. apply H. cbn [concat]. apply in_or_app. right. exact Hsp.
    - assert (Hms : forall sp, In sp ms ->
                P {| m_text := str_slice text (fst sp) (snd sp);
                     m_start := fst sp; m_end := snd sp |}).
      { intros sp Hsp. apply H. cbn [concat]. apply in_or_app. left. exact Hsp. }
      clear - Hms Hall. revert all Hall.
      induction ms as [|sp ms IHms]; intros all Hall; [exact Hall|].
      cbn [fold_left]. apply IHms.
      + intros x Hx. apply Hms. right. exact Hx.
      + apply keep_match_from; [apply Hms; left; reflexivity | exact Hall]. }
  apply G. constructor.
Qed.

Lemma keep_match_head (x : found) (all : list found) (sp : nat * nat) :
  exists rest, keep_match text (x :: all) sp = x :: rest.
Proof.
  destruct sp as [st en]. unfold keep_match.
  destruct (existsb _ _); eexists; reflexivity.
Qed.

Lemma fold_keep_head (ms : list (nat * nat)) :
  forall (x : found) (all : list found),
    exists rest, fold_left (keep_match text) ms (x :: all) = x :: rest.
Proof.
  induction ms as [|sp ms IH]; intros x all; [eexists; reflexivity|].
  cbn [fold_left]. destruct (keep_match_head x all sp) as [rest ->]. apply IH.
Qed.

Lemma collect_head (finds : list (list (nat * nat))) :
  forall (x : found) (all : list found),
    exists rest,
      fold_left (fun all ms => fold_left (keep_match text) ms all) finds
                (x :: all) = x :: rest.
Proof.
  induction finds as [|ms finds IH]; intros x all; [eexists; reflexivity|].
  cbn [fold_left]. destruct (fold_keep_head ms x all) as [rest ->]. apply IH.
Qed.

(** The first candidate of the scan is always kept, as the first span. *)
Lemma collect_matches_first (finds : list (list (nat * nat))) :
  match concat finds with
  | sp :: _ =>
      exists rest,
        collect_matches text finds
        = {| m_text := str_slice text (fst sp) (snd sp);
             m_start := fst sp; m_end := snd sp |} :: rest
  | [] => collect_matches text finds = []
  end.
Proof.
  unfold collect_matches. induction finds as [|[|sp ms] finds IH].
  - reflexivity.
  - exact IH.
  - cbn [concat app fold_left]. destruct sp as [st en].
    change (keep_match text [] (st, en))
      with [{| m_text := str_slice text st en; m_start := st; m_end := en |}].
    destruct (fold_keep_head ms
                {| m_text := str_slice text st en; m_start := st; m_end := en |}
                []) as [rest ->].
    apply collect_head.
Qed.

End Kept.

(** X17.  The spans [preserve_proper_nouns] of the web application keeps,
    for any result of the pattern scans whose spans are non-empty and lie
    inside the text: no two of them share a position; each is one of the
    candidates, with the text of its span; every candidate shares a
    position with a kept span (itself, when it is kept); and the first
    candidate of the scan is always kept. *)
Theorem webapp_kept_spans (text : str) (finds : list (list (nat * nat))) :
  ProtectSpec.finds_ok text finds ->
  ProtectSpec.pairwise_disjoint (Webapp.collect_matches text finds) /\
  Forall (fun m =>
            In (Webapp.m_start m, Webapp.m_end m) (concat finds) /\
            Webapp.m_text m
            = str_slice text (Webapp.m_start m) (Webapp.m_end m))
         (Webapp.collect_matches text finds) /\
  Forall (Forall (ProtectSpec.covered (Webapp.collect_matches text finds)))
         finds /\
  match concat finds with
  | sp :: _ =>
      exists rest,
        Webapp.collect_matches text finds
        = {| Webapp.m_text := str_slice text (fst sp) (snd sp);
             Webapp.m_start := fst sp; Webapp.m_end := snd sp |} :: rest
  | [] => Webapp.collect_matches text finds = []
  end.
Proof.
  intros Hf. destruct (collect_matches_covers text finds Hf) as [Hd Hc].
  split; [exact Hd|]. split; [|split; [exact Hc | apply collect_matches_first]].
  apply collect_matches_from. intros [st en] Hsp. cbn [Webapp.m_start
    Webapp.m_end Webapp.m_text fst snd]. auto.
Qed.

Lemma webapp_kept_spans_witness :
  let kept := Webapp.collect_matches Samples.mail
                (Samples.webapp_finds Samples.mail) in
  ProtectSpec.pairwise_disjoint kept /\
  Forall (fun m =>
            In (Webapp.m_start m, Webapp.m_end m)
               (concat (Samples.webapp_finds Samples.mail)) /\
            Webapp.m_text m
            = str_slice Samples.mail (Webapp.m_start m) (Webapp.m_end m))
         kept /\
  Forall (Forall (ProtectSpec.covered kept))
         (Samples.webapp_finds Samples.mail) /\
  match concat (Samples.webapp_finds Samples.mail) with
  | sp :: _ =>
      exists rest,
        kept
        = {| Webapp.m_text := str_slice Samples.mail (fst sp) (snd sp);
             Webapp.m_start := fst sp; Webapp.m_end := snd sp |} :: rest
  | [] => kept = []
  end.
Proof.
  apply (webapp_kept_spans Samples.mail (Samples.webapp_finds Samples.mail)).
  vm_compute. repeat constructor.
Defined.

(** ** The paragraphs handed to the writer *)
Section Paragraphs.
Import Core ChunkSpec TraceSpec.

(** [replace('\n', ' ')] works code point by code point. *)
Lemma replace_newline (s : str) :
  str_replace [NEWLINE] [SPACE] s
  = map (fun c => if (NEWLINE =? c)%N then SPACE else c) s.
Proof.
  unfold str_replace. induction s as [|c s IH]; [reflexivity|].
  cbn [replace_from startswith length Nat.sub map]. rewrite andb_true_r.
  destruct (NEWLINE =? c)%N; cbn [app]; rewrite IH; reflexivity.
Qed.

Lemma starts_word_map (f : N -> N) (s : str) :
  (forall c, isspace (f c) = isspace c) ->
  starts_word (map f s) = starts_word s.
Proof. intros Hf. destruct s as [|c s]; [reflexivity|]. simpl. rewrite Hf. reflexivity. Qed.

(** White space exchanged for white space leaves the words as they are. *)
Lemma words_map (f : N -> N) (s : str) :
  (forall c, isspace (f c) = isspace c) ->
  (forall c, isspace c = false -> f c = c) ->
  words (map f s) = words s.
Proof.
  intros Hf Hid. induction s as [|c s IH]; [reflexivity|].
  cbn [map words]. rewrite Hf, (starts_word_map f s Hf), IH.
  destruct (isspace c) eqn:Hc; [reflexivity|].
  rewrite (Hid c Hc). reflexivity.
Qed.

Lemma words_replace_newline (s : str) :
  words (str_replace [NEWLINE] [SPACE] s) = words s.
Proof.
  rewrite replace_newline. apply words_map.
  - intros c. destruct (N.eqb_spec NEWLINE c) as [<-|]; reflexivity.
  - intros c Hc. destruct (N.eqb_spec NEWLINE c) as [<-|];
      [discriminate | reflexivity].
Qed.

(** The pieces of [split('\n\n')]: the break between two of them is white
    space, so the words are those of the text. *)
Lemma split_breaks_words (n : nat) :
  forall s, length s <= n ->
    flat_map words (str_split [NEWLINE; NEWLINE] s) = words s /\
    exists p ps, str_split [NEWLINE; NEWLINE] s = p :: ps /\
                 starts_word p = starts_word s.
Proof.
  unfold str_split. induction n as [|n IH]; intros s Hlen.
  - destruct s; [|simpl in Hlen; lia]. split; [reflexivity|].
    exists [], []. auto.
  - destruct s as [|c s]; [split; [reflexivity | exists [], []; auto]|].
    cbn [split_from].
    destruct (startswith [NEWLINE; NEWLINE] (c :: s)) eqn:E.
    + apply startswith_spec in E as [r Hr]. cbn [app] in Hr.
      injection Hr as -> ->. cbn [length Nat.sub split_from].
      destruct (IH r) as [Hw _]; [simpl in Hlen; lia|].
      split; [|exists [], (split_from [NEWLINE; NEWLINE] 0 r); auto].
      cbn [flat_map]. rewrite Hw. reflexivity.
    + destruct (IH s) as [Hw (p & ps & Ep & Hp)]; [simpl in Hlen; lia|].
      rewrite Ep in *. cbn [cons_hd flat_map] in *.
      split; [|exists (c :: p), ps; auto].
      destruct (isspace c) eqn:Hc.
      * simpl. rewrite Hc. exact Hw.
      * destruct (starts_word s) eqn:Hs.
        -- destruct (words_cons_word c s Hc Hs) as (w & ws & F1 & F2).
           destruct (words_cons_word c p Hc Hp) as (w' & ws' & F3 & F4).
           rewrite F2, F4. rewrite F1, F3 in Hw. simpl in Hw.
           injection Hw as G1 G2. subst w ws. reflexivity.
        -- rewrite (words_cons_alone c s), (words_cons_alone c p)
             by assumption.
           simpl. rewrite Hw. reflexivity.
Qed.

Lemma words_split (s : str) :
  flat_map words (str_split [NEWLINE; NEWLINE] s) = words s.
Proof. apply (split_breaks_words (length s) s (Nat.le_refl _)). Qed.

Lemma words_unstripped (s : str) : strip s = [] -> words s = [].
Proof. intros H. apply words_blank, blank_forallb, strip_nil, H. Qed.

Lemma nonempty_true (s : str) : nonempty s = true <-> s <> [].
Proof. destruct s; simpl; split; congruence. Qed.

Lemma paragraphs_words (l : list str) :
  flat_map words
    (map (fun para => str_replace [NEWLINE] [SPACE] (strip para))
         (filter (fun para => nonempty (strip para)) l))
  = flat_map words l.
Proof.
  induction l as [|x l IH]; [reflexivity|].
  rewrite filter_cons. destruct (decide (nonempty (strip x))) as [H|H].
  - cbn [map flat_map]. rewrite IH, words_replace_newline, words_strip.
    reflexivity.
  - cbn [flat_map]. rewrite IH, words_unstripped; [reflexivity|].
    destruct (strip x); [reflexivity|]. exfalso. apply H. exact I.
Qed.

Lemma paragraphs_clean (l : list str) :
  Forall (fun p => p <> [] /\ Forall (fun c => c <> NEWLINE) p)
    (map (fun para => str_replace [NEWLINE] [SPACE] (strip para))
         (filter (fun para => nonempty (strip para)) l)).
Proof.
  induction l as [|x l IH]; [constructor|].
  rewrite filter_cons. destruct (decide (nonempty (strip x))) as [H|H];
    [|exact IH].
  cbn [map]. constructor; [|exact IH]. rewrite replace_newline. split.
  - destruct (strip x); [contradiction | discriminate].
  - apply List.Forall_forall. intros c Hc. apply in_map_iff in Hc as (y & <- & _).
    destruct (N.eqb_spec NEWLINE y); [discriminate | congruence].
Qed.

End Paragraphs.

(** X16.  [create_pdf_from_text] calls the writer once, with the title and
    the paragraphs of the text.  No paragraph is empty and none holds a
    line feed, and the words of the paragraphs are the words of the text,
    in order: laying the text out loses white space only.  The result is
    the writer's, its exception included. *)
Theorem pdf_paragraphs_keep_words {W : Type} (env : Env W)
    (text output_path title : str) (w : W) (trace : list event) :
  exists paragraphs,
    Core.create_pdf_from_text env text output_path title (w, trace)
    = (fst (doc_build env w output_path title paragraphs),
       (snd (doc_build env w output_path title paragraphs),
        trace ++ [EvBuild output_path title paragraphs])) /\
    Forall (fun p => p <> [] /\ Forall (fun c => c <> NEWLINE) p)
           paragraphs /\
    flat_map ChunkSpec.words paragraphs = ChunkSpec.words text.
Proof.
  exists (TraceSpec.paragraphs text). split; [apply create_pdf_run|].
  unfold TraceSpec.paragraphs. split; [apply paragraphs_clean|].
  rewrite paragraphs_words. apply words_split.
Qed.

(** Two paragraphs, the second broken over two lines; the blank stretch
    between the breaks is no paragraph. *)
Example paragraphs_ex :
  TraceSpec.paragraphs
    (u "One." ++ [NEWLINE; NEWLINE; SPACE; NEWLINE; NEWLINE]
       ++ u "Two" ++ [NEWLINE] ++ u "lines. ")
  = [u "One."; u "Two lines."].
Proof. vm_compute. reflexivity. Qed.

(** ** The whole chunked translation with a service that echoes *)
Section ReplaceWords.
Import ChunkSpec.
Variables old new : str.
Hypothesis old_nonempty : old <> [].
Hypothesis old_solid : Forall (fun x => isspace x = false) old.

Lemma prefix_before (z : N) (p : str) :
  Forall (fun x => x <> z) p ->
  forall a b r, a ++ z :: b = p ++ r -> exists a', a = p ++ a'.
Proof.
  induction 1 as [|x p Hx _ IH]; intros a b r E; [exists a; reflexivity|].
  destruct a as [|y a]; cbn [app] in E.
  - injection E as E _. congruence.
  - injection E as -> E. destruct (IH a b r E) as [a' ->].
    exists a'. reflexivity.
Qed.

(** A code point that is not in [old] separates the replacements. *)
Lemma replace_from_split (z : N) (n : nat) :
  Forall (fun x => x <> z) old ->
  forall a b, length a <= n ->
    replace_from old new 0 (a ++ z :: b)
    = replace_from old new 0 a ++ z :: replace_from old new 0 b.
Proof.
  intros Hz. induction n as [|n IH]; intros a b Hlen.
  - destruct a; [|simpl in Hlen; lia]. cbn [app].
    apply replace_from_step.
    destruct old as [|x o]; [contradiction|]. inversion Hz; subst.
    apply startswith_head. assumption.
  - destruct a as [|c a].
    + cbn [app]. apply replace_from_step.
      destruct old as [|x o]; [contradiction|]. inversion Hz; subst.
      apply startswith_head. assumption.
    + destruct (startswith old ((c :: a) ++ z :: b)) eqn:E.
      * apply startswith_spec in E as [r Hr].
        destruct (prefix_before z old Hz (c :: a) b r Hr) as [a' Ea].
        rewrite Ea, <- app_assoc.
        rewrite !replace_from_match by assumption.
        rewrite IH; [rewrite <- app_assoc; reflexivity|].
        apply (f_equal (@length N)) in Ea. rewrite length_app in Ea.
        destruct old; [contradiction|]. simpl in *. lia.
      * assert (E' : startswith old (c :: a) = false).
        { destruct (startswith old (c :: a)) eqn:F; [|reflexivity].
          apply startswith_spec in F as [r Hr].
          assert (startswith old ((c :: a) ++ z :: b) = true).
          { apply startswith_spec. exists (r ++ z :: b).
            rewrite Hr, <- app_assoc. reflexivity. }
          congruence. }
        cbn [app] in *. rewrite (replace_from_step _ _ _ _ E).
        rewrite (replace_from_step _ _ _ _ E').
        rewrite IH by (simpl in Hlen; lia). reflexivity.
Qed.

Lemma words_replace_split (z : N) (a b : str) :
  isspace z = true ->
  words (str_replace old new (a ++ z :: b))
  = words (str_replace old new a) ++ words (str_replace old new b).
Proof.
  intros Hz. rewrite !str_replace_nonempty by assumption.
  rewrite (replace_from_split z (length a)); [|  | apply Nat.le_refl].
  - apply words_app_space, Hz.
  - eapply List.Forall_impl; [|exact old_solid]. intros x Hx ->. congruence.
Qed.

(** The first word of a text that starts with one. *)
Lemma first_word (s : str) :
  starts_word s = true ->
  exists w rest,
    s = w ++ rest /\ length rest < length s /\
    (rest = [] \/ exists z b, rest = z :: b /\ isspace z = true) /\
    words s = w :: words rest.
Proof.
  induction s as [|c s IH]; [discriminate|]. cbn [starts_word].
  intros Hc. apply negb_true_iff in Hc.
  destruct (starts_word s) eqn:Hs.
  - destruct (IH eq_refl) as (w & rest & -> & Hlen & Hrest & Hw).
    exists (c :: w), rest. split; [reflexivity|]. split; [simpl; lia|].
    split; [exact Hrest|].
    destruct (words_cons_word c (w ++ rest) Hc Hs) as (w0 & ws0 & E1 & E2).
    rewrite E2. rewrite Hw in E1. injection E1 as <- <-. reflexivity.
  - exists [c], s. split; [reflexivity|]. split; [simpl; lia|]. split.
    + destruct s as [|z b]; [left; reflexivity|]. right. exists z, b.
      split; [reflexivity|]. simpl in Hs. apply negb_false_iff in Hs. exact Hs.
    + apply words_cons_alone; assumption.
Qed.

(** The words after a replacement are those of the replacement in every
    word. *)
Lemma words_replace (n : nat) :
  forall s, length s <= n ->
    words (str_replace old new s)
    = flat_map (fun w => words (str_replace old new w)) (words s).
Proof.
  induction n as [|n IH]; intros s Hlen.
  - destruct s; [|simpl in Hlen; lia].
    rewrite str_replace_nonempty by assumption. reflexivity.
  - destruct s as [|c s];
      [rewrite str_replace_nonempty by assumption; reflexivity|].
    destruct (isspace c) eqn:Hc.
    + change (c :: s) with ([] ++ c :: s) at 1.
      rewrite (words_replace_split c [] s Hc).
      rewrite (str_replace_nonempty old new []) by assumption.
      cbn [replace_from words app]. rewrite IH by (simpl in Hlen; lia).
      simpl. rewrite Hc. reflexivity.
    + destruct (first_word (c :: s)) as (w & rest & E & Hl & Hrest & Hw).
      { simpl. rewrite Hc. reflexivity. }
      rewrite Hw. cbn [flat_map]. rewrite E.
      destruct Hrest as [->|(z & b & -> & Hz)].
      * rewrite app_nil_r. cbn [words flat_map]. rewrite app_nil_r.
        reflexivity.
      * rewrite (words_replace_split z w b Hz). f_equal.
        rewrite IH by (simpl in *; lia).
        simpl. rewrite Hz. reflexivity.
Qed.

Lemma words_replace_same (s1 s2 : str) :
  words s1 = words s2 ->
  words (str_replace old new s1) = words (str_replace old new s2).
Proof.
  intros E.
  rewrite (words_replace (length s1) s1 (Nat.le_refl _)).
  rewrite (words_replace (length s2) s2 (Nat.le_refl _)).
  rewrite E. reflexivity.
Qed.

End ReplaceWords.

Section Echo.
Import Core ChunkSpec NameSpec PipelineSpec.

Lemma placeholder_solid (c : nat) :
  Forall (fun x => isspace x = false) (placeholder c).
Proof.
  rewrite placeholder_eq. repeat (constructor; [reflexivity|]).
  apply Forall_app. split; [|repeat constructor].
  eapply List.Forall_impl; [|apply str_of_nat_digits].
  intros x [H1 H2]. unfold isspace.
  repeat match goal with
         | |- context [(?a <=? ?b)%N] =>
             destruct (N.leb_spec a b); try lia
         | |- context [(?a =? ?b)%N] =>
             destruct (N.eqb_spec a b); try lia
         end; reflexivity.
Qed.

Lemma restore_words (l : list found) :
  forall (c : nat) (s1 s2 : str),
    words s1 = words s2 ->
    words (restore_names_and_entities s1 (entries c l))
    = words (restore_names_and_entities s2 (entries c l)).
Proof.
  unfold restore_names_and_entities.
  induction l as [|m l IH]; intros c s1 s2 E; [exact E|].
  cbn [entries fold_left fst snd]. apply IH.
  apply words_replace_same; [|apply placeholder_solid| exact E].
  rewrite placeholder_eq. discriminate.
Qed.

Context {W : Type} (env : Env W).
Variables src dest : str.
Hypothesis echo :
  forall w chunk,
    fst (api_translate env w chunk src dest) = Return (Translated (Some chunk)).

Lemma echo_slots (chunks results : list str) :
  Forall2 (slot_ok env src dest) chunks results -> results = chunks.
Proof.
  induction 1 as [|chunk r chunks results [[->|(_ & w & Hw)] _] _ IH].
  - reflexivity.
  - rewrite IH. reflexivity.
  - rewrite echo in Hw. injection Hw as ->. rewrite IH. reflexivity.
Qed.

Lemma echo_run (chunk_size : nat) (text : str) (st : W * list event) :
  ProtectSpec.finds_ok text (name_spans env text) ->
  pairwise_apart (concat (name_spans env text)) ->
  Forall (fun x => x <> UNDERSCORE) text ->
  exists out st',
    translate_text_chunks env chunk_size text src dest st = (Return out, st') /\
    normalize_ws out = normalize_ws text.
Proof.
  intros Hf Hp Hu. unfold translate_text_chunks.
  destruct (strip text) as [|c0 s0]; [unfold ret; eauto|].
  unfold preserve_names_and_entities.
  rewrite (preserve_names_eq text (name_spans env text) Hf Hp).
  set (l := sort_desc (collect_matches text (name_spans env text))).
  set (protected := left_part text 0 l (length text)).
  destruct st as [w trace].
  destruct (translate_loop_spec env src dest (chunk chunk_size protected)
              0 w trace) as (rs & w' & evs & per & E & _ & _ & Hslots).
  rewrite (bind_return _ _ _ _ _ E). unfold ret.
  eexists _, _. split; [reflexivity|].
  rewrite (echo_slots _ _ Hslots). unfold normalize_ws. f_equal.
  rewrite (restore_words l 0 _ protected).
  - pose proof (restore_names_fold text Hu l 0 (length text)) as H.
    rewrite List.skipn_all, app_nil_r in H. fold protected in H.
    rewrite H; [reflexivity | | apply Nat.le_refl].
    apply name_sort_chain; [apply collect_matches_ok, Hf|].
    rewrite collect_matches_spans. exact Hp.
  - unfold chunk, split_sentences.
    rewrite words_join, words_make_chunks, words_pieces. reflexivity.
Qed.

End Echo.

(** X18.  The chunked translation of src/pdf_translator.py with a service
    that hands every chunk back as it is, on a text without underscore in
    which no two spans of the name patterns share a position: the result
    is the text up to white space (every run of white space taken as one
    space, none at the ends).  Protecting, chunking, joining and restoring
    lose nothing else, whatever the chunk size is. *)
Theorem echo_keeps_the_words {W : Type} (env : Env W) (chunk_size : nat)
    (text src dest : str) (st : W * list event) :
  (forall w chunk,
      fst (api_translate env w chunk src dest)
      = Return (Translated (Some chunk))) ->
  ProtectSpec.finds_ok text (name_spans env text) ->
  NameSpec.pairwise_apart (concat (name_spans env text)) ->
  Forall (fun x => x <> NameSpec.UNDERSCORE) text ->
  exists out st',
    Core.translate_text_chunks env chunk_size text src dest st
    = (Return out, st') /\
    ChunkSpec.normalize_ws out = ChunkSpec.normalize_ws text.
Proof. intros. apply echo_run; assumption. Qed.

Lemma echo_keeps_the_words_witness :
  exists out st',
    Core.translate_text_chunks (Samples.desk Samples.one_page Cases.echo) 20
      Cases.two_sentences (u "en") (u "en") Samples.start
    = (Return out, st') /\
    ChunkSpec.normalize_ws out = ChunkSpec.normalize_ws Cases.two_sentences.
Proof.
  apply (echo_keeps_the_words (Samples.desk Samples.one_page Cases.echo) 20
           Cases.two_sentences (u "en") (u "en") Samples.start).
  - intros w chunk. reflexivity.
  - vm_compute. repeat constructor.
  - vm_compute. repeat constructor; lia.
  - apply forallb_neq. vm_compute. reflexivity.
Defined.

(** The same run, computed: two chunks go out with their placeholders, and
    the two spaces between the sentences come back as one. *)
Example echo_run_ex :
  Core.translate_text_chunks (Samples.desk Samples.one_page Cases.echo) 20
    Cases.two_sentences (u "en") (u "en") Samples.start
  = (Return (u "We met John Smith. He knows Mary Jones."),
     (tt, [EvTranslate (u "We met __NAME_1__.") (u "en") (u "en");
           EvSleep 200;
           EvTranslate (u "He knows __NAME_0__.") (u "en") (u "en")])).
Proof. vm_compute. reflexivity. Qed.

(** ** The background task of the web front ends *)
Section TaskStore.
Import Tasks.
Context {W : Type}.

Lemma send_run (emit : W -> dict -> result unit * W) (payload : dict)
    (a : app W) :
  send emit payload a
  = (fst (emit (fst (world a)) payload),
     {| world := (snd (emit (fst (world a)) payload), snd (world a));
        active_translations := active_translations a;
        emitted := emitted a ++ [payload] |}).
Proof. unfold send. destruct (emit _ _). reflexivity. Qed.

End TaskStore.

Ltac task_store :=
  cbn [Tasks.world Tasks.with_world Tasks.set_task Tasks.active_translations
       Tasks.emitted fst snd];
  unfold Tasks.get_status;
  cbn [Tasks.world Tasks.active_translations Tasks.emitted fst snd];
  rewrite ?lookup_insert_eq, <- ?app_assoc.

Ltac task_frame :=
  let other := fresh "other" in
  let Ho := fresh "Ho" in
  intros other Ho; cbn [Tasks.active_translations Tasks.set_task
                        Tasks.with_world snd];
  rewrite ?lookup_insert_ne by congruence; reflexivity.

(** X20.  [translate_pdf_background] of src/webapp/app.py, run on its own,
    changes the record of no other task, and [get_status] answers 200 with
    the record of its own task afterwards.  It sends 'processing', calls
    the translator and, when that returned a path, stores the 'completed'
    record with the base name of the path and sends 'completed'; it then
    returns.  When one of these three steps raises (the sending of
    'processing', the translator, or the sending of 'completed', in which
    case 'completed' was stored and sent before), the task's record
    becomes 'failed' with the text of that exception and no file, 'failed'
    is sent in the state that step left, and the function raises exactly
    when this sending of 'failed' raises. *)
Theorem app_task_settles {W : Type}
    (translate_single_pdf : str -> option str -> str -> M W str)
    (emit : W -> dict -> result unit * W)
    (basename : str -> str) (describe : Tasks.raised -> str)
    (file_path source_lang task_id filename : str) (a : Tasks.app W) :
  let processing :=
    [(u "task_id", task_id); (u "status", u "processing");
     (u "message", u "Processing " ++ filename ++ u "...")] in
  let completed := fun path =>
    [(u "task_id", task_id); (u "status", u "completed");
     (u "message", u "Translation of " ++ filename ++ u " completed!");
     (u "download_url", u "/download/" ++ basename path)] in
  let failed := fun e =>
    [(u "task_id", task_id); (u "status", u "failed");
     (u "message", u "Translation failed: " ++ describe e)] in
  let out :=
    App.translate_pdf_background translate_single_pdf emit basename describe
      file_path source_lang task_id filename a in
  (* the step before raised [e], after the notifications [before], and
     left the state [w] and the trace [trace] *)
  let fails := fun (e : Tasks.raised) (before : list dict) (w : W)
                   (trace : list event) =>
    Tasks.get_status task_id (snd out)
    = ([(u "status", u "failed"); (u "error", describe e)], 200) /\
    Tasks.emitted (snd out) = Tasks.emitted a ++ before ++ [failed e] /\
    fst out = fst (emit w (failed e)) /\
    Tasks.world (snd out) = (snd (emit w (failed e)), trace) in
  let sent := emit (fst (Tasks.world a)) processing in
  let ran := translate_single_pdf file_path None source_lang
               (snd sent, snd (Tasks.world a)) in
  (forall other, other <> task_id ->
     Tasks.active_translations (snd out) !! other
     = Tasks.active_translations a !! other) /\
  match fst sent with
  | Raise e =>
      fails (Tasks.Failure e) [processing] (snd sent) (snd (Tasks.world a))
  | Return _ =>
      match fst ran with
      | Raise e =>
          fails (Tasks.Failure e) [processing] (fst (snd ran)) (snd (snd ran))
      | Return path =>
          let told := emit (fst (snd ran)) (completed path) in
          match fst told with
          | Raise e =>
              fails (Tasks.Failure e) [processing; completed path]
                    (snd told) (snd (snd ran))
          | Return _ =>
              Tasks.get_status task_id (snd out)
              = ([(u "status", u "completed");
                  (u "translated_file", basename path);
                  (u "original_file", filename)], 200) /\
              Tasks.emitted (snd out)
              = Tasks.emitted a ++ [processing; completed path] /\
              fst out = Return tt /\
              Tasks.world (snd out) = (snd told, snd (snd ran))
          end
      end
  end.
Proof.
  cbv zeta. unfold App.translate_pdf_background, App.on_error.
  rewrite !send_run.
  destruct (emit (fst (Tasks.world a)) _) as [[[]|e1] w1] eqn:E1;
    cbn [fst snd Tasks.world].
  - destruct (translate_single_pdf file_path None source_lang _)
      as [[path|e2] st] eqn:E2; cbn [fst snd].
    + rewrite !send_run. task_store.
      destruct (emit (fst st) _) as [[[]|e3] w3] eqn:E3; cbn [fst snd].
      * split; [task_frame|]. task_store. repeat split.
      * rewrite !send_run. split; [task_frame|]. task_store. repeat split.
    + rewrite !send_run. split; [task_frame|]. task_store. repeat split.
  - rewrite !send_run. split; [task_frame|]. task_store. repeat split.
Qed.

